(** * queue-sim: the steady-state queue solvers and the simulator's tick

    A shallow embedding of [src/queueModel.ts] (numeric kernel, the
    finite, infinite and priority solvers) and of the interval callback
    of [src/QueueSimulator.tsx] with its duration draws, its colour
    draws and its server-resize effect, together with the guards under
    which [App] and [QueueResults] call the solvers.

    JavaScript numbers are modelled through the interface [Number]: the
    solvers are written once, over an arbitrary carrier, and read at two
    instances,
    - [Q], exact rational arithmetic, in which the algebraic identities of
      the queueing formulas are proved, and
    - [float], IEEE 754 binary64 as the kernel computes it, which is the
      arithmetic the program really runs in.

    The server count [c], the capacity [K] and the threshold [Q] are
    integers ([Z]); the module-level factorial cache is threaded through
    every solver as explicit state. *)

From Stdlib Require Import String ZArith QArith Qabs Qround Floats List Bool Lia Lqa.
Import ListNotations.

Set Implicit Arguments.

(** ** Numbers *)

Declare Scope num_scope.
Delimit Scope num_scope with num.

Class Number (num : Type) : Type := {
  NofZ : Z -> num;              (* an integer-valued number *)
  Nadd : num -> num -> num;
  Nsub : num -> num -> num;
  Nmul : num -> num -> num;
  Ndiv : num -> num -> num;
  Nopp : num -> num;
  Math_abs : num -> num;
  Nltb : num -> num -> bool;    (* x < y *)
  Nleb : num -> num -> bool;    (* x <= y *)
  Neqb : num -> num -> bool;    (* x === y *)
  truthy : num -> bool          (* ToBoolean of a number: not 0, not NaN *)
}.

Notation "$ z" := (NofZ z%Z) (at level 5, z at level 0, format "$ z") : num_scope.
Infix "+" := Nadd : num_scope.
Infix "-" := Nsub : num_scope.
Infix "*" := Nmul : num_scope.
Infix "/" := Ndiv : num_scope.
Notation "- x" := (Nopp x) : num_scope.
Infix "<?" := Nltb (at level 70, no associativity) : num_scope.
Infix "<=?" := Nleb (at level 70, no associativity) : num_scope.
Infix "=?" := Neqb (at level 70, no associativity) : num_scope.
(* JavaScript's x > y and x >= y *)
Notation "x >? y" := (Nltb y x)
  (at level 70, no associativity, only parsing) : num_scope.
Notation "x >=? y" := (Nleb y x)
  (at level 70, no associativity, only parsing) : num_scope.

(** Exact rational arithmetic. *)
#[export] Instance Number_Q : Number Q := {
  NofZ := inject_Z;
  Nadd := Qplus;
  Nsub := Qminus;
  Nmul := Qmult;
  Ndiv := Qdiv;
  Nopp := Qopp;
  Math_abs := Qabs;
  Nltb := fun x y => negb (Qle_bool y x);
  Nleb := Qle_bool;
  Neqb := Qeq_bool;
  truthy := fun x => negb (Qeq_bool x 0)
}.

(** IEEE 754 binary64.  Integers convert exactly below 2^53 in absolute
    value, which covers every integer the solvers convert. *)
Definition float_of_Z (z : Z) : float :=
  match z with
  | Z0 => PrimFloat.zero
  | Zpos _ => PrimFloat.of_uint63 (Uint63.of_Z z)
  | Zneg p => PrimFloat.opp (PrimFloat.of_uint63 (Uint63.of_Z (Zpos p)))
  end.

#[export] Instance Number_float : Number float := {
  NofZ := float_of_Z;
  Nadd := PrimFloat.add;
  Nsub := PrimFloat.sub;
  Nmul := PrimFloat.mul;
  Ndiv := PrimFloat.div;
  Nopp := PrimFloat.opp;
  Math_abs := PrimFloat.abs;
  Nltb := PrimFloat.ltb;
  Nleb := PrimFloat.leb;
  Neqb := PrimFloat.eqb;
  truthy := fun x => negb (PrimFloat.eqb x PrimFloat.zero || PrimFloat.is_nan x)
}.

(** ** Exceptions and the shared factorial cache *)

Inductive JsError : Type := Error (message : string).

Inductive Outcome (A : Type) : Type :=
| Return (a : A)
| Throw (e : JsError).
Arguments Return {A} a.
Arguments Throw {A} e.

(** A computation that reads and extends [factorialCache] and may throw. *)
Definition M (num A : Type) : Type := list num -> Outcome A * list num.

Definition ret {num A} (a : A) : M num A := fun cache => (Return a, cache).

Definition throw {num A} (e : JsError) : M num A := fun cache => (Throw e, cache).

Definition bind {num A B} (m : M num A) (k : A -> M num B) : M num B :=
  fun cache =>
    match m cache with
    | (Return a, cache') => k a cache'
    | (Throw e, cache') => (Throw e, cache')
    end.

Notation "x <- m ;; k" := (bind m (fun x => k))
  (at level 61, m at next level, right associativity).

(** ** Result records *)

Module FiniteQueueResult.
Record t (num : Type) : Type := mk {
  R : num;                     (* average rate joining the system *)
  RiPb : num;                  (* average rate leaving without service *)
  Pb : num;                    (* probability the system is full *)
  Ii : num;                    (* average number in the waiting line *)
  Ti : num;                    (* average waiting time in the queue *)
  Ip : num;                    (* average number being served *)
  Utilization : num;
  I : num;                     (* average number in the system *)
  T : num;                     (* average time in the system *)
  P_q_gt_Q : option num;
  stateProbabilities : list num
}.
End FiniteQueueResult.

Module InfiniteQueueResult.
Record t (num : Type) : Type := mk {
  Ii : num;
  Ti : num;
  Ip : num;
  Utilization : num;
  I : num;
  T : num;
  Pw : num;                    (* probability an arrival must wait *)
  P_q_gt_Q : option num
}.
End InfiniteQueueResult.

Record PriorityClassResult (num : Type) : Type := {
  Ii_k : num;                  (* average number in queue for this class *)
  Ti_k : num                   (* average wait time for this class *)
}.

Record PriorityQueueResult (num : Type) : Type := {
  classes : list (PriorityClassResult num);
  Ii_total : num
}.

Section Kernel.
Context {num : Type} `{Number num}.
Local Open Scope num_scope.

(** The decimal literal [1e-12]: the quotient of two exactly
    representable integers, hence the literal's own value at either
    instance. *)
Definition lit_1e_12 : num := $1 / $1000000000000.

(** [Math.pow] at an integer exponent, as the power it approximates.
    At [Q] this is the power itself.  At [float] it is the product taken
    from the right, which is what [Math.pow] returns for the exponents
    0, 1 and 2 ([1], [x] and [x * x]); the statements evaluated at
    [float] below call it with no other exponent. *)
Fixpoint pow_nat (x : num) (n : nat) : num :=
  match n with
  | O => $1
  | S k => x * pow_nat x k
  end.

Definition Math_pow (x : num) (z : Z) : num :=
  match z with
  | Z0 => $1
  | Zpos p => pow_nat x (Pos.to_nat p)
  | Zneg p => $1 / pow_nat x (Pos.to_nat p)
  end.

(** Sum_{k=0..m} r^k, stable near r=1. *)
Definition geomSum (r : num) (m : Z) : num :=
  if Math_abs ($1 - r) <? lit_1e_12 then $m + $1
  else ($1 - Math_pow r (m + 1)) / ($1 - r).

(** Sum_{k=1..m} k * r^k, stable near r=1. *)
Definition geomWeightedSum (r : num) (m : Z) : num :=
  if (m <=? 0)%Z then $0
  else if Math_abs ($1 - r) <? lit_1e_12 then ($m * ($m + $1)) / $2
  else (r * ($1 - ($m + $1) * Math_pow r m + $m * Math_pow r (m + 1)))
       / Math_pow ($1 - r) 2.

(** [a[i] = v] on a dense array: an index below the length overwrites,
    the index [length a] appends.  [factorial] writes at no other
    index. *)
Definition array_set (a : list num) (i : nat) (v : num) : list num :=
  if (i <? length a)%nat then firstn i a ++ v :: skipn (S i) a
  else a ++ [v].

(** The body of [for (let i = factorialCache.length; i <= n; i++)],
    run [count] times from index [i]. *)
Fixpoint factorial_loop (count i : nat) (result : num) (cache : list num)
  : list num :=
  match count with
  | O => cache
  | S count' =>
      let result' := result * $(Z.of_nat i) in
      factorial_loop count' (S i) result' (array_set cache i result')
  end.

(** [factorialCache] starts as [[1]] and only grows, so the two reads
    below are always in range; [$0] stands for the unreachable
    out-of-range read. *)
Definition factorial (n : Z) : M num num := fun factorialCache =>
  if (n <? 0)%Z then
    throw (Error "Factorial not defined for negative numbers") factorialCache
  else if (n =? 0)%Z || (n =? 1)%Z then ret $1 factorialCache
  else
    let k := Z.to_nat n in
    let extend :=
      let len := length factorialCache in
      let result := nth (len - 1) factorialCache $0 in
      let cache' := factorial_loop (S k - len) len result factorialCache in
      (Return (nth k cache' $0), cache') in
    match nth_error factorialCache k with
    | Some v => if truthy v then (Return v, factorialCache) else extend
    | None => extend
    end.

(** The cache when the module is loaded: [0! = 1]. *)
Definition factorialCache0 : list num := [$1].

(** The cache after a sequence of calls, from a given cache. *)
Definition cache_after (ns : list Z) (cache : list num) : list num :=
  fold_left (fun cache n => snd (factorial n cache)) ns cache.

(** What the loop stores at index [n]. *)
Fixpoint fact_num (n : nat) : num :=
  match n with
  | O => $1
  | S k => fact_num k * $(Z.of_nat (S k))
  end.

(** What [factorial n] returns: the literal [1] for [n <= 1], the cache
    entry after that. *)
Definition factorial_value (n : nat) : num :=
  match n with
  | O | S O => $1
  | _ => fact_num n
  end.

(** The cache holds its entries [0 .. len-1], each as the loop left it.
    This is the invariant of the module-level array: it holds when the
    module is loaded, and [factorial] and the solvers keep it. *)
Definition cache_ok (cache : list num) : Prop :=
  exists len : nat, cache = map fact_num (seq 0 (S len)).

(** ** The solvers *)

(** [for (let n = 0; n < c; n++) sum0 += Math.pow(a, n) / factorial(n)],
    over the indices [ns]. *)
Fixpoint sum0_loop (a : num) (ns : list nat) (sum0 : num) : M num num :=
  match ns with
  | [] => ret sum0
  | n :: ns' =>
      f <- factorial (Z.of_nat n) ;;
      sum0_loop a ns' (sum0 + Math_pow a (Z.of_nat n) / f)
  end.

(** The closure [Pn] of [mmckFinite]. *)
Definition Pn (P0 a rho : num) (c n : Z) : M num num :=
  if (n <? c)%Z then
    f <- factorial n ;;
    ret (P0 * Math_pow a n / f)
  else
    let m := (n - c)%Z in
    f <- factorial c ;;
    ret ((P0 * Math_pow a c / f) * Math_pow rho m).

(** [for (let n = 0; n <= N; n++) stateProbabilities.push(Pn(n))]. *)
Fixpoint stateProbabilities_loop (Pn : Z -> M num num) (ns : list nat)
    (stateProbabilities : list num) : M num (list num) :=
  match ns with
  | [] => ret stateProbabilities
  | n :: ns' =>
      p <- Pn (Z.of_nat n) ;;
      stateProbabilities_loop Pn ns' (stateProbabilities ++ [p])
  end.

(** Finite-capacity M/M/c/K queue (balking when the system is full). *)
Definition mmckFinite (c K : Z) (arrivalRate serviceRate : num) (Q : option Z)
  : M num (FiniteQueueResult.t num) :=
  if (c <? 1)%Z || (K <? 0)%Z then
    throw (Error "c must be >= 1 and K must be >= 0")
  else
    let lam := arrivalRate in
    let mu := serviceRate in
    let a := lam / mu in
    let rho := lam / ($c * mu) in
    let N := (c + K)%Z in
    sum0 <- sum0_loop a (seq 0 (Z.to_nat c)) $0 ;;
    fc <- factorial c ;;
    let term := (Math_pow a c / fc) * geomSum rho K in
    let P0 := $1 / (sum0 + term) in
    Pb <- Pn P0 a rho c N ;;
    let R := lam * ($1 - Pb) in
    let RiPb := lam * Pb in
    fc' <- factorial c ;;
    let coeff := (P0 * Math_pow a c) / fc' in
    let Ii := coeff * geomWeightedSum rho K in
    let Ip := R / mu in
    let Utilization := Ip / $c in
    let I := Ii + Ip in
    let Ti := if R >? $0 then Ii / R else $0 in
    let T := if R >? $0 then I / R else $0 in
    let P_q_gt_Q :=
      match Q with
      | None => None
      | Some Q =>
          if (Q >=? K)%Z then Some $0
          else Some (coeff * (geomSum rho K - geomSum rho Q))
      end in
    stateProbabilities <-
      stateProbabilities_loop (Pn P0 a rho c) (seq 0 (Z.to_nat (N + 1))) [] ;;
    ret (FiniteQueueResult.mk R RiPb Pb Ii Ti Ip Utilization I T P_q_gt_Q
           stateProbabilities).

(** Infinite-capacity M/M/c queue.  The optional wait-time tail
    [P_wait_gt_t = Pw * Math.exp(-rate * t)] is left out: it is computed
    after both checks, cannot throw, and feeds no other field. *)
Definition mmcInfinite (c : Z) (arrivalRate serviceRate : num) (Q : option Z)
  : M num (InfiniteQueueResult.t num) :=
  if (c <? 1)%Z then throw (Error "c must be >= 1")
  else
    let lam := arrivalRate in
    let mu := serviceRate in
    let a := lam / mu in
    let rho := lam / ($c * mu) in
    if rho >=? $1 then
      throw (Error "System must be stable: arrivalRate < c * serviceRate")
    else
      sum0 <- sum0_loop a (seq 0 (Z.to_nat c)) $0 ;;
      fc <- factorial c ;;
      let termc := (Math_pow a c / fc) * ($1 / ($1 - rho)) in
      let P0 := $1 / (sum0 + termc) in
      fc' <- factorial c ;;
      let Lq := (P0 * Math_pow a c * rho) / (fc' * Math_pow ($1 - rho) 2) in
      let Wq := Lq / lam in
      let Ip := a in
      let Utilization := rho in
      let L := Lq + Ip in
      let W := Wq + $1 / mu in
      fc'' <- factorial c ;;
      let Pw := (Math_pow a c / (fc'' * ($1 - rho))) * P0 in
      P_q_gt_Q <-
        match Q with
        | None => ret None
        | Some Q =>
            let tail := Math_pow rho (Q + 1) / ($1 - rho) in
            fcQ <- factorial c ;;
            ret (Some ((P0 * Math_pow a c / fcQ) * tail))
        end ;;
      ret (InfiniteQueueResult.mk Lq Wq Ip Utilization L W Pw P_q_gt_Q).

(** The loop of [mmcPriority] from class [k] on, over the remaining
    fractions. *)
Fixpoint classes_loop (Ii_total rho lam : num) (k : nat)
    (classFractions : list num) (F_prev : num)
    (classes : list (PriorityClassResult num))
  : list (PriorityClassResult num) :=
  match classFractions with
  | [] => classes
  | fraction_k :: rest =>
      let F_k := F_prev - fraction_k * rho in
      let Ii_k :=
        if (k =? 0)%nat then (Ii_total * fraction_k * ($1 - rho)) / F_k
        else (Ii_total * fraction_k * ($1 - rho)) / (F_k * F_prev) in
      let Ti_k := if fraction_k >? $0 then Ii_k / (fraction_k * lam) else $0 in
      classes_loop Ii_total rho lam (S k) rest F_k
        (classes ++ [{| Ii_k := Ii_k; Ti_k := Ti_k |}])
  end.

(** Non-preemptive priority M/M/c queue. *)
Definition mmcPriority (c : Z) (arrivalRate serviceRate : num)
    (classFractions : list num) : M num (PriorityQueueResult num) :=
  let lam := arrivalRate in
  let mu := serviceRate in
  let rho := lam / ($c * mu) in
  if rho >=? $1 then
    throw (Error "System must be stable: arrivalRate < c * serviceRate")
  else
    overallResult <- mmcInfinite c lam mu None ;;
    let Ii_total := InfiniteQueueResult.Ii overallResult in
    ret {| classes := classes_loop Ii_total rho lam 0 classFractions $1 [];
           Ii_total := Ii_total |}.

End Kernel.

(** ** The simulator: duration draws and the tick *)

Record Customer (num : Type) : Type := {
  id : Z;
  arrivalTime : num;
  serviceTime : num;
  startServiceTime : option num;
  endServiceTime : option num;
  serverId : option nat;
  collarColor : string;
  furColor : string
}.

Module ArrivingDog.
Record t (num : Type) : Type := mk {
  id : Z;
  startTime : num;
  arrivalTime : num;
  collarColor : string;
  furColor : string
}.
End ArrivingDog.

(** The refs and counters a tick reads and writes. *)
Record SimState (num : Type) : Type := {
  currentTime : num;
  nextArrivalTime : num;
  nextCustomerId : Z;
  arrivingDogs : list (ArrivingDog.t num);
  queue : list (Customer num);
  servers : list (option (Customer num));
  completedCount : Z;
  totalArrived : Z;
  queueHistory : list (num * nat)
}.

(** The parameters the interval callback closes over. *)
Record SimParams (num : Type) : Type := {
  arrivalRate : num;
  serviceRate : num;
  cvArrival : num;
  cvService : num;
  speed : num
}.

Section Simulator.
Context {num : Type} `{Number num}.
Local Open Scope num_scope.

(** The random source: [Math.random] draws a number and advances the
    generator.  [Math.log] and [Math.floor] are taken as they come. *)
Variable Rng : Type.
Variable Math_random : Rng -> num * Rng.
Variable Math_log : num -> num.
Variable Math_floor : num -> Z.

Definition Math_max (x y : num) : num := if x <? y then y else x.

Definition generateRandomTime (mean cv : num) (g : Rng) : num * Rng :=
  if cv =? $0 then (mean, g)
  else if cv =? $1 then
    let (u, g') := Math_random g in
    ((- Math_log ($1 - u)) * mean, g')
  else
    let deterministic := mean in
    let (u, g') := Math_random g in
    let exponential := (- Math_log ($1 - u)) * mean in
    (deterministic * ($1 - cv) + exponential * cv, g').

Definition collarColors : list string :=
  ["#ef4444"; "#3b82f6"; "#10b981"; "#f59e0b"; "#8b5cf6"; "#ec4899"]%string.

Definition furColors : list string :=
  ["#d4a574"; "#8b6914"; "#4a3728"; "#2d2d2d"; "#f5f5dc"; "#a0522d";
   "#d2b48c"; "#696969"]%string.

(** [colors[Math.floor(Math.random() * colors.length)]]; the empty string
    stands for an index outside the table. *)
Definition pickColor (colors : list string) (g : Rng) : string * Rng :=
  let (u, g') := Math_random g in
  (nth (Z.to_nat (Math_floor (u * $(Z.of_nat (length colors))))) colors
     EmptyString, g').

Definition generateDogColors (g : Rng) : (string * string) * Rng :=
  let (collar, g1) := pickColor collarColors g in
  let (fur, g2) := pickColor furColors g1 in
  ((collar, fur), g2).

Definition walkTime : num := $2.

(** [while (nextArrivalTime.current <= newTime + walkTime)]: [None] when
    the loop has not left after [fuel] rounds. *)
Fixpoint arrivals_loop (fuel : nat) (p : SimParams num) (newTime : num)
    (nextArrival : num) (nextId : Z) (dogs : list (ArrivingDog.t num))
    (g : Rng) : option (num * Z * list (ArrivingDog.t num) * Rng) :=
  if nextArrival <=? newTime + walkTime then
    match fuel with
    | O => None
    | S fuel' =>
        let arrivalTime := nextArrival in
        let existingDog :=
          find (fun d => Math_abs (ArrivingDog.arrivalTime d - arrivalTime)
                         <? $1 / $100) dogs in
        let '(nextId', dogs', g1) :=
          match existingDog with
          | Some _ => (nextId, dogs, g)
          | None =>
              let '((collar, fur), g1) := generateDogColors g in
              let newDog :=
                ArrivingDog.mk nextId (Math_max $0 (arrivalTime - walkTime))
                  arrivalTime collar fur in
              ((nextId + 1)%Z, dogs ++ [newDog], g1)
          end in
        let (interarrivalTime, g2) :=
          generateRandomTime ($1 / arrivalRate p) (cvArrival p) g1 in
        arrivals_loop fuel' p newTime (nextArrival + interarrivalTime)
          nextId' dogs' g2
    end
  else Some (nextArrival, nextId, dogs, g).

(** [for (const dog of arrivedDogs)]: each arrived dog joins the waiting
    line with a drawn service time. *)
Fixpoint enqueue_arrived (p : SimParams num) (arrivedDogs : list (ArrivingDog.t num))
    (queue : list (Customer num)) (totalArrived : Z) (g : Rng)
  : list (Customer num) * Z * Rng :=
  match arrivedDogs with
  | [] => (queue, totalArrived, g)
  | dog :: rest =>
      let (serviceTime, g') :=
        generateRandomTime ($1 / serviceRate p) (cvService p) g in
      let newCustomer :=
        {| id := ArrivingDog.id dog;
           arrivalTime := ArrivingDog.arrivalTime dog;
           serviceTime := serviceTime;
           startServiceTime := None;
           endServiceTime := None;
           serverId := None;
           collarColor := ArrivingDog.collarColor dog;
           furColor := ArrivingDog.furColor dog |} in
      enqueue_arrived p rest (queue ++ [newCustomer]) (totalArrived + 1)%Z g'
  end.

(** A server's occupant leaves once its end-of-service time is reached. *)
Definition serviceCompleted (newTime : num) (slot : option (Customer num)) : bool :=
  match slot with
  | Some customer =>
      match endServiceTime customer with
      | Some e => truthy e && (newTime >=? e)
      | None => false
      end
  | None => false
  end.

Definition release (newTime : num) (servers : list (option (Customer num)))
  : list (option (Customer num)) :=
  map (fun slot => if serviceCompleted newTime slot then None else slot) servers.

Definition countCompletions (newTime : num)
    (servers : list (option (Customer num))) : Z :=
  Z.of_nat (length (filter (serviceCompleted newTime) servers)).

(** [for (let i = 0; i < servers.length && queue.length > 0; i++)]: free
    servers take the front of the waiting line. *)
Fixpoint assign (newTime : num) (i : nat) (servers : list (option (Customer num)))
    (queue : list (Customer num))
  : list (option (Customer num)) * list (Customer num) :=
  match servers, queue with
  | [], _ => ([], queue)
  | _, [] => (servers, [])
  | Some occupant :: rest, _ =>
      let (rest', queue') := assign newTime (S i) rest queue in
      (Some occupant :: rest', queue')
  | None :: rest, customer :: waiting =>
      let customer' :=
        {| id := id customer;
           arrivalTime := arrivalTime customer;
           serviceTime := serviceTime customer;
           startServiceTime := Some newTime;
           endServiceTime := Some (newTime + serviceTime customer);
           serverId := Some i;
           collarColor := collarColor customer;
           furColor := furColor customer |} in
      let (rest', queue') := assign newTime (S i) rest waiting in
      (Some customer' :: rest', queue')
  end.

(** One run of the interval callback. *)
Definition tick (fuel : nat) (p : SimParams num) (s : SimState num) (g : Rng)
  : option (SimState num * Rng) :=
  let newTime := currentTime s + ($1 / $10) * speed p in
  match arrivals_loop fuel p newTime (nextArrivalTime s) (nextCustomerId s)
          (arrivingDogs s) g with
  | None => None
  | Some (nextArrival, nextId, dogs, g1) =>
      let arrivedDogs :=
        filter (fun d => newTime >=? ArrivingDog.arrivalTime d) dogs in
      let dogs' := filter (fun d => newTime <? ArrivingDog.arrivalTime d) dogs in
      let '(queue1, arrived, g2) :=
        enqueue_arrived p arrivedDogs (queue s) (totalArrived s) g1 in
      let completions := countCompletions newTime (servers s) in
      let servers1 := release newTime (servers s) in
      let (servers2, queue2) := assign newTime 0 servers1 queue1 in
      let history :=
        if Z.gtb (Math_floor (newTime * $2))
                 (Math_floor ((newTime - ($1 / $10) * speed p) * $2))
        then queueHistory s ++ [(newTime, length queue2)]
        else queueHistory s in
      Some ({| currentTime := newTime;
               nextArrivalTime := nextArrival;
               nextCustomerId := nextId;
               arrivingDogs := dogs';
               queue := queue2;
               servers := servers2;
               completedCount := (completedCount s + completions)%Z;
               totalArrived := arrived;
               queueHistory := history |}, g2)
  end.

(** A sequence of ticks, one per entry of [ps]. *)
Fixpoint ticks (fuel : nat) (ps : list (SimParams num)) (s : SimState num) (g : Rng)
  : option (SimState num * Rng) :=
  match ps with
  | [] => Some (s, g)
  | p :: ps' =>
      match tick fuel p s g with
      | None => None
      | Some (s', g') => ticks fuel ps' s' g'
      end
  end.

End Simulator.

(** The state after [resetSimulation] with [numServers] servers. *)
Definition resetSimulation {num : Type} `{Number num} (numServers : nat)
  : SimState num :=
  {| currentTime := NofZ 0;
     nextArrivalTime := NofZ 0;
     nextCustomerId := 1;
     arrivingDogs := [];
     queue := [];
     servers := repeat None numServers;
     completedCount := 0;
     totalArrived := 0;
     queueHistory := [] |}.

(** What a test of job times observes: everything but the colours drawn
    for display. *)
Definition customerTiming {num : Type} (c : Customer num)
  : Z * num * num * option num * option num * option nat :=
  (id c, arrivalTime c, serviceTime c, startServiceTime c, endServiceTime c,
   serverId c).

Definition dogTiming {num : Type} (d : ArrivingDog.t num) : Z * num * num :=
  (ArrivingDog.id d, ArrivingDog.startTime d, ArrivingDog.arrivalTime d).

(** [serviceCompleted], read off a slot's timing. *)
Definition completedTiming {num : Type} `{Number num} (newTime : num)
    (t : option (Z * num * num * option num * option num * option nat)) : bool :=
  match t with
  | Some (_, _, _, _, Some e, _) => truthy e && Nleb e newTime
  | _ => false
  end.

(** Two simulator states that agree on everything but colours. *)
Definition sameTiming {num : Type} (s1 s2 : SimState num) : Prop :=
  currentTime s1 = currentTime s2
  /\ nextArrivalTime s1 = nextArrivalTime s2
  /\ nextCustomerId s1 = nextCustomerId s2
  /\ map dogTiming (arrivingDogs s1) = map dogTiming (arrivingDogs s2)
  /\ map customerTiming (queue s1) = map customerTiming (queue s2)
  /\ map (option_map customerTiming) (servers s1)
     = map (option_map customerTiming) (servers s2)
  /\ completedCount s1 = completedCount s2
  /\ totalArrived s1 = totalArrived s2
  /\ queueHistory s1 = queueHistory s2.

(** Two runs end alike: both still in the arrival loop when the fuel ran
    out, or both done, in states that agree on every time. *)
Definition sameOutcome {num Rng1 Rng2 : Type}
    (r1 : option (SimState num * Rng1)) (r2 : option (SimState num * Rng2))
  : Prop :=
  match r1, r2 with
  | Some (s1, _), Some (s2, _) => sameTiming s1 s2
  | None, None => True
  | _, _ => False
  end.

(** ** What the solvers return on a sound cache

    The definitions below are the solvers with every [factorial] call
    replaced by the value it returns on a sound cache; the lemmas
    [*_returns] further down connect them to the solvers. *)

Section Values.
Context {num : Type} `{Number num}.
Local Open Scope num_scope.

(** [m] returns [v] from every sound cache, and leaves a sound cache. *)
Definition returns {A : Type} (m : M num A) (v : A) : Prop :=
  forall cache, cache_ok cache ->
    exists cache', m cache = (Return v, cache') /\ cache_ok cache'.

Definition sum0_value (a : num) (ns : list nat) (sum0 : num) : num :=
  fold_left
    (fun sum0 n => sum0 + Math_pow a (Z.of_nat n) / factorial_value n) ns sum0.

Definition Pn_value (P0 a rho : num) (c n : Z) : num :=
  if (n <? c)%Z then P0 * Math_pow a n / factorial_value (Z.to_nat n)
  else (P0 * Math_pow a c / factorial_value (Z.to_nat c))
       * Math_pow rho (n - c).

Definition P0_finite (c K : Z) (lam mu : num) : num :=
  let a := lam / mu in
  let rho := lam / ($c * mu) in
  $1 / (sum0_value a (seq 0 (Z.to_nat c)) $0
        + (Math_pow a c / factorial_value (Z.to_nat c)) * geomSum rho K).

Definition mmckFinite_value (c K : Z) (lam mu : num) (Q : option Z)
  : FiniteQueueResult.t num :=
  let a := lam / mu in
  let rho := lam / ($c * mu) in
  let N := (c + K)%Z in
  let P0 := P0_finite c K lam mu in
  let Pb := Pn_value P0 a rho c N in
  let R := lam * ($1 - Pb) in
  let RiPb := lam * Pb in
  let coeff := (P0 * Math_pow a c) / factorial_value (Z.to_nat c) in
  let Ii := coeff * geomWeightedSum rho K in
  let Ip := R / mu in
  let Utilization := Ip / $c in
  let I := Ii + Ip in
  let Ti := if R >? $0 then Ii / R else $0 in
  let T := if R >? $0 then I / R else $0 in
  let P_q_gt_Q :=
    match Q with
    | None => None
    | Some Q =>
        if (Q >=? K)%Z then Some $0
        else Some (coeff * (geomSum rho K - geomSum rho Q))
    end in
  FiniteQueueResult.mk R RiPb Pb Ii Ti Ip Utilization I T P_q_gt_Q
    (map (fun n => Pn_value P0 a rho c (Z.of_nat n)) (seq 0 (Z.to_nat (N + 1)))).

Definition mmcInfinite_value (c : Z) (lam mu : num) (Q : option Z)
  : InfiniteQueueResult.t num :=
  let a := lam / mu in
  let rho := lam / ($c * mu) in
  let fc := factorial_value (Z.to_nat c) in
  let P0 := $1 / (sum0_value a (seq 0 (Z.to_nat c)) $0
                  + (Math_pow a c / fc) * ($1 / ($1 - rho))) in
  let Lq := (P0 * Math_pow a c * rho) / (fc * Math_pow ($1 - rho) 2) in
  let Wq := Lq / lam in
  let Pw := (Math_pow a c / (fc * ($1 - rho))) * P0 in
  InfiniteQueueResult.mk Lq Wq a rho (Lq + a) (Wq + $1 / mu) Pw
    match Q with
    | None => None
    | Some Q =>
        Some ((P0 * Math_pow a c / fc) * (Math_pow rho (Q + 1) / ($1 - rho)))
    end.

Definition mmcPriority_value (c : Z) (lam mu : num) (classFractions : list num)
  : PriorityQueueResult num :=
  let rho := lam / ($c * mu) in
  let Ii_total := InfiniteQueueResult.Ii (mmcInfinite_value c lam mu None) in
  {| classes := classes_loop Ii_total rho lam 0 classFractions $1 [];
     Ii_total := Ii_total |}.

(** The running value of [mmcPriority] after its first [n] classes:
    [F_prev] on entry to round [n]. *)
Fixpoint F_after (rho : num) (classFractions : list num) (n : nat) : num :=
  match n with
  | O => $1
  | S k => F_after rho classFractions k - nth k classFractions $0 * rho
  end.

(** The entry of class [k], from the fraction [f] and the running values
    before ([F_prev]) and after ([F_k]) it. *)
Definition class_entry (Ii_total rho lam : num) (k : nat) (f F_prev F_k : num)
  : PriorityClassResult num :=
  let Ii := if (k =? 0)%nat then (Ii_total * f * ($1 - rho)) / F_k
            else (Ii_total * f * ($1 - rho)) / (F_k * F_prev) in
  {| Ii_k := Ii;
     Ti_k := if f >? $0 then Ii / (f * lam) else $0 |}.

(** A left-to-right sum, as [reduce((s, x) => s + x, 0)]. *)
Definition sumList (l : list num) : num := fold_left Nadd l $0.

End Values.

(** The sum of a list of rationals, term by term. *)
Definition Qsum (l : list Q) : Q := fold_right Qplus 0%Q l.

(** The geometric sum [1 + r + ... + r^m], term by term. *)
Definition geomTerms (r : Q) (m : nat) : Q :=
  Qsum (map (pow_nat r) (seq 0 (S m))).

(** The decimal literal [n/10] (0.2, 0.8, ...): a correctly rounded
    quotient of two integers, which at [float] is the literal's value. *)
Definition tenths {num : Type} `{Number num} (n : Z) : num :=
  Ndiv (NofZ n) (NofZ 10).

(** The rational a binary64 number stands for; [None] for infinities
    and NaN. *)
Definition float_value (x : float) : option Q :=
  match Prim2SF x with
  | S754_zero _ => Some 0%Q
  | S754_finite s m e =>
      Some (Qred ((if s then -1 else 1) * inject_Z (Zpos m) * Qpower 2 e)%Q)
  | S754_infinity _ | S754_nan => None
  end.

(** [n!] as an integer. *)
Fixpoint Zfact (n : nat) : Z :=
  match n with
  | O => 1
  | S k => Zfact k * Z.of_nat (S k)
  end.

(** A number that is [=== 0] fails the test [> 0]. *)
Class ZeroTest (num : Type) {N : Number num} : Prop :=
  zero_not_positive :
    forall x : num, Neqb x (NofZ 0) = true -> Nltb (NofZ 0) x = false.
Arguments ZeroTest num {N}.

(** ** Vocabulary of the further properties *)

(** The weighted geometric sum [r + 2 r^2 + ... + m r^m], term by term. *)
Definition weightedTerms (r : Q) (m : nat) : Q :=
  Qsum (map (fun k => inject_Z (Z.of_nat k) * pow_nat r k)%Q (seq 1 m)).

(** The mean of [g] under a distribution on 0, 1, 2, ... given by the
    list of its probabilities. *)
Definition mean_of (g : nat -> Q) (probs : list Q) : Q :=
  Qsum (map (fun n => g n * nth n probs 0)%Q (seq 0 (length probs))).

(** The probability of state [n] as [mmckFinite] computes it: [Pn(n)]
    with the solver's own [P0], [a] and [rho]. *)
Definition finite_state (c K : nat) (lam mu : Q) (n : nat) : Q :=
  Pn_value (P0_finite (Z.of_nat c) (Z.of_nat K) lam mu) (lam / mu)
    (lam / (inject_Z (Z.of_nat c) * mu)) (Z.of_nat c) (Z.of_nat n).

(** The optional wait-time tail of [mmcInfinite]:
    [if (t !== undefined && t >= 0) result.P_wait_gt_t = Pw * Math.exp(-rate * t)],
    with [Math.exp] taken as it comes. *)
Section WaitTail.
Context {num : Type} `{Number num}.
Local Open Scope num_scope.
Variable Math_exp : num -> num.

Definition P_wait_gt_t (c : Z) (arrivalRate serviceRate Pw : num)
    (t : option num) : option num :=
  match t with
  | Some t =>
      if t >=? $0 then
        let rate := $c * serviceRate - arrivalRate in
        Some (Pw * Math_exp ((- rate) * t))
      else None
  | None => None
  end.

(** [mmcInfinite] with its optional argument [t]: the record of
    [mmcInfinite] and the field [P_wait_gt_t] beside it. *)
Definition mmcInfinite_t (c : Z) (arrivalRate serviceRate : num)
    (Q : option Z) (t : option num)
  : M num (InfiniteQueueResult.t num * option num) :=
  result <- mmcInfinite c arrivalRate serviceRate Q ;;
  ret (result,
       P_wait_gt_t c arrivalRate serviceRate (InfiniteQueueResult.Pw result) t).

End WaitTail.

(** ** The components that call the solvers *)

Inductive QueueType : Type := infinite | finite.

Section Callers.
Context {num : Type} `{Number num}.
Local Open Scope num_scope.

(** [try { return f() } catch (error) { console.error(...); return null }]. *)
Definition try_or_null {A : Type} (m : M num A)
  : list num -> option A * list num :=
  fun cache =>
    match m cache with
    | (Return a, cache') => (Some a, cache')
    | (Throw _, cache') => (None, cache')
    end.

(** The traffic intensity [App] and [QueueResults] display:
    [if (mu <= 0 || c <= 0) return Infinity; return lambda / (c * mu)].
    [None] stands for [Infinity]. *)
Definition rho_of (c : Z) (lambda mu : num) : option num :=
  if (mu <=? $0) || (c <=? 0)%Z then None else Some (lambda / ($c * mu)).

(** [rho >= 1]; [Infinity >= 1] holds. *)
Definition isUnstable (rho : option num) : bool :=
  match rho with
  | None => true
  | Some rho => rho >=? $1
  end.

(** The memoised [results] of [QueueResults]: a finite result, an
    infinite one with its wait tail, or [null].  The whole body stands
    in one [try]; the unstable branch returns [null] from inside it
    without calling a solver, so only the two solver calls can reach the
    [catch]. *)
Definition results (Math_exp : num -> num) (queueType : QueueType) (c K : Z)
    (lambda mu : num) (Q : Z) (t : num)
  : list num
    -> option (FiniteQueueResult.t num
               + InfiniteQueueResult.t num * option num) * list num :=
  fun cache =>
    match queueType with
    | finite =>
        try_or_null (r <- mmckFinite c K lambda mu (Some Q) ;; ret (inl r)) cache
    | infinite =>
        if isUnstable (rho_of c lambda mu) then (None, cache)
        else
          try_or_null
            (r <- mmcInfinite_t Math_exp c lambda mu (Some Q) (Some t) ;;
             ret (inr r)) cache
    end.

(** [App]: class 1 takes what the other classes leave,
    [[1 - sumOthers, ...classFractions.slice(1)]] with
    [sumOthers = classFractions.slice(1).reduce((sum, f) => sum + (f || 0), 0)]. *)
Definition allClassFractions (classFractions : list num) : list num :=
  let sumOthers :=
    fold_left (fun sum f => sum + (if truthy f then f else $0))
      (tl classFractions) $0 in
  let fraction1 := $1 - sumOthers in
  fraction1 :: tl classFractions.

(** [App]'s validation of its inputs; [Math.round] is taken as it
    comes. *)
Variable Math_round : num -> Z.

Definition lambdaClamped (lambda : num) : num := Math_max $0 lambda.
Definition muClamped (mu : num) : num := Math_max $0 mu.
Definition cClamped (c : num) : Z := Z.max 1 (Math_round c).
Definition KClamped (K : num) : Z := Z.max 0 (Math_round K).

(** The memoised [priorityResults] of [App]. *)
Definition priorityResults (usePriorities : bool) (queueType : QueueType)
    (lambda mu c : num) (classFractions : list num)
  : list num -> option (PriorityQueueResult num) * list num :=
  fun cache =>
    let rho := rho_of (cClamped c) (lambdaClamped lambda) (muClamped mu) in
    if negb usePriorities
       || match queueType with infinite => false | finite => true end
       || isUnstable rho
    then (None, cache)
    else
      try_or_null
        (mmcPriority (cClamped c) (lambdaClamped lambda) (muClamped mu)
           (allClassFractions classFractions)) cache.

End Callers.

(** ** The simulator's server array *)

Section Servers.
Context {num : Type}.

(** [newServers[i] = v]: an index inside the array overwrites, which is
    the only case the resize loop meets
    ([i < Math.min(old.length, numServers)]); an index beyond the end
    extends the array, the slots in between left empty. *)
Definition slot_set (newServers : list (option (Customer num))) (i : nat)
    (v : option (Customer num)) : list (option (Customer num)) :=
  if (i <? length newServers)%nat
  then firstn i newServers ++ v :: skipn (S i) newServers
  else newServers ++ repeat None (i - length newServers) ++ [v].

(** [for (let i = 0; i < Math.min(serversRef.current.length, numServers); i++)
      newServers[i] = serversRef.current[i]], run [count] times from [i]. *)
Fixpoint resize_loop (count i : nat) (old newServers : list (option (Customer num)))
  : list (option (Customer num)) :=
  match count with
  | O => newServers
  | S count' =>
      resize_loop count' (S i) old (slot_set newServers i (nth i old None))
  end.

(** The effect run when [numServers] changes. *)
Definition resizeServers (numServers : nat)
    (serversRef : list (option (Customer num)))
  : list (option (Customer num)) :=
  let newServers := repeat None numServers in
  resize_loop (Nat.min (length serversRef) numServers) 0 serversRef newServers.

(** The number of busy servers. *)
Definition busy (servers : list (option (Customer num))) : nat :=
  length (filter (fun slot => match slot with Some _ => true | None => false end)
            servers).

(** A customer in the waiting line has not been stamped yet. *)
Definition unstamped (customer : Customer num) : Prop :=
  startServiceTime customer = None
  /\ endServiceTime customer = None
  /\ serverId customer = None.

End Servers.

(** The customer in slot [i] carries that slot's index, its start of
    service, and that start plus its service time as its end. *)
Definition stamped {num : Type} `{Number num} (i : nat)
    (slot : option (Customer num)) : Prop :=
  match slot with
  | None => True
  | Some customer =>
      serverId customer = Some i
      /\ exists start,
           startServiceTime customer = Some start
           /\ endServiceTime customer = Some (Nadd start (serviceTime customer))
  end.

(** Reading the operations of [Number] at [Q]. *)
Ltac at_Q :=
  cbn [NofZ Nadd Nsub Nmul Ndiv Nopp Math_abs Nltb Nleb Neqb truthy Number_Q]
    in *.

(** ** The numeric kernel *)

Section KernelFacts.
Context {num : Type} `{Number num}.
Local Open Scope num_scope.

Lemma array_set_end (a : list num) (v : num) :
  array_set a (length a) v = a ++ [v].
Proof.
  unfold array_set. now rewrite Nat.ltb_irrefl.
Qed.

(** Started at the end of the array, the loop writes at the end of the
    array in every round: it appends, whatever the array holds. *)
Lemma factorial_loop_appends (count : nat) (result : num) (cache : list num) :
  exists ext,
    factorial_loop count (length cache) result cache = cache ++ ext
    /\ length ext = count.
Proof.
  revert result cache. induction count as [| count IH]; intros result cache.
  - exists []. now rewrite app_nil_r.
  - cbn [factorial_loop]. rewrite array_set_end.
    set (result' := result * $(Z.of_nat (length cache))).
    destruct (IH result' (cache ++ [result'])) as (ext & Hrun & Hlen).
    rewrite length_app, Nat.add_1_r in Hrun.
    exists (result' :: ext). rewrite Hrun, <- app_assoc. split.
    + reflexivity.
    + cbn [length]. now rewrite Hlen.
Qed.

Lemma fact_table_length (n : nat) : length (map fact_num (seq 0 n)) = n.
Proof.
  now rewrite length_map, length_seq.
Qed.

Lemma fact_table_nth (n k : nat) :
  (k < n)%nat -> nth k (map fact_num (seq 0 n)) $0 = fact_num k.
Proof.
  intros Hk.
  rewrite (nth_indep _ $0 (fact_num 0)) by now rewrite fact_table_length.
  rewrite (map_nth fact_num), seq_nth by assumption. reflexivity.
Qed.

Lemma fact_table_nth_error (n k : nat) :
  nth_error (map fact_num (seq 0 n)) k
  = if (k <? n)%nat then Some (fact_num k) else None.
Proof.
  destruct (Nat.ltb_spec k n) as [Hk | Hk].
  - rewrite nth_error_map, nth_error_seq.
    apply Nat.ltb_lt in Hk. now rewrite Hk.
  - apply nth_error_None. now rewrite fact_table_length.
Qed.

Lemma fact_table_app (n m : nat) :
  map fact_num (seq 0 (n + m))
  = map fact_num (seq 0 n) ++ map fact_num (seq n m).
Proof.
  now rewrite seq_app, map_app.
Qed.

(** The loop appends the entries [i .. i+count-1] and touches nothing
    below [i]. *)
Lemma factorial_loop_table (count i : nat) :
  factorial_loop count (S i) (fact_num i) (map fact_num (seq 0 (S i)))
  = map fact_num (seq 0 (S i + count)).
Proof.
  revert i. induction count as [| count IH]; intros i.
  - now rewrite Nat.add_0_r.
  - cbn [factorial_loop].
    replace (array_set (map fact_num (seq 0 (S i))) (S i)
               (fact_num i * $(Z.of_nat (S i))))
      with (map fact_num (seq 0 (S (S i)))).
    + change (fact_num i * $(Z.of_nat (S i))) with (fact_num (S i)).
      rewrite IH. f_equal. f_equal. lia.
    + rewrite <- (fact_table_length (S i)) at 3.
      rewrite array_set_end, (seq_S (S i)), map_app. reflexivity.
Qed.

Lemma cache_ok_initial : cache_ok (factorialCache0 (num := num)).
Proof.
  now exists 0%nat.
Qed.

(** One call of [factorial] on a sound cache. *)
Lemma factorial_call (n : Z) (cache : list num) :
  (0 <= n)%Z -> cache_ok cache ->
  exists ext,
    factorial n cache = (Return (factorial_value (Z.to_nat n)), cache ++ ext)
    /\ cache_ok (cache ++ ext)
    /\ length (cache ++ ext)
       = (if (n <=? 1)%Z then length cache
          else Nat.max (length cache) (S (Z.to_nat n))).
Proof.
  intros Hn [len ->]. unfold factorial.
  destruct (Z.ltb_spec n 0) as [Hneg | _]; [lia |].
  destruct (Z.leb_spec n 1) as [Hsmall | Hbig].
  - assert (Hor : ((n =? 0)%Z || (n =? 1)%Z) = true).
    { apply orb_true_iff. rewrite !Z.eqb_eq. lia. }
    rewrite Hor. exists []. rewrite app_nil_r. repeat split.
    + unfold ret. f_equal. f_equal.
      assert (Hk : Z.to_nat n = 0%nat \/ Z.to_nat n = 1%nat) by lia.
      now destruct Hk as [-> | ->].
    + now exists len.
  - assert (Hor : ((n =? 0)%Z || (n =? 1)%Z) = false).
    { apply orb_false_iff. rewrite !Z.eqb_neq. lia. }
    rewrite Hor. cbv zeta.
    set (k := Z.to_nat n).
    assert (Hk : (2 <= k)%nat) by (subst k; lia).
    assert (Hval : factorial_value k = fact_num k).
    { destruct k as [| [| k']]; [lia | lia | reflexivity]. }
    rewrite Hval, fact_table_nth_error, fact_table_length.
    destruct (Nat.ltb_spec k (S len)) as [Hin | Hout].
    + (* the entry is cached: either branch returns it, cache unchanged *)
      exists []. rewrite app_nil_r.
      replace (S k - S len)%nat with 0%nat by lia. cbn [factorial_loop].
      rewrite fact_table_nth by assumption.
      repeat split.
      * now destruct (truthy (fact_num k)).
      * now exists len.
      * rewrite fact_table_length. lia.
    + (* the cache is extended from its high-water mark up to [k] *)
      exists (map fact_num (seq (S len) (k - len))).
      rewrite <- fact_table_app.
      replace (S len - 1)%nat with len by lia.
      rewrite fact_table_nth by lia.
      replace (S k - S len)%nat with (k - len)%nat by lia.
      rewrite factorial_loop_table.
      replace (S len + (k - len))%nat with (S k) by lia.
      rewrite fact_table_nth by lia.
      repeat split.
      * now exists k.
      * rewrite fact_table_length. lia.
Qed.

Lemma returns_ret {A : Type} (v : A) : returns (ret v) v.
Proof.
  intros cache Hok. now exists cache.
Qed.

Lemma returns_bind {A B : Type} (m : M num A) (k : A -> M num B) (v : A) (w : B) :
  returns m v -> returns (k v) w -> returns (bind m k) w.
Proof.
  intros Hm Hk cache Hok. unfold bind.
  destruct (Hm cache Hok) as (cache1 & -> & Hok1).
  exact (Hk cache1 Hok1).
Qed.

Lemma returns_factorial (n : Z) :
  (0 <= n)%Z -> returns (factorial n) (factorial_value (Z.to_nat n)).
Proof.
  intros Hn cache Hok.
  destruct (factorial_call Hn Hok) as (ext & Hrun & Hok' & _).
  now exists (cache ++ ext).
Qed.

End KernelFacts.

(** ** The solvers run on a sound cache *)

Section SolverRuns.
Context {num : Type} `{Number num}.
Local Open Scope num_scope.

Lemma sum0_loop_returns (a : num) (ns : list nat) (sum0 : num) :
  returns (sum0_loop a ns sum0) (sum0_value a ns sum0).
Proof.
  revert sum0. induction ns as [| n ns IH]; intros sum0; cbn [sum0_loop].
  - apply returns_ret.
  - eapply returns_bind.
    + apply returns_factorial. lia.
    + rewrite Nat2Z.id. apply IH.
Qed.

Lemma Pn_returns (P0 a rho : num) (c n : Z) :
  (0 <= c)%Z -> (0 <= n)%Z ->
  returns (Pn P0 a rho c n) (Pn_value P0 a rho c n).
Proof.
  intros Hc Hn. unfold Pn, Pn_value.
  destruct (n <? c)%Z.
  - eapply returns_bind; [now apply returns_factorial | apply returns_ret].
  - eapply returns_bind; [now apply returns_factorial | apply returns_ret].
Qed.

Lemma stateProbabilities_loop_returns (P : Z -> M num num) (f : nat -> num)
    (ns : list nat) (acc : list num) :
  (forall n, returns (P (Z.of_nat n)) (f n)) ->
  returns (stateProbabilities_loop P ns acc) (acc ++ map f ns).
Proof.
  intros HP. revert acc.
  induction ns as [| n ns IH]; intros acc; cbn [stateProbabilities_loop map].
  - rewrite app_nil_r. apply returns_ret.
  - eapply returns_bind; [apply HP |].
    replace (acc ++ f n :: map f ns) with ((acc ++ [f n]) ++ map f ns)
      by now rewrite <- app_assoc.
    apply IH.
Qed.

Lemma domain_check_passes (c K : Z) :
  (1 <= c)%Z -> (0 <= K)%Z -> ((c <? 1)%Z || (K <? 0)%Z) = false.
Proof.
  intros Hc HK. apply orb_false_iff. rewrite !Z.ltb_ge. lia.
Qed.

(** On valid [c] and [K] the finite solver returns, and returns this. *)
Lemma mmckFinite_returns (c K : Z) (lam mu : num) (Q : option Z) :
  (1 <= c)%Z -> (0 <= K)%Z ->
  returns (mmckFinite c K lam mu Q) (mmckFinite_value c K lam mu Q).
Proof.
  intros Hc HK. unfold mmckFinite.
  rewrite (domain_check_passes Hc HK). cbv zeta.
  eapply returns_bind; [apply sum0_loop_returns |].
  eapply returns_bind; [apply returns_factorial; lia |].
  eapply returns_bind; [apply Pn_returns; lia |].
  eapply returns_bind; [apply returns_factorial; lia |].
  eapply returns_bind.
  - apply stateProbabilities_loop_returns.
    intros n. apply Pn_returns; lia.
  - apply returns_ret.
Qed.

Lemma mmckFinite_domain_error (c K : Z) (lam mu : num) (Q : option Z)
    (cache : list num) :
  (c < 1 \/ K < 0)%Z ->
  mmckFinite c K lam mu Q cache
  = (Throw (Error "c must be >= 1 and K must be >= 0"), cache).
Proof.
  intros Hbad. unfold mmckFinite.
  assert (Hor : ((c <? 1)%Z || (K <? 0)%Z) = true).
  { apply orb_true_iff. rewrite !Z.ltb_lt. exact Hbad. }
  now rewrite Hor.
Qed.

(** On [c >= 1] and a passed stability test the infinite solver returns. *)
Lemma mmcInfinite_returns (c : Z) (lam mu : num) (Q : option Z) :
  (1 <= c)%Z -> (lam / ($c * mu) >=? $1) = false ->
  returns (mmcInfinite c lam mu Q) (mmcInfinite_value c lam mu Q).
Proof.
  intros Hc Hstable. unfold mmcInfinite.
  destruct (Z.ltb_spec c 1) as [Hlt | _]; [lia |].
  cbv zeta. rewrite Hstable.
  eapply returns_bind; [apply sum0_loop_returns |].
  eapply returns_bind; [apply returns_factorial; lia |].
  eapply returns_bind; [apply returns_factorial; lia |].
  eapply returns_bind; [apply returns_factorial; lia |].
  destruct Q as [Q |].
  - eapply returns_bind.
    + eapply returns_bind; [apply returns_factorial; lia | apply returns_ret].
    + apply returns_ret.
  - eapply returns_bind; [apply returns_ret | apply returns_ret].
Qed.


Lemma mmcPriority_returns (c : Z) (lam mu : num) (classFractions : list num) :
  (1 <= c)%Z -> (lam / ($c * mu) >=? $1) = false ->
  returns (mmcPriority c lam mu classFractions)
    (mmcPriority_value c lam mu classFractions).
Proof.
  intros Hc Hstable. unfold mmcPriority. cbv zeta. rewrite Hstable.
  eapply returns_bind; [now apply mmcInfinite_returns | apply returns_ret].
Qed.

(** The priority loop, round by round: entry [j] is built from fraction
    [j] and the running values around it. *)
Lemma classes_loop_entries (Ii rho lam : num) (done rest : list num)
    (acc : list (PriorityClassResult num)) :
  classes_loop Ii rho lam (length done) rest
    (F_after rho (done ++ rest) (length done)) acc
  = acc ++ map (fun j =>
                  class_entry Ii rho lam j (nth j (done ++ rest) $0)
                    (F_after rho (done ++ rest) j)
                    (F_after rho (done ++ rest) (S j)))
             (seq (length done) (length rest)).
Proof.
  revert done acc. induction rest as [| f rest IH]; intros done acc.
  - cbn. now rewrite app_nil_r.
  - cbn [classes_loop length seq map]. cbv zeta.
    assert (Hf : nth (length done) (done ++ f :: rest) $0 = f).
    { rewrite app_nth2, Nat.sub_diag by lia. reflexivity. }
    specialize (IH (done ++ [f])).
    rewrite <- app_assoc in IH. cbn [app] in IH.
    rewrite length_app in IH. cbn [length] in IH.
    rewrite Nat.add_1_r in IH.
    cbn [F_after] in IH |- *. rewrite Hf in IH |- *.
    rewrite IH. rewrite <- app_assoc. reflexivity.
Qed.

Lemma classes_loop_all (Ii rho lam : num) (classFractions : list num) :
  classes_loop Ii rho lam 0 classFractions $1 []
  = map (fun j =>
           class_entry Ii rho lam j (nth j classFractions $0)
             (F_after rho classFractions j)
             (F_after rho classFractions (S j)))
      (seq 0 (length classFractions)).
Proof.
  exact (classes_loop_entries Ii rho lam [] classFractions []).
Qed.

End SolverRuns.

(** ** Exact arithmetic: the [Q] instance *)

Section ExactArithmetic.
Local Open Scope Q_scope.

(** The tests of the source, read as propositions. *)
Lemma Q_leb_true (x y : Q) : Nleb x y = true <-> x <= y.
Proof.
  at_Q. apply Qle_bool_iff.
Qed.

Lemma Q_leb_false (x y : Q) : Nleb x y = false <-> y < x.
Proof.
  at_Q. rewrite <- not_true_iff_false, Qle_bool_iff. split.
  - apply Qnot_le_lt.
  - apply Qlt_not_le.
Qed.

Lemma Q_ltb_true (x y : Q) : Nltb x y = true <-> x < y.
Proof.
  at_Q. rewrite negb_true_iff. apply (Q_leb_false y x).
Qed.

Lemma Q_ltb_false (x y : Q) : Nltb x y = false <-> y <= x.
Proof.
  at_Q. rewrite negb_false_iff. apply Qle_bool_iff.
Qed.

Lemma inject_Z_pos (z : Z) : (0 < z)%Z -> 0 < inject_Z z.
Proof.
  intros Hz. change 0 with (inject_Z 0). now rewrite <- Zlt_Qlt.
Qed.

Lemma inject_Z_ge1 (z : Z) : (1 <= z)%Z -> 1 <= inject_Z z.
Proof.
  intros Hz. change 1 with (inject_Z 1). now rewrite <- Zle_Qle.
Qed.

(** With a positive capacity [c * mu], the stability test [rho >= 1]
    compares [lam] with [c * mu]. *)
Lemma stability_test (c : Z) (lam mu : Q) :
  (1 <= c)%Z -> 0 < mu ->
  (Nleb (NofZ 1) (Ndiv lam (Nmul (NofZ c) mu)) = true <-> inject_Z c * mu <= lam).
Proof.
  intros Hc Hmu. rewrite Q_leb_true. at_Q.
  assert (Hc' : 0 < inject_Z c) by (apply inject_Z_pos; lia).
  assert (Hcap : 0 < inject_Z c * mu) by now apply Qmult_lt_0_compat.
  split; intros Hle.
  - apply (Qmult_le_r _ _ _ Hcap) in Hle.
    rewrite Qmult_1_l in Hle.
    assert (Hq : lam / (inject_Z c * mu) * (inject_Z c * mu) == lam)
      by (field; lra).
    now rewrite Hq in Hle.
  - apply Qle_shift_div_l; [exact Hcap |]. now rewrite Qmult_1_l.
Qed.

(** *** Sums *)

Lemma Qsum_cons (x : Q) (l : list Q) : Qsum (x :: l) = x + Qsum l.
Proof.
  reflexivity.
Qed.

Lemma Qsum_app (l1 l2 : list Q) : Qsum (l1 ++ l2) == Qsum l1 + Qsum l2.
Proof.
  induction l1 as [| x l1 IH]; cbn [app Qsum fold_right].
  - now rewrite Qplus_0_l.
  - fold (Qsum (l1 ++ l2)) (Qsum l1). rewrite IH. ring.
Qed.

Lemma fold_left_Qplus (l : list Q) (acc : Q) :
  fold_left Qplus l acc == acc + Qsum l.
Proof.
  revert acc. induction l as [| x l IH]; intros acc; cbn [fold_left Qsum fold_right].
  - ring.
  - fold (Qsum l). rewrite IH. ring.
Qed.

Lemma sumList_Qsum (l : list Q) : sumList l == Qsum l.
Proof.
  unfold sumList. at_Q. rewrite fold_left_Qplus. apply Qplus_0_l.
Qed.

Lemma Qsum_scale {A : Type} (k : Q) (f : A -> Q) (l : list A) :
  Qsum (map (fun x => k * f x) l) == k * Qsum (map f l).
Proof.
  induction l as [| x l IH]; cbn [map Qsum fold_right].
  - ring.
  - fold (Qsum (map (fun x => k * f x) l)) (Qsum (map f l)). rewrite IH. ring.
Qed.

Lemma Qsum_ext {A : Type} (f g : A -> Q) (l : list A) :
  (forall x, In x l -> f x == g x) -> Qsum (map f l) == Qsum (map g l).
Proof.
  induction l as [| x l IH]; intros Hfg; cbn [map Qsum fold_right].
  - reflexivity.
  - fold (Qsum (map f l)) (Qsum (map g l)).
    rewrite (Hfg x (or_introl eq_refl)), IH; [reflexivity |].
    intros y Hy. apply Hfg. now right.
Qed.

Lemma Qsum_nonneg (l : list Q) : (forall x, In x l -> 0 <= x) -> 0 <= Qsum l.
Proof.
  induction l as [| x l IH]; intros Hl; cbn [Qsum fold_right].
  - apply Qle_refl.
  - fold (Qsum l).
    assert (0 <= x) by (apply Hl; now left).
    assert (0 <= Qsum l) by (apply IH; intros y Hy; apply Hl; now right).
    lra.
Qed.

Lemma Qsum_pos (x : Q) (l : list Q) :
  0 < x -> (forall y, In y l -> 0 <= y) -> 0 < Qsum (x :: l).
Proof.
  intros Hx Hl. cbn [Qsum fold_right]. fold (Qsum l).
  pose proof (Qsum_nonneg l Hl). lra.
Qed.

(** *** Powers and factorials *)

Lemma Math_pow_of_nat (x : Q) (n : nat) : Math_pow x (Z.of_nat n) = pow_nat x n.
Proof.
  destruct n as [| n]; [reflexivity |].
  cbn [Z.of_nat Math_pow]. now rewrite SuccNat2Pos.id_succ.
Qed.

Lemma pow_nat_pos (x : Q) (n : nat) : 0 < x -> 0 < pow_nat x n.
Proof.
  intros Hx. induction n as [| n IH]; cbn [pow_nat]; at_Q.
  - reflexivity.
  - now apply Qmult_lt_0_compat.
Qed.

Lemma pow_nat_one (x : Q) (n : nat) : x == 1 -> pow_nat x n == 1.
Proof.
  intros Hx. induction n as [| n IH]; cbn [pow_nat]; at_Q.
  - reflexivity.
  - rewrite IH, Hx. ring.
Qed.

(** Bernoulli's inequality. *)
Lemma pow_nat_Bernoulli (r : Q) (n : nat) :
  1 <= r -> 1 + inject_Z (Z.of_nat n) * (r - 1) <= pow_nat r n.
Proof.
  intros Hr. induction n as [| n IH]; cbn [pow_nat]; at_Q.
  - change (inject_Z (Z.of_nat 0)) with 0. change (inject_Z 1) with 1. lra.
  - rewrite Nat2Z.inj_succ. unfold Z.succ. rewrite inject_Z_plus.
    set (k := inject_Z (Z.of_nat n)) in *.
    assert (Hk : 0 <= k).
    { subst k. change 0 with (inject_Z 0). rewrite <- Zle_Qle. lia. }
    change (inject_Z 1) with 1.
    assert (Hstep : r * (1 + k * (r - 1)) <= r * pow_nat r n).
    { apply Qmult_le_l; [lra | exact IH]. }
    assert (Hsq : 0 <= k * (r - 1) * (r - 1)).
    { apply Qmult_le_0_compat; [apply Qmult_le_0_compat |]; lra. }
    assert (Hexp : r * (1 + k * (r - 1))
                   == 1 + (k + 1) * (r - 1) + k * (r - 1) * (r - 1)) by ring.
    rewrite Hexp in Hstep. lra.
Qed.

(** The table entry of the cache is the factorial, exactly. *)
Lemma fact_num_exact (n : nat) :
  fact_num (num := Q) n = inject_Z (Z.of_nat (fact n)).
Proof.
  induction n as [| n IH]; [reflexivity |].
  cbn [fact_num]. rewrite IH. at_Q.
  unfold Qmult, inject_Z. cbn [Qnum Qden Pos.mul].
  f_equal. change (fact (S n)) with (S n * fact n)%nat.
  rewrite Nat2Z.inj_mul. apply Z.mul_comm.
Qed.

Lemma factorial_value_exact (n : nat) :
  factorial_value (num := Q) n = inject_Z (Z.of_nat (fact n)).
Proof.
  destruct n as [| [| n]]; [reflexivity | reflexivity |].
  apply fact_num_exact.
Qed.

Lemma factorial_value_pos (n : nat) : 0 < factorial_value (num := Q) n.
Proof.
  rewrite factorial_value_exact. apply inject_Z_pos.
  pose proof (lt_O_fact n). lia.
Qed.

(** *** The state probabilities of the finite solver *)

Lemma seq_offset (start len : nat) :
  seq start len = map (fun m => (start + m)%nat) (seq 0 len).
Proof.
  revert start. induction len as [| len IH]; intros start; [reflexivity |].
  cbn [seq map]. rewrite Nat.add_0_r. f_equal.
  rewrite (IH (S start)), <- seq_shift, map_map.
  apply map_ext. intros m. lia.
Qed.

Lemma sum0_value_Qsum (a : Q) (ns : list nat) (sum0 : Q) :
  sum0_value a ns sum0
  == sum0 + Qsum (map (fun n => pow_nat a n / factorial_value n) ns).
Proof.
  unfold sum0_value. revert sum0.
  induction ns as [| n ns IH]; intros sum0; cbn [fold_left map].
  - cbn. ring.
  - rewrite Qsum_cons, IH, Math_pow_of_nat. at_Q. ring.
Qed.

Lemma geomTerms_closed (r : Q) (m : nat) :
  (1 - r) * geomTerms r m == 1 - pow_nat r (S m).
Proof.
  unfold geomTerms. induction m as [| m IH].
  - cbn. ring.
  - rewrite seq_S, map_app, Qsum_app, Qmult_plus_distr_r, IH.
    cbn [map Qsum fold_right Nat.add]. cbn [pow_nat]. at_Q. ring.
Qed.

Lemma geomTerms_one (r : Q) (m : nat) :
  r == 1 -> geomTerms r m == inject_Z (Z.of_nat m) + 1.
Proof.
  intros Hr. unfold geomTerms. induction m as [| m IH].
  - cbn. ring.
  - rewrite seq_S, map_app, Qsum_app, IH.
    cbn [map Qsum fold_right Nat.add]. rewrite (pow_nat_one (S m) Hr).
    rewrite Nat2Z.inj_succ. unfold Z.succ. rewrite inject_Z_plus.
    change (inject_Z 1) with 1. ring.
Qed.

Lemma geomTerms_pos (r : Q) (m : nat) : 0 < r -> 0 < geomTerms r m.
Proof.
  intros Hr. unfold geomTerms. cbn [seq map]. apply Qsum_pos.
  - reflexivity.
  - intros y Hy. apply in_map_iff in Hy. destruct Hy as (k & <- & _).
    apply Qlt_le_weak. now apply pow_nat_pos.
Qed.

(** Bernoulli, summed: the terms of a ratio [r >= 1] exceed [m + 1] by
    at least [(r - 1) * m * (m + 1) / 2]. *)
Lemma geomTerms_Bernoulli (r : Q) (m : nat) :
  1 <= r ->
  inject_Z (Z.of_nat m) + 1
  + (r - 1) * inject_Z (Z.of_nat m) * (inject_Z (Z.of_nat m) + 1) / 2
  <= geomTerms r m.
Proof.
  intros Hr. unfold geomTerms. induction m as [| m IH].
  - change (inject_Z (Z.of_nat 0)) with 0.
    change (Qsum (map (pow_nat r) (seq 0 1))) with (1 + 0).
    apply Qle_lteq. right. field.
  - rewrite seq_S, map_app, Qsum_app.
    cbn [map Nat.add]. rewrite Qsum_cons. change (Qsum []) with 0.
    pose proof (pow_nat_Bernoulli (S m) Hr) as Hb.
    rewrite Nat2Z.inj_succ in Hb |- *. unfold Z.succ in Hb |- *.
    rewrite inject_Z_plus in Hb |- *.
    change (inject_Z 1) with 1 in Hb |- *.
    set (k := inject_Z (Z.of_nat m)) in *.
    set (p := pow_nat r (S m)) in *.
    set (G := Qsum (map (pow_nat r) (seq 0 (S m)))) in *.
    assert (Hgoal : k + 1 + 1 + (r - 1) * (k + 1) * (k + 1 + 1) / 2
                    == (k + 1 + (r - 1) * k * (k + 1) / 2)
                       + (1 + (k + 1) * (r - 1)))
      by field.
    rewrite Hgoal. lra.
Qed.

(** The state probabilities add up to [P0] times the normalising sum
    taken term by term. *)
Lemma stateProbabilities_total (c K : nat) (lam mu : Q) (Q0 : option Z) :
  let a := lam / mu in
  let rho := lam / (inject_Z (Z.of_nat c) * mu) in
  sumList (FiniteQueueResult.stateProbabilities
             (mmckFinite_value (Z.of_nat c) (Z.of_nat K) lam mu Q0))
  == P0_finite (Z.of_nat c) (Z.of_nat K) lam mu
     * (sum0_value a (seq 0 c) 0
        + pow_nat a c / factorial_value c * geomTerms rho K).
Proof.
  intros a rho. rewrite sumList_Qsum.
  unfold mmckFinite_value. cbv zeta. cbn [FiniteQueueResult.stateProbabilities].
  at_Q. fold a. fold rho.
  set (P0 := P0_finite (Z.of_nat c) (Z.of_nat K) lam mu).
  replace (Z.to_nat (Z.of_nat c + Z.of_nat K + 1)) with (c + S K)%nat by lia.
  rewrite seq_app, map_app, Qsum_app. cbn [Nat.add].
  rewrite sum0_value_Qsum, (seq_offset c), map_map.
  assert (Hlow :
    Qsum (map (fun n => Pn_value P0 a rho (Z.of_nat c) (Z.of_nat n)) (seq 0 c))
    == P0 * Qsum (map (fun n => pow_nat a n / factorial_value n) (seq 0 c))).
  { rewrite <- Qsum_scale. apply Qsum_ext. intros n Hn.
    apply in_seq in Hn. unfold Pn_value.
    destruct (Z.ltb_spec (Z.of_nat n) (Z.of_nat c)) as [_ | Hge]; [| lia].
    rewrite Math_pow_of_nat, Nat2Z.id. at_Q. unfold Qdiv. ring. }
  assert (Hhigh :
    Qsum (map (fun m => Pn_value P0 a rho (Z.of_nat c) (Z.of_nat (c + m)))
            (seq 0 (S K)))
    == P0 * (pow_nat a c / factorial_value c) * geomTerms rho K).
  { unfold geomTerms. rewrite <- Qsum_scale. apply Qsum_ext. intros m Hm.
    unfold Pn_value.
    destruct (Z.ltb_spec (Z.of_nat (c + m)) (Z.of_nat c)) as [Hlt | _]; [lia |].
    replace (Z.of_nat (c + m) - Z.of_nat c)%Z with (Z.of_nat m) by lia.
    rewrite !Math_pow_of_nat, Nat2Z.id. at_Q. unfold Qdiv. ring. }
  rewrite Hlow, Hhigh. ring.
Qed.

Lemma lit_1e_12_pos : 0 < lit_1e_12 (num := Q).
Proof.
  reflexivity.
Qed.

(** Away from the guarded band around 1, and at 1 itself, [geomSum] is
    the sum it stands for. *)
Lemma geomSum_exact (r : Q) (m : nat) :
  r == 1 \/ lit_1e_12 <= Qabs (1 - r) ->
  geomSum r (Z.of_nat m) == geomTerms r m.
Proof.
  intros Hr. unfold geomSum.
  destruct (Nltb (Math_abs (NofZ 1 - r)%num) lit_1e_12) eqn:Htest.
  - apply Q_ltb_true in Htest. at_Q. change (inject_Z 1) with 1 in *.
    destruct Hr as [Hone | Hfar]; [| lra].
    now rewrite geomTerms_one.
  - apply Q_ltb_false in Htest. at_Q. change (inject_Z 1) with 1 in *.
    assert (Hne : ~ 1 - r == 0).
    { intros Hz. rewrite Hz in Htest. pose proof lit_1e_12_pos.
      change (Qabs 0) with 0 in Htest. lra. }
    replace (Z.of_nat m + 1)%Z with (Z.of_nat (S m)) by lia.
    rewrite Math_pow_of_nat, <- geomTerms_closed. now field.
Qed.

(** Inside the band the sum is replaced by [m + 1]. *)
Lemma geomSum_near_one (r : Q) (m : Z) :
  Qabs (1 - r) < lit_1e_12 -> geomSum r m = inject_Z m + 1.
Proof.
  intros Hnear. unfold geomSum.
  apply (Q_ltb_true (Qabs (1 - r)) lit_1e_12) in Hnear.
  at_Q. change (inject_Z 1) with 1 in *. now rewrite Hnear.
Qed.

Lemma geomSum_pos (r : Q) (m : nat) : 0 < r -> 0 < geomSum r (Z.of_nat m).
Proof.
  intros Hr.
  destruct (Qlt_le_dec (Qabs (1 - r)) lit_1e_12) as [Hnear | Hfar].
  - rewrite (geomSum_near_one _ Hnear).
    assert (0 <= inject_Z (Z.of_nat m)).
    { change 0 with (inject_Z 0). rewrite <- Zle_Qle. lia. }
    lra.
  - rewrite geomSum_exact by now right. now apply geomTerms_pos.
Qed.

Lemma sum0_value_pos (a : Q) (c : nat) :
  0 < a -> 0 < sum0_value a (seq 0 (S c)) 0.
Proof.
  intros Ha. rewrite sum0_value_Qsum, Qplus_0_l.
  cbn [seq map]. apply Qsum_pos.
  - reflexivity.
  - intros y Hy. apply in_map_iff in Hy. destruct Hy as (n & <- & _).
    apply Qlt_le_weak, Qlt_shift_div_l.
    + apply factorial_value_pos.
    + rewrite Qmult_0_l. now apply pow_nat_pos.
Qed.

Lemma erlang_term_pos (a : Q) (c : nat) :
  0 < a -> 0 < pow_nat a c / factorial_value c.
Proof.
  intros Ha. apply Qlt_shift_div_l.
  - apply factorial_value_pos.
  - rewrite Qmult_0_l. now apply pow_nat_pos.
Qed.

Lemma traffic_pos (c : Z) (lam mu : Q) :
  (1 <= c)%Z -> 0 < lam -> 0 < mu -> 0 < lam / (inject_Z c * mu).
Proof.
  intros Hc Hlam Hmu.
  assert (0 < inject_Z c) by (apply inject_Z_pos; lia).
  apply Qlt_shift_div_l.
  - now apply Qmult_lt_0_compat.
  - now rewrite Qmult_0_l.
Qed.

End ExactArithmetic.

(** ** The factorial cache *)

Section FactorialCache.
Context {num : Type} `{Number num}.

(** Any sequence of calls keeps the cache sound and no longer than the
    largest argument requires. *)
Lemma cache_after_ok (ns : list Z) (cache : list num) :
  Forall (fun n => 0 <= n)%Z ns -> cache_ok cache ->
  cache_ok (cache_after ns cache)
  /\ (length (cache_after ns cache)
      <= Nat.max (length cache) (S (list_max (map Z.to_nat ns))))%nat.
Proof.
  intros Hns. revert cache.
  induction Hns as [| n ns Hn Hns IH]; intros cache Hok; cbn [cache_after fold_left].
  - split; [exact Hok | lia].
  - destruct (factorial_call Hn Hok) as (ext & Hrun & Hok' & Hlen).
    rewrite Hrun. cbn [snd].
    destruct (IH _ Hok') as [Hfinal Hbound].
    split; [exact Hfinal |].
    fold (cache_after ns (cache ++ ext)).
    cbn [map list_max fold_right]. fold (list_max (map Z.to_nat ns)).
    destruct (n <=? 1)%Z; lia.
Qed.

Lemma cache_ok_table (cache : list num) :
  cache_ok cache -> cache = map fact_num (seq 0 (length cache)).
Proof.
  intros [len ->]. now rewrite fact_table_length.
Qed.

(** A call after any sequence of calls: what it returns and what it does
    to the cache, in terms of the products [fact_num] the loop stores. *)
Lemma factorial_after_calls (ns : list Z) (n : Z) :
  Forall (fun m => 0 <= m)%Z ns -> (0 <= n)%Z ->
  let cache := cache_after ns factorialCache0 in
  exists ext,
    factorial n cache = (Return (factorial_value (Z.to_nat n)), cache ++ ext)
    /\ ext = map fact_num (seq (length cache) (length ext))
    /\ cache ++ ext = map fact_num (seq 0 (length (cache ++ ext)))
    /\ length (cache ++ ext)
       = (if (n <=? 1)%Z then length cache
          else Nat.max (length cache) (S (Z.to_nat n)))
    /\ ((Z.to_nat n < length cache)%nat -> ext = [])
    /\ (length (cache ++ ext)
        <= S (list_max (map Z.to_nat (ns ++ [n]))))%nat.
Proof.
  intros Hns Hn cache.
  destruct (cache_after_ok Hns cache_ok_initial) as [Hok Hbound].
  fold cache in Hok, Hbound.
  destruct (factorial_call Hn Hok) as (ext & Hrun & Hok' & Hlen).
  exists ext. split; [exact Hrun |].
  pose proof (cache_ok_table Hok) as Htable.
  pose proof (cache_ok_table Hok') as Htable'.
  assert (Hext : ext = map fact_num (seq (length cache) (length ext))).
  { rewrite length_app, seq_app, map_app, <- Htable in Htable'.
    now apply app_inv_head in Htable'. }
  split; [exact Hext |]. split; [exact Htable' |]. split; [exact Hlen |].
  split.
  - intros Hcached. apply length_zero_iff_nil.
    rewrite length_app in Hlen. destruct (n <=? 1)%Z; lia.
  - rewrite map_app, list_max_app. cbn [map list_max fold_right].
    change (length (factorialCache0 (num := num))) with 1%nat in Hbound.
    rewrite Hlen. destruct (Z.leb_spec n 1); lia.
Qed.

End FactorialCache.

Lemma Zfact_fact (n : nat) : Zfact n = Z.of_nat (fact n).
Proof.
  induction n as [| n IH]; [reflexivity |].
  cbn [Zfact]. rewrite IH. change (fact (S n)) with (S n * fact n)%nat.
  rewrite Nat2Z.inj_mul. apply Z.mul_comm.
Qed.

(** In binary64 the stored products are the factorials, exactly, up to
    [22!]. *)
Lemma fact_num_float_exact (n : nat) :
  (n <= 22)%nat ->
  float_value (fact_num n) = Some (inject_Z (Z.of_nat (fact n)))
  /\ float_value (factorial_value n) = Some (inject_Z (Z.of_nat (fact n))).
Proof.
  intros Hn. rewrite <- Zfact_fact.
  assert (Hall :
    forallb
      (fun k =>
         match float_value (fact_num k), float_value (factorial_value k) with
         | Some p, Some q =>
             (Qnum p =? Zfact k)%Z && (Qden p =? 1)%positive
             && (Qnum q =? Zfact k)%Z && (Qden q =? 1)%positive
         | _, _ => false
         end) (seq 0 23) = true) by (vm_compute; reflexivity).
  rewrite forallb_forall in Hall.
  specialize (Hall n ltac:(apply in_seq; lia)).
  destruct (float_value (fact_num n)) as [[pn pd] |]; [| discriminate].
  destruct (float_value (factorial_value n)) as [[qn qd] |]; [| discriminate].
  cbn [Qnum Qden] in Hall.
  apply andb_prop in Hall. destruct Hall as [Hall Hqd].
  apply andb_prop in Hall. destruct Hall as [Hall Hqn].
  apply andb_prop in Hall. destruct Hall as [Hpn Hpd].
  apply Z.eqb_eq in Hpn, Hqn. apply Pos.eqb_eq in Hpd, Hqd.
  subst. split; reflexivity.
Qed.

(** C9 (as amended): after any sequence of calls with non-negative
    arguments, a further call factorial(n) returns the cache's product
    for n, which is n! exactly in exact arithmetic and, in binary64,
    exactly as long as n <= 22; the call leaves every cached entry as it
    was, appending only the entries from the high-water mark up to n
    (none at all when n is already cached); and the cache reaches no
    further than the largest argument seen so far. *)
Theorem factorial_cache_append_only (ns : list Z) (n : Z) :
  Forall (fun m => 0 <= m)%Z ns -> (0 <= n)%Z ->
  (let cache := cache_after ns (factorialCache0 (num := Q)) in
   exists ext,
     factorial n cache
     = (Return (inject_Z (Z.of_nat (fact (Z.to_nat n)))), cache ++ ext)
     /\ ext = map (fun i => inject_Z (Z.of_nat (fact i)))
                (seq (length cache) (length ext))
     /\ length (cache ++ ext)
        = (if (n <=? 1)%Z then length cache
           else Nat.max (length cache) (S (Z.to_nat n)))
     /\ ((Z.to_nat n < length cache)%nat -> ext = [])
     /\ (length (cache ++ ext)
         <= S (list_max (map Z.to_nat (ns ++ [n]))))%nat)
  /\ (let cache := cache_after ns (factorialCache0 (num := float)) in
      exists ext v,
        factorial n cache = (Return v, cache ++ ext)
        /\ ((n <= 22)%Z ->
            float_value v = Some (inject_Z (Z.of_nat (fact (Z.to_nat n)))))
        /\ ext = map fact_num (seq (length cache) (length ext))
        /\ (forall i, (i <= 22)%nat ->
              float_value (fact_num i) = Some (inject_Z (Z.of_nat (fact i))))
        /\ length (cache ++ ext)
           = (if (n <=? 1)%Z then length cache
              else Nat.max (length cache) (S (Z.to_nat n)))
        /\ ((Z.to_nat n < length cache)%nat -> ext = [])
        /\ (length (cache ++ ext)
            <= S (list_max (map Z.to_nat (ns ++ [n]))))%nat).
Proof.
  intros Hns Hn. split.
  - destruct (factorial_after_calls (num := Q) Hns Hn)
      as (ext & Hrun & Hext & _ & Hlen & Hcached & Hbound).
    exists ext. rewrite factorial_value_exact in Hrun.
    split; [exact Hrun |]. split; [| now repeat split].
    rewrite Hext at 1. apply map_ext. intros i. apply fact_num_exact.
  - destruct (factorial_after_calls (num := float) Hns Hn)
      as (ext & Hrun & Hext & _ & Hlen & Hcached & Hbound).
    exists ext, (factorial_value (Z.to_nat n)).
    split; [exact Hrun |]. split.
    { intros Hsmall. apply fact_num_float_exact. lia. }
    split; [exact Hext |]. split.
    { intros i Hi. now apply fact_num_float_exact. }
    now repeat split.
Qed.

Lemma factorial_cache_append_only_witness :
  Forall (fun m => 0 <= m)%Z [5; 3]%Z /\ (0 <= 7)%Z
  /\ exists ext,
       factorial 7 (cache_after [5; 3]%Z (factorialCache0 (num := Q)))
       = (Return (inject_Z 5040),
          cache_after [5; 3]%Z (factorialCache0 (num := Q)) ++ ext)
       /\ length ext = 2%nat.
Proof.
  assert (Hns : Forall (fun m => 0 <= m)%Z [5; 3]%Z)
    by (repeat constructor; discriminate).
  assert (Hn : (0 <= 7)%Z) by discriminate.
  split; [exact Hns |]. split; [exact Hn |].
  destruct (@factorial_cache_append_only [5; 3]%Z 7%Z Hns Hn)
    as [(ext & Hrun & _ & Hlen & _) _].
  exists ext. split; [exact Hrun |].
  rewrite length_app in Hlen.
  change (length (cache_after [5; 3]%Z (factorialCache0 (num := Q))))
    with 6%nat in Hlen.
  cbn [Z.leb Z.compare Pos.compare Pos.compare_cont] in Hlen. lia.
Defined.

(** C9, as stated, fails in binary64 from 23! on: factorial(23) returns
    22! * 23 rounded to the nearest double, 0x1.5e5c335f8a4cep+74, that
    is 25852016738884978212864, which is above
    23! = 25852016738884976640000. *)
Lemma factorial_23_rounds :
  exists v cache',
    factorial (num := float) 23 factorialCache0 = (Return v, cache')
    /\ v = 0x1.5e5c335f8a4cep+74%float
    /\ float_value v = Some (inject_Z 25852016738884978212864)
    /\ (Z.of_nat (fact 23) = 25852016738884976640000)%Z
    /\ (Z.of_nat (fact 23) < 25852016738884978212864)%Z.
Proof.
  eexists. eexists. split; [vm_compute; reflexivity |].
  split; [reflexivity |].
  split; [vm_compute; reflexivity |].
  rewrite <- Zfact_fact. split; vm_compute; reflexivity.
Qed.

(** ** The finite-capacity solver *)

Section FiniteSolver.
Local Open Scope Q_scope.

(** In exact arithmetic the normalising sum is positive. *)
Lemma normalising_sum_pos (c K : nat) (lam mu : Q) :
  0 < lam -> 0 < mu ->
  let a := lam / mu in
  let rho := lam / (inject_Z (Z.of_nat (S c)) * mu) in
  0 < sum0_value a (seq 0 (S c)) 0
      + pow_nat a (S c) / factorial_value (S c) * geomSum rho (Z.of_nat K).
Proof.
  intros Hlam Hmu a rho.
  assert (Ha : 0 < a).
  { apply Qlt_shift_div_l; [exact Hmu | now rewrite Qmult_0_l]. }
  assert (Hrho : 0 < rho) by (apply traffic_pos; [lia | assumption ..]).
  pose proof (sum0_value_pos c Ha).
  pose proof (erlang_term_pos (S c) Ha).
  pose proof (geomSum_pos K Hrho).
  assert (0 < pow_nat a (S c) / factorial_value (S c) * geomSum rho (Z.of_nat K))
    by now apply Qmult_lt_0_compat.
  lra.
Qed.

Lemma P0_finite_unfold (c K : nat) (lam mu : Q) :
  P0_finite (Z.of_nat c) (Z.of_nat K) lam mu
  = 1 / (sum0_value (lam / mu) (seq 0 c) 0
         + pow_nat (lam / mu) c / factorial_value c
           * geomSum (lam / (inject_Z (Z.of_nat c) * mu)) (Z.of_nat K)).
Proof.
  unfold P0_finite. cbv zeta. now rewrite Math_pow_of_nat, !Nat2Z.id.
Qed.

(** C3 (as amended): in exact arithmetic, for every c >= 1, K >= 0,
    lambda > 0, mu > 0 whose traffic intensity rho is 1 or at least 1e-12
    away from 1, mmckFinite returns the N + 1 = c + K + 1 state
    probabilities and they sum to 1 within 1e-9; the sum is exactly 1. *)
Theorem mmckFinite_stateProbabilities_sum
    (c K : Z) (lam mu : Q) (Q0 : option Z) (cache : list Q) :
  (1 <= c)%Z -> (0 <= K)%Z -> 0 < lam -> 0 < mu ->
  lam / (inject_Z c * mu) == 1
  \/ lit_1e_12 <= Qabs (1 - lam / (inject_Z c * mu)) ->
  cache_ok cache ->
  exists r cache',
    mmckFinite c K lam mu Q0 cache = (Return r, cache')
    /\ length (FiniteQueueResult.stateProbabilities r) = Z.to_nat (c + K + 1)
    /\ sumList (FiniteQueueResult.stateProbabilities r) == 1
    /\ Qabs (sumList (FiniteQueueResult.stateProbabilities r) - 1)
       <= 1 # 1000000000.
Proof.
  intros Hc HK Hlam Hmu Hrho Hok.
  destruct (mmckFinite_returns lam mu Q0 Hc HK Hok) as (cache' & Hrun & _).
  exists (mmckFinite_value c K lam mu Q0), cache'.
  split; [exact Hrun |]. split.
  { unfold mmckFinite_value. cbv zeta.
    cbn [FiniteQueueResult.stateProbabilities].
    now rewrite length_map, length_seq. }
  assert (Hone : sumList (FiniteQueueResult.stateProbabilities
                            (mmckFinite_value c K lam mu Q0)) == 1);
    [| split; [exact Hone | rewrite Hone; vm_compute; discriminate]].
  rewrite <- (Z2Nat.id c) in * by lia. rewrite <- (Z2Nat.id K) in * by lia.
  destruct (Z.to_nat c) as [| c']; [lia |].
  set (K' := Z.to_nat K) in *.
  rewrite stateProbabilities_total, P0_finite_unfold.
  pose proof (normalising_sum_pos c' K' Hlam Hmu) as Hpos. cbv zeta in Hpos.
  rewrite (geomSum_exact K' Hrho) in *.
  match type of Hpos with 0 < ?X => set (total := X) in * end.
  clearbody total. field. lra.
Qed.

Lemma mmckFinite_stateProbabilities_sum_witness :
  (1 <= 2)%Z /\ (0 <= 0)%Z /\ 0 < 45 /\ 0 < 25
  /\ (45 / (inject_Z 2 * 25) == 1
      \/ lit_1e_12 <= Qabs (1 - 45 / (inject_Z 2 * 25)))
  /\ cache_ok (factorialCache0 (num := Q))
  /\ exists r cache',
       mmckFinite 2 0 45 25 None factorialCache0 = (Return r, cache')
       /\ length (FiniteQueueResult.stateProbabilities r) = Z.to_nat (2 + 0 + 1)
       /\ sumList (FiniteQueueResult.stateProbabilities r) == 1
       /\ Qabs (sumList (FiniteQueueResult.stateProbabilities r) - 1)
          <= 1 # 1000000000.
Proof.
  assert (Hc : (1 <= 2)%Z) by lia.
  assert (HK : (0 <= 0)%Z) by lia.
  assert (Hlam : 0 < 45) by reflexivity.
  assert (Hmu : 0 < 25) by reflexivity.
  assert (Hrho : 45 / (inject_Z 2 * 25) == 1
                 \/ lit_1e_12 <= Qabs (1 - 45 / (inject_Z 2 * 25)))
    by (right; vm_compute; discriminate).
  pose proof (cache_ok_initial (num := Q)) as Hok.
  repeat (split; [assumption |]).
  exact (@mmckFinite_stateProbabilities_sum 2 0 45 25 None factorialCache0
           Hc HK Hlam Hmu Hrho Hok).
Defined.

(** Inside the guarded band the sum is off already in exact arithmetic:
    with c = 1, K = 4000, lambda = 1 + 2^-40 and mu = 1 the traffic
    intensity is within 1e-12 of 1, the normalising constant is computed
    with K + 1 in place of the geometric sum, and the state probabilities
    sum to more than 1 + 1e-9. *)
Lemma mmckFinite_stateProbabilities_sum_off :
  exists r cache',
    mmckFinite 1 4000 (1099511627777 # 1099511627776) 1 None factorialCache0
    = (Return r, cache')
    /\ 1 + (1 # 1000000000) < sumList (FiniteQueueResult.stateProbabilities r).
Proof.
  set (lam := 1099511627777 # 1099511627776).
  assert (Hc : (1 <= 1)%Z) by lia.
  assert (HK : (0 <= 4000)%Z) by lia.
  destruct (mmckFinite_returns lam 1 None Hc HK (cache_ok_initial (num := Q)))
    as (cache' & Hrun & _).
  exists (mmckFinite_value 1 4000 lam 1 None), cache'.
  split; [exact Hrun |].
  pose proof (stateProbabilities_total 1 4000 lam 1 None) as Htotal.
  cbv zeta in Htotal.
  change (Z.of_nat 1) with 1%Z in Htotal.
  change (Z.of_nat 4000) with 4000%Z in Htotal.
  rewrite Htotal. clear Htotal.
  match goal with
  | |- _ < ?P * (?S + ?E * geomTerms ?r _) =>
      set (P0 := P); set (s0 := S); set (A := E); set (rho := r)
  end.
  assert (Hrho : 1 <= rho) by (vm_compute; discriminate).
  pose proof (geomTerms_Bernoulli 4000 Hrho) as HG.
  set (G := geomTerms rho 4000) in *. clearbody G.
  match type of HG with ?b <= _ => set (B := b) in * end.
  assert (HP0 : 0 < P0) by (vm_compute; reflexivity).
  assert (HA : 0 < A) by (vm_compute; reflexivity).
  assert (Hnum : 1 + (1 # 1000000000) < P0 * (s0 + A * B))
    by (vm_compute; reflexivity).
  clearbody P0 s0 A B rho.
  apply (Qlt_le_trans _ _ _ Hnum).
  apply Qmult_le_l; [exact HP0 |].
  apply Qplus_le_r. apply Qmult_le_l; [exact HA | exact HG].
Qed.

(** C3, as stated, fails for the program in two places.  In binary64,
    just outside the guarded band, the closed form
    (1 - rho^(K+1)) / (1 - rho) of geomSum loses its leading digits: with
    c = 1, K = 1, lambda = 1 + 2^-27 and mu = 1 (|1 - rho| = 7.5e-9, far
    above 1e-12) the three computed probabilities sum to
    1.0000000024835269, more than 1 + 1e-9.  Inside the band the sum
    exceeds 1 + 1e-9 in exact arithmetic as well. *)
Lemma mmckFinite_stateProbabilities_sum_misses :
  (let lam := Nadd (NofZ 1) (Ndiv (NofZ 1) (NofZ 134217728)) : float in
   exists r cache',
     mmckFinite (num := float) 1 1 lam (NofZ 1) None factorialCache0
     = (Return r, cache')
     /\ float_value lam = Some (134217729 # 134217728)
     /\ Nltb (Math_abs (Nsub (NofZ 1) (Ndiv lam (Nmul (NofZ 1) (NofZ 1)))))
          lit_1e_12 = false
     /\ length (FiniteQueueResult.stateProbabilities r) = 3%nat
     /\ sumList (FiniteQueueResult.stateProbabilities r)
        = 0x1.0000000aaaaabp+0%float
     /\ float_value (sumList (FiniteQueueResult.stateProbabilities r))
        = Some (4503599638555307 # 4503599627370496)
     /\ 1 + (1 # 1000000000) < 4503599638555307 # 4503599627370496
     /\ Nltb (Nadd (NofZ 1) (Ndiv (NofZ 1) (NofZ 1000000000)))
          (sumList (FiniteQueueResult.stateProbabilities r)) = true)
  /\ (exists r cache',
        mmckFinite 1 4000 (1099511627777 # 1099511627776) 1 None
          factorialCache0
        = (Return r, cache')
        /\ 1 + (1 # 1000000000)
           < sumList (FiniteQueueResult.stateProbabilities r)).
Proof.
  split.
  - cbv zeta. eexists. eexists. split; [vm_compute; reflexivity |].
    repeat split; vm_compute; reflexivity.
  - exact mmckFinite_stateProbabilities_sum_off.
Qed.

(** C5 (as amended): for every c >= 1, K >= 0, lambda > 0, mu > 0 the
    finite solver returns R = lambda * (1 - Pb) and RiPb = lambda * Pb,
    and in exact arithmetic R + RiPb equals lambda. *)
Theorem mmckFinite_conservation
    (c K : Z) (lam mu : Q) (Q0 : option Z) (cache : list Q) :
  (1 <= c)%Z -> (0 <= K)%Z -> 0 < lam -> 0 < mu -> cache_ok cache ->
  exists r cache',
    mmckFinite c K lam mu Q0 cache = (Return r, cache')
    /\ FiniteQueueResult.R r = lam * (1 - FiniteQueueResult.Pb r)
    /\ FiniteQueueResult.RiPb r = lam * FiniteQueueResult.Pb r
    /\ FiniteQueueResult.R r + FiniteQueueResult.RiPb r == lam.
Proof.
  intros Hc HK _ _ Hok.
  destruct (mmckFinite_returns lam mu Q0 Hc HK Hok) as (cache' & Hrun & _).
  exists (mmckFinite_value c K lam mu Q0), cache'.
  split; [exact Hrun |].
  unfold mmckFinite_value. cbv zeta.
  cbn [FiniteQueueResult.R FiniteQueueResult.RiPb FiniteQueueResult.Pb].
  at_Q. change (inject_Z 1) with 1.
  repeat split. ring.
Qed.

Lemma mmckFinite_conservation_witness :
  (1 <= 1)%Z /\ (0 <= 0)%Z /\ 0 < 3 /\ 0 < 7
  /\ cache_ok (factorialCache0 (num := Q))
  /\ exists r cache',
       mmckFinite 1 0 3 7 None factorialCache0 = (Return r, cache')
       /\ FiniteQueueResult.R r = 3 * (1 - FiniteQueueResult.Pb r)
       /\ FiniteQueueResult.RiPb r = 3 * FiniteQueueResult.Pb r
       /\ FiniteQueueResult.R r + FiniteQueueResult.RiPb r == 3.
Proof.
  assert (Hc : (1 <= 1)%Z) by lia.
  assert (HK : (0 <= 0)%Z) by lia.
  assert (Hlam : 0 < 3) by reflexivity.
  assert (Hmu : 0 < 7) by reflexivity.
  pose proof (cache_ok_initial (num := Q)) as Hok.
  repeat (split; [assumption |]).
  exact (@mmckFinite_conservation 1 0 3 7 None factorialCache0
           Hc HK Hlam Hmu Hok).
Defined.

(** C5, as stated, fails in the arithmetic the program runs in.  For
    c = 1, K = 0, lambda = 3, mu = 7 (where Math.pow is called with the
    exponents 0 and 1 only) binary64 gives Pb = 0.3, that is
    0x1.3333333333333p-2, then R = 3 * (1 - Pb) = 2.0999999999999996 and
    RiPb = 3 * Pb = 0.8999999999999999, and their sum 2.9999999999999996
    is strictly below lambda = 3. *)
Lemma mmckFinite_conservation_rounds :
  exists r cache',
    mmckFinite (num := float) 1 0 (NofZ 3) (NofZ 7) None factorialCache0
    = (Return r, cache')
    /\ FiniteQueueResult.Pb r = 0x1.3333333333333p-2%float
    /\ FiniteQueueResult.R r = 0x1.0ccccccccccccp+1%float
    /\ FiniteQueueResult.RiPb r = 0x1.cccccccccccccp-1%float
    /\ Nadd (FiniteQueueResult.R r) (FiniteQueueResult.RiPb r)
       = 0x1.7ffffffffffffp+1%float
    /\ Neqb (Nadd (FiniteQueueResult.R r) (FiniteQueueResult.RiPb r)) (NofZ 3)
       = false
    /\ Nltb (Nadd (FiniteQueueResult.R r) (FiniteQueueResult.RiPb r)) (NofZ 3)
       = true.
Proof.
  eexists. eexists. split; [vm_compute; reflexivity |].
  repeat split; vm_compute; reflexivity.
Qed.

End FiniteSolver.

(** *** Zero throughput *)

#[export] Instance ZeroTest_Q : ZeroTest Q.
Proof.
  intros x Hzero. at_Q. apply Qeq_bool_iff in Hzero.
  apply negb_false_iff, Qle_bool_iff. rewrite Hzero. apply Qle_refl.
Qed.

#[export] Instance ZeroTest_float : ZeroTest float.
Proof.
  intros x Hzero.
  cbn [NofZ Neqb Nltb Number_float float_of_Z] in *.
  rewrite FloatAxioms.eqb_spec in Hzero. rewrite FloatAxioms.ltb_spec.
  change (Prim2SF PrimFloat.zero) with (S754_zero false) in *.
  destruct (Prim2SF x) as [[|] | [|] | | [|] m e];
    cbv in Hzero |- *; solve [reflexivity | discriminate Hzero].
Qed.

Section ZeroThroughput.
Context {num : Type} `{Number num} `{!ZeroTest num}.
Local Open Scope num_scope.

(** C6: in the result of mmckFinite, I = Ii + Ip; when the effective
    throughput R is positive, Ti = Ii / R and T = I / R; when R is 0 the
    call still returns, with Ti = 0 and T = 0. *)
Theorem mmckFinite_little_law
    (c K : Z) (lam mu : num) (Q0 : option Z) (cache : list num) :
  (1 <= c)%Z -> (0 <= K)%Z -> cache_ok cache ->
  exists r cache',
    mmckFinite c K lam mu Q0 cache = (Return r, cache')
    /\ FiniteQueueResult.I r = FiniteQueueResult.Ii r + FiniteQueueResult.Ip r
    /\ ((FiniteQueueResult.R r >? $0) = true ->
        FiniteQueueResult.Ti r = FiniteQueueResult.Ii r / FiniteQueueResult.R r
        /\ FiniteQueueResult.T r = FiniteQueueResult.I r / FiniteQueueResult.R r)
    /\ ((FiniteQueueResult.R r =? $0) = true ->
        FiniteQueueResult.Ti r = $0 /\ FiniteQueueResult.T r = $0).
Proof.
  intros Hc HK Hok.
  destruct (mmckFinite_returns lam mu Q0 Hc HK Hok) as (cache' & Hrun & _).
  exists (mmckFinite_value c K lam mu Q0), cache'.
  split; [exact Hrun |].
  unfold mmckFinite_value. cbv zeta.
  cbn [FiniteQueueResult.I FiniteQueueResult.Ii FiniteQueueResult.Ip
       FiniteQueueResult.R FiniteQueueResult.Ti FiniteQueueResult.T].
  split; [reflexivity |]. split.
  - intros Hpos. now rewrite Hpos.
  - intros Hzero. apply zero_not_positive in Hzero. now rewrite Hzero.
Qed.

End ZeroThroughput.

Lemma mmckFinite_little_law_witness :
  (1 <= 2)%Z /\ (0 <= 0)%Z /\ cache_ok (factorialCache0 (num := Q))
  /\ exists r cache',
       mmckFinite (num := Q) 2 0 45 25 None factorialCache0
       = (Return r, cache')
       /\ FiniteQueueResult.I r
          = Nadd (FiniteQueueResult.Ii r) (FiniteQueueResult.Ip r)
       /\ (Nltb 0%Q (FiniteQueueResult.R r) = true ->
           FiniteQueueResult.Ti r
           = Ndiv (FiniteQueueResult.Ii r) (FiniteQueueResult.R r)
           /\ FiniteQueueResult.T r
              = Ndiv (FiniteQueueResult.I r) (FiniteQueueResult.R r))
       /\ (Neqb (FiniteQueueResult.R r) 0%Q = true ->
           FiniteQueueResult.Ti r = 0%Q /\ FiniteQueueResult.T r = 0%Q).
Proof.
  assert (Hc : (1 <= 2)%Z) by lia.
  assert (HK : (0 <= 0)%Z) by lia.
  pose proof (cache_ok_initial (num := Q)) as Hok.
  repeat (split; [assumption |]).
  exact (@mmckFinite_little_law Q Number_Q ZeroTest_Q 2 0 45%Q 25%Q None
           factorialCache0 Hc HK Hok).
Defined.

(** The two branches of C6 are both taken: throughput is positive at
    lambda = 45 and zero at lambda = 0, where the waiting time and the
    system time are 0. *)
Lemma mmckFinite_zero_throughput :
  exists r cache',
    mmckFinite (num := float) 2 0 (NofZ 0) (NofZ 25) None factorialCache0
    = (Return r, cache')
    /\ Neqb (FiniteQueueResult.R r) (NofZ 0) = true
    /\ FiniteQueueResult.Ti r = NofZ 0
    /\ FiniteQueueResult.T r = NofZ 0.
Proof.
  eexists. eexists. split; [vm_compute; reflexivity |].
  repeat split; vm_compute; reflexivity.
Qed.

(** ** The infinite-capacity solver *)

Section InfiniteSolver.
Local Open Scope Q_scope.




End InfiniteSolver.

(** ** The priority solver *)

Section PrioritySolver.
Context {num : Type} `{Number num}.
Local Open Scope num_scope.

Lemma classes_entry_at (Ii rho lam : num) (classFractions : list num)
    (k : nat) (f : num) :
  nth_error classFractions k = Some f ->
  nth_error (classes_loop Ii rho lam 0 classFractions $1 []) k
  = Some (class_entry Ii rho lam k f (F_after rho classFractions k)
            (F_after rho classFractions (S k))).
Proof.
  intros Hf. rewrite classes_loop_all.
  assert (Hk : (k < length classFractions)%nat).
  { apply nth_error_Some. now rewrite Hf. }
  rewrite nth_error_map, nth_error_seq.
  apply Nat.ltb_lt in Hk. rewrite Hk. cbn [option_map Nat.add].
  now rewrite (nth_error_nth _ _ _ Hf).
Qed.

(** C1 (as amended): with rho = lambda / (c * mu) < 1, mmcPriority keeps
    a running value that is 1 before class 0 and, after class k, is
    F(k) = F(k-1) - f_k * rho, so that F(0) = 1 - f_0 * rho.  The
    returned class-0 queue length is Ii_total * f_0 * (1 - rho) / F(0),
    and for every k > 0 the returned class-k queue length is
    Ii_total * f_k * (1 - rho) / (F(k) * F(k-1)).  Below,
    [F_after rho fs (S k)] is F(k) and [F_after rho fs 0] is the initial
    1. *)
Theorem mmcPriority_class_queue_lengths
    (c : Z) (lam mu : num) (classFractions : list num) (cache : list num) :
  (1 <= c)%Z -> (lam / ($c * mu) >=? $1) = false -> cache_ok cache ->
  let rho := lam / ($c * mu) in
  let F := F_after rho classFractions in
  exists r cache',
    mmcPriority c lam mu classFractions cache = (Return r, cache')
    /\ F 0%nat = $1
    /\ forall k f,
         nth_error classFractions k = Some f ->
         F (S k) = F k - f * rho
         /\ exists e,
              nth_error (classes r) k = Some e
              /\ Ii_k e
                 = if (k =? 0)%nat
                   then Ii_total r * f * ($1 - rho) / F 1%nat
                   else Ii_total r * f * ($1 - rho) / (F (S k) * F k).
Proof.
  intros Hc Hstable Hok rho F.
  destruct (mmcPriority_returns lam mu classFractions Hc Hstable Hok)
    as (cache' & Hrun & _).
  exists (mmcPriority_value c lam mu classFractions), cache'.
  split; [exact Hrun |]. split; [reflexivity |].
  intros k f Hf. split.
  - subst F. cbn [F_after]. now rewrite (nth_error_nth _ _ _ Hf).
  - eexists. split.
    + unfold mmcPriority_value. cbv zeta. cbn [classes].
      apply classes_entry_at. exact Hf.
    + unfold class_entry. cbn [Ii_k].
      destruct k as [| k]; reflexivity.
Qed.

(** C10: mmcPriority does not validate classFractions: for every array
    (of any length, with entries of any sign and any sum), once c >= 1
    and the stability test rho >= 1 fails, the call returns normally,
    the returned classes array has one entry per fraction, and entry k
    is the one built from fraction k. *)
Theorem mmcPriority_no_validation
    (c : Z) (lam mu : num) (classFractions : list num) (cache : list num) :
  (1 <= c)%Z -> (lam / ($c * mu) >=? $1) = false -> cache_ok cache ->
  exists r cache',
    mmcPriority c lam mu classFractions cache = (Return r, cache')
    /\ length (classes r) = length classFractions
    /\ forall k f,
         nth_error classFractions k = Some f ->
         exists e,
           nth_error (classes r) k = Some e
           /\ Ti_k e = if f >? $0 then Ii_k e / (f * lam) else $0.
Proof.
  intros Hc Hstable Hok.
  destruct (mmcPriority_returns lam mu classFractions Hc Hstable Hok)
    as (cache' & Hrun & _).
  exists (mmcPriority_value c lam mu classFractions), cache'.
  split; [exact Hrun |].
  unfold mmcPriority_value. cbv zeta. cbn [classes]. split.
  - now rewrite classes_loop_all, length_map, length_seq.
  - intros k f Hf. eexists. split.
    + apply classes_entry_at. exact Hf.
    + reflexivity.
Qed.

End PrioritySolver.

Section PriorityExact.
Local Open Scope Q_scope.

Lemma mmcPriority_class_queue_lengths_witness :
  (1 <= 2)%Z
  /\ Nleb (NofZ 1) (Ndiv 45 (Nmul (NofZ 2) 24)) = false
  /\ cache_ok (factorialCache0 (num := Q))
  /\ let rho := 45 / (inject_Z 2 * 24) in
     let F := F_after rho [1 # 5; 4 # 5; 0; 0] in
     exists r cache',
       mmcPriority 2 45 24 [1 # 5; 4 # 5; 0; 0] factorialCache0
       = (Return r, cache')
       /\ F 0%nat = 1
       /\ forall k f,
            nth_error [1 # 5; 4 # 5; 0; 0] k = Some f ->
            F (S k) = F k - f * rho
            /\ exists e,
                 nth_error (classes r) k = Some e
                 /\ Ii_k e
                    = if (k =? 0)%nat
                      then Ii_total r * f * (1 - rho) / F 1%nat
                      else Ii_total r * f * (1 - rho) / (F (S k) * F k).
Proof.
  assert (Hc : (1 <= 2)%Z) by lia.
  assert (Hstable : Nleb (NofZ 1) (Ndiv 45 (Nmul (NofZ 2) 24)) = false)
    by reflexivity.
  pose proof (cache_ok_initial (num := Q)) as Hok.
  repeat (split; [assumption |]).
  exact (@mmcPriority_class_queue_lengths Q _ 2 45 24 [1 # 5; 4 # 5; 0; 0]
           factorialCache0 Hc Hstable Hok).
Defined.

(** C1, as stated, fails: the running value is not 1 when class 0 is
    computed.  With c = 2, lambda = 45, mu = 24 and fractions
    [0.2, 0.8, 0, 0], rho = 15/16 and the returned class-0 queue length
    is Ii_total * f_0 * (1 - rho) / 0.8125, strictly more than
    Ii_total * f_0 * (1 - rho) / 1. *)
Lemma mmcPriority_class0_divides_by_updated_F :
  exists r cache' e0,
    mmcPriority 2 45 24 [1 # 5; 4 # 5; 0; 0] factorialCache0
    = (Return r, cache')
    /\ nth_error (classes r) 0 = Some e0
    /\ Ii_total r * (1 # 5) * (1 - 45 / (inject_Z 2 * 24)) / 1 < Ii_k e0
    /\ Ii_k e0
       == Ii_total r * (1 # 5) * (1 - 45 / (inject_Z 2 * 24)) / (13 # 16).
Proof.
  eexists. eexists. eexists.
  split; [vm_compute; reflexivity |].
  split; [reflexivity |].
  split; vm_compute; reflexivity.
Qed.

Lemma mmcPriority_no_validation_witness :
  (1 <= 2)%Z
  /\ Nleb (NofZ 1) (Ndiv 45 (Nmul (NofZ 2) 24)) = false
  /\ cache_ok (factorialCache0 (num := Q))
  /\ exists r cache',
       mmcPriority 2 45 24 [1 # 5; -(3 # 5); 7] factorialCache0
       = (Return r, cache')
       /\ length (classes r) = length [1 # 5; -(3 # 5); 7]
       /\ forall k f,
            nth_error [1 # 5; -(3 # 5); 7] k = Some f ->
            exists e,
              nth_error (classes r) k = Some e
              /\ Ti_k e = if Nltb 0 f then Ii_k e / (f * 45) else 0.
Proof.
  assert (Hc : (1 <= 2)%Z) by lia.
  assert (Hstable : Nleb (NofZ 1) (Ndiv 45 (Nmul (NofZ 2) 24)) = false)
    by reflexivity.
  pose proof (cache_ok_initial (num := Q)) as Hok.
  repeat (split; [assumption |]).
  exact (@mmcPriority_no_validation Q _ 2 45 24 [1 # 5; -(3 # 5); 7]
           factorialCache0 Hc Hstable Hok).
Defined.

(** The denominators of the priority formulas stay positive while the
    cumulative fraction is at most 1. *)
Lemma stable_denominator (rho x : Q) :
  0 <= rho -> rho < 1 -> 0 <= x -> x <= 1 -> 0 < 1 - rho * x.
Proof.
  intros Hrho0 Hrho1 Hx0 Hx1.
  assert (Hle : rho * x <= rho * 1).
  { destruct (Qle_lt_or_eq _ _ Hrho0) as [Hpos | Hzero].
    - now apply Qmult_le_l.
    - rewrite <- Hzero. rewrite !Qmult_0_l. apply Qle_refl. }
  lra.
Qed.

Lemma Qsum_Ii_k_snoc (acc : list (PriorityClassResult Q))
    (e : PriorityClassResult Q) :
  Qsum (map (@Ii_k Q) (acc ++ [e])) == Qsum (map (@Ii_k Q) acc) + Ii_k e.
Proof.
  rewrite map_app, Qsum_app. cbn [map]. rewrite Qsum_cons.
  change (Qsum []) with 0. ring.
Qed.

(** The class queue lengths telescope: with [S] the cumulative fraction
    of the classes already done and [F_prev = 1 - rho * S], the loop adds
    [Ii * (1 - rho) * (S'/(1 - rho * S') - S/(1 - rho * S))], where [S']
    is the cumulative fraction at the end. *)
Lemma classes_loop_sum (Ii rho lam : Q) :
  0 <= rho -> rho < 1 ->
  forall (fs : list Q) (k : nat) (F_prev S : Q)
         (acc : list (PriorityClassResult Q)),
    F_prev == 1 - rho * S ->
    (k = 0%nat -> S == 0) ->
    0 <= S ->
    Forall (fun f => 0 <= f) fs ->
    S + Qsum fs <= 1 ->
    Qsum (map (@Ii_k Q) (classes_loop Ii rho lam k fs F_prev acc))
    == Qsum (map (@Ii_k Q) acc)
       + Ii * (1 - rho)
         * ((S + Qsum fs) / (1 - rho * (S + Qsum fs)) - S / (1 - rho * S)).
Proof.
  intros Hrho0 Hrho1.
  induction fs as [| f fs IH]; intros k F_prev S acc HF Hk HS Hfs Hsum.
  - cbn [classes_loop]. change (Qsum []) with 0 in *.
    pose proof (stable_denominator Hrho0 Hrho1 HS) as Hden.
    assert (HS1 : S <= 1) by lra. specialize (Hden HS1).
    field. repeat split; lra.
  - cbn [classes_loop]. cbv zeta. rewrite Qsum_cons in Hsum |- *.
    inversion Hfs as [| f' fs' Hf Hfs']; subst f' fs'.
    assert (Hrest : 0 <= Qsum fs).
    { apply Qsum_nonneg. intros y Hy.
      exact (proj1 (Forall_forall _ _) Hfs' y Hy). }
    rewrite IH with (S := S + f); at_Q; change (inject_Z 1) with 1.
    + rewrite Qsum_Ii_k_snoc. cbn [Ii_k].
      pose proof (@stable_denominator rho S Hrho0 Hrho1 HS) as HdS.
      pose proof (@stable_denominator rho (S + f) Hrho0 Hrho1) as HdSf.
      pose proof (@stable_denominator rho (S + f + Qsum fs) Hrho0 Hrho1) as Hdall.
      assert (Hbefore : 0 < 1 - rho * S) by (apply HdS; lra).
      assert (Hafter : 0 < 1 - rho * (S + f)) by (apply HdSf; lra).
      assert (Hend : 0 < 1 - rho * (S + f + Qsum fs)) by (apply Hdall; lra).
      destruct k as [| k]; cbn [Nat.eqb].
      * pose proof (Hk eq_refl) as HS0.
        rewrite HF, HS0. rewrite HS0 in Hafter, Hend.
        field. repeat split; lra.
      * rewrite HF. field. repeat split; lra.
    + rewrite HF. ring.
    + discriminate.
    + lra.
    + exact Hfs'.
    + lra.
Qed.

(** C2 (as amended): in exact arithmetic, for every c >= 1, lambda > 0,
    mu > 0 with rho < 1 and every array of non-negative fractions summing
    to 1, the class queue lengths Ii_k returned by mmcPriority add up to
    exactly the returned Ii_total. *)
Theorem mmcPriority_classes_sum
    (c : Z) (lam mu : Q) (classFractions : list Q) (cache : list Q) :
  (1 <= c)%Z -> 0 < lam -> 0 < mu -> lam / (inject_Z c * mu) < 1 ->
  Forall (fun f => 0 <= f) classFractions ->
  sumList classFractions == 1 ->
  cache_ok cache ->
  exists r cache',
    mmcPriority c lam mu classFractions cache = (Return r, cache')
    /\ sumList (map (@Ii_k Q) (classes r)) == Ii_total r.
Proof.
  intros Hc Hlam Hmu Hrho1 Hfs Hsum Hok.
  assert (Hstable : Nleb (NofZ 1) (Ndiv lam (Nmul (NofZ c) mu)) = false)
    by now apply Q_leb_false.
  destruct (mmcPriority_returns lam mu classFractions Hc Hstable Hok)
    as (cache' & Hrun & _).
  exists (mmcPriority_value c lam mu classFractions), cache'.
  split; [exact Hrun |].
  unfold mmcPriority_value. cbv zeta. cbn [classes Ii_total].
  set (Ii := InfiniteQueueResult.Ii (mmcInfinite_value c lam mu None)).
  at_Q. set (rho := lam / (inject_Z c * mu)) in *.
  assert (Hrho0 : 0 <= rho).
  { apply Qlt_le_weak. now apply traffic_pos. }
  rewrite sumList_Qsum in Hsum |- *.
  rewrite (@classes_loop_sum Ii rho lam Hrho0 Hrho1 classFractions 0%nat
             (inject_Z 1) 0 []).
  - change (Qsum (map (@Ii_k Q) [])) with 0. rewrite Hsum.
    field. lra.
  - change (inject_Z 1) with 1. ring.
  - reflexivity.
  - apply Qle_refl.
  - exact Hfs.
  - rewrite Hsum. lra.
Qed.

Lemma mmcPriority_classes_sum_witness :
  (1 <= 2)%Z /\ 0 < 45 /\ 0 < 24 /\ 45 / (inject_Z 2 * 24) < 1
  /\ Forall (fun f => 0 <= f) [1 # 5; 4 # 5; 0; 0]
  /\ sumList [1 # 5; 4 # 5; 0; 0] == 1
  /\ cache_ok (factorialCache0 (num := Q))
  /\ exists r cache',
       mmcPriority 2 45 24 [1 # 5; 4 # 5; 0; 0] factorialCache0
       = (Return r, cache')
       /\ sumList (map (@Ii_k Q) (classes r)) == Ii_total r.
Proof.
  assert (Hc : (1 <= 2)%Z) by lia.
  assert (Hlam : 0 < 45) by reflexivity.
  assert (Hmu : 0 < 24) by reflexivity.
  assert (Hrho : 45 / (inject_Z 2 * 24) < 1) by reflexivity.
  assert (Hfs : Forall (fun f => 0 <= f) [1 # 5; 4 # 5; 0; 0])
    by (repeat constructor; discriminate).
  assert (Hsum : sumList [1 # 5; 4 # 5; 0; 0] == 1) by reflexivity.
  pose proof (cache_ok_initial (num := Q)) as Hok.
  repeat (split; [assumption |]).
  exact (@mmcPriority_classes_sum 2 45 24 [1 # 5; 4 # 5; 0; 0]
           factorialCache0 Hc Hlam Hmu Hrho Hfs Hsum Hok).
Defined.

(** C2, as stated, fails in binary64: the running value
    F_k = F_prev - f_k * rho cancels when rho is within a few units in the
    last place of 1.  With c = 1, lambda = 1 - 2^-52, mu = 1 and the
    fractions [0.125, 0.125, 0.25, 0.5], which are doubles and sum to
    exactly 1, the running value is rounded to 7/8, 3/4 and 1/2 after the
    first three classes and ends at 2^-53, half of 1 - rho = 2^-52; the
    last class is given the queue length 9007199254740988, and the class
    queue lengths sum to 9007199254740989, about twice the
    returned Ii_total = 4503599627370494. *)
Lemma mmcPriority_classes_sum_rounds :
  let lam := 0x1.ffffffffffffep-1%float in
  let fractions :=
    [Ndiv (NofZ 1) (NofZ 8); Ndiv (NofZ 1) (NofZ 8);
     Ndiv (NofZ 1) (NofZ 4); Ndiv (NofZ 1) (NofZ 2)] : list float in
  exists r cache',
    mmcPriority (num := float) 1 lam (NofZ 1) fractions factorialCache0
    = (Return r, cache')
    /\ float_value lam = Some (4503599627370495 # 4503599627370496)
    /\ Nltb (Ndiv lam (Nmul (NofZ 1) (NofZ 1))) (NofZ 1) = true
    /\ map float_value fractions
       = [Some (1 # 8); Some (1 # 8); Some (1 # 4); Some (1 # 2)]
    /\ sumList fractions = NofZ 1
    /\ map (fun n => float_value
                       (F_after (Ndiv lam (Nmul (NofZ 1) (NofZ 1))) fractions n))
         [1; 2; 3; 4]%nat
       = [Some (7 # 8); Some (3 # 4); Some (1 # 2);
          Some (1 # 9007199254740992)]
    /\ float_value (Ii_total r) = Some (inject_Z 4503599627370494)
    /\ float_value (sumList (map (@Ii_k float) (classes r)))
       = Some (inject_Z 9007199254740989)
    /\ option_map (fun e => float_value (Ii_k e)) (nth_error (classes r) 3)
       = Some (Some (inject_Z 9007199254740988)).
Proof.
  cbv zeta. eexists. eexists. split; [vm_compute; reflexivity |].
  repeat split; vm_compute; reflexivity.
Qed.

(** C8: for c = 2, lambda = 45, mu = 24 and classFractions
    [0.2, 0.8, 0, 0], mmcPriority returns a wait time Ti for class 1
    (index 0) that is strictly positive and strictly less than the wait
    time of class 2 (index 1) -- in exact arithmetic and in binary64
    alike, from every sound state of the factorial cache. *)
Theorem mmcPriority_scenario_C :
  (forall cache : list Q, cache_ok cache ->
     exists r cache' e0 e1,
       mmcPriority 2 45 24 [tenths 2; tenths 8; 0; 0] cache = (Return r, cache')
       /\ nth_error (classes r) 0 = Some e0
       /\ nth_error (classes r) 1 = Some e1
       /\ 0 < Ti_k e0 /\ Ti_k e0 < Ti_k e1)
  /\ (forall cache : list float, cache_ok cache ->
       exists r cache' e0 e1,
         mmcPriority 2 (NofZ 45) (NofZ 24)
           [tenths 2; tenths 8; NofZ 0; NofZ 0] cache
         = (Return r, cache')
         /\ nth_error (classes r) 0 = Some e0
         /\ nth_error (classes r) 1 = Some e1
         /\ Nltb (NofZ 0) (Ti_k e0) = true
         /\ Nltb (Ti_k e0) (Ti_k e1) = true).
Proof.
  split; intros cache Hok.
  - pose proof (@mmcPriority_returns Q Number_Q 2 45 24
                  [tenths 2; tenths 8; 0; 0] ltac:(lia)) as Hreturns.
    destruct (Hreturns eq_refl cache Hok) as (cache' & Hrun & _).
    eexists. exists cache'. eexists. eexists.
    split; [exact Hrun |].
    split; [vm_compute; reflexivity |].
    split; [vm_compute; reflexivity |].
    split; vm_compute; reflexivity.
  - pose proof (@mmcPriority_returns float Number_float 2 (NofZ 45) (NofZ 24)
                  [tenths 2; tenths 8; NofZ 0; NofZ 0] ltac:(lia)) as Hreturns.
    destruct (Hreturns ltac:(vm_compute; reflexivity) cache Hok)
      as (cache' & Hrun & _).
    eexists. exists cache'. eexists. eexists.
    split; [exact Hrun |].
    split; [vm_compute; reflexivity |].
    split; [vm_compute; reflexivity |].
    split; vm_compute; reflexivity.
Qed.

End PriorityExact.

(** In binary64 [tenths 2] and [tenths 8] are the doubles the literals
    0.2 and 0.8 denote. *)
Lemma tenths_binary64 :
  tenths 2 = 0x1.999999999999ap-3%float /\ tenths 8 = 0x1.999999999999ap-1%float.
Proof.
  split; vm_compute; reflexivity.
Qed.

Lemma mmcPriority_scenario_C_witness :
  (exists r cache' e0 e1,
     mmcPriority (num := Q) 2 45 24 [tenths 2; tenths 8; 0; 0]%Q
       factorialCache0 = (Return r, cache')
     /\ nth_error (classes r) 0 = Some e0
     /\ nth_error (classes r) 1 = Some e1
     /\ (0 < Ti_k e0)%Q /\ (Ti_k e0 < Ti_k e1)%Q)
  /\ (exists r cache' e0 e1,
        mmcPriority (num := float) 2 (NofZ 45) (NofZ 24)
          [tenths 2; tenths 8; NofZ 0; NofZ 0] factorialCache0
        = (Return r, cache')
        /\ nth_error (classes r) 0 = Some e0
        /\ nth_error (classes r) 1 = Some e1
        /\ Nltb (NofZ 0) (Ti_k e0) = true
        /\ Nltb (Ti_k e0) (Ti_k e1) = true).
Proof.
  split.
  - exact (proj1 mmcPriority_scenario_C factorialCache0 cache_ok_initial).
  - exact (proj2 mmcPriority_scenario_C factorialCache0 cache_ok_initial).
Defined.

(** ** The simulator at cv = 0 *)

Section EqualImages.
Context {A B : Type} (f : A -> B).

Lemma filter_same_image (p : A -> bool) (q : B -> bool) (l1 l2 : list A) :
  (forall x, p x = q (f x)) ->
  map f l1 = map f l2 ->
  map f (filter p l1) = map f (filter p l2).
Proof.
  intros Hpq. revert l2.
  induction l1 as [| x l1 IH]; intros [| y l2] Heq; try discriminate;
    [reflexivity |].
  cbn [map] in Heq. injection Heq as Hxy Hrest.
  cbn [filter]. rewrite !Hpq, Hxy.
  destruct (q (f y)); cbn [map]; [rewrite Hxy; f_equal |]; now apply IH.
Qed.

Lemma find_same_image (p : A -> bool) (q : B -> bool) (l1 l2 : list A) :
  (forall x, p x = q (f x)) ->
  map f l1 = map f l2 ->
  option_map f (find p l1) = option_map f (find p l2).
Proof.
  intros Hpq. revert l2.
  induction l1 as [| x l1 IH]; intros [| y l2] Heq; try discriminate;
    [reflexivity |].
  cbn [map] in Heq. injection Heq as Hxy Hrest.
  cbn [find]. rewrite !Hpq, Hxy.
  destruct (q (f y)); cbn [option_map]; [now rewrite Hxy | now apply IH].
Qed.

Lemma length_same_image (l1 l2 : list A) :
  map f l1 = map f l2 -> length l1 = length l2.
Proof.
  intros Heq. now rewrite <- (length_map f l1), Heq, length_map.
Qed.

End EqualImages.

Section ZeroCv.
Context {num : Type} `{Number num}.
Local Open Scope num_scope.

Variables Rng1 Rng2 : Type.
Variable Math_random1 : Rng1 -> num * Rng1.
Variable Math_random2 : Rng2 -> num * Rng2.
Variable Math_log : num -> num.
Variable Math_floor : num -> Z.

(** At [cv === 0] no number is drawn. *)
Lemma generateRandomTime_zero {Rng : Type} (Math_random : Rng -> num * Rng)
    (mean cv : num) (g : Rng) :
  (cv =? $0) = true ->
  generateRandomTime Math_random Math_log mean cv g = (mean, g).
Proof.
  intros Hcv. unfold generateRandomTime. now rewrite Hcv.
Qed.

Lemma arrivals_loop_same (p : SimParams num) (newTime : num) (fuel : nat) :
  (cvArrival p =? $0) = true ->
  forall (nextArrival : num) (nextId : Z)
         (dogs1 dogs2 : list (ArrivingDog.t num)) (g1 : Rng1) (g2 : Rng2),
    map dogTiming dogs1 = map dogTiming dogs2 ->
    match arrivals_loop Math_random1 Math_log Math_floor fuel p newTime
            nextArrival nextId dogs1 g1,
          arrivals_loop Math_random2 Math_log Math_floor fuel p newTime
            nextArrival nextId dogs2 g2 with
    | Some (a1, i1, d1, _), Some (a2, i2, d2, _) =>
        a1 = a2 /\ i1 = i2 /\ map dogTiming d1 = map dogTiming d2
    | None, None => True
    | _, _ => False
    end.
Proof.
  intros Hcv.
  induction fuel as [| fuel IH]; intros nextArrival nextId dogs1 dogs2 g1 g2 Hdogs;
    cbn [arrivals_loop]; destruct (nextArrival <=? newTime + walkTime);
    try now repeat split.
  set (near := fun t : Z * num * num => Math_abs (snd t - nextArrival) <? $1 / $100).
  pose proof (@find_same_image _ _ dogTiming
                (fun d => Math_abs (ArrivingDog.arrivalTime d - nextArrival)
                          <? $1 / $100)
                near dogs1 dogs2 (fun d => eq_refl) Hdogs) as Hfind.
  destruct (find _ dogs1) as [d1 |], (find _ dogs2) as [d2 |];
    try discriminate Hfind.
  - rewrite !generateRandomTime_zero by exact Hcv. now apply IH.
  - destruct (generateDogColors Math_random1 Math_floor g1) as [[collar1 fur1] g1'].
    destruct (generateDogColors Math_random2 Math_floor g2) as [[collar2 fur2] g2'].
    rewrite !generateRandomTime_zero by exact Hcv. apply IH.
    rewrite !map_app, Hdogs. reflexivity.
Qed.

Lemma enqueue_arrived_same (p : SimParams num) :
  (cvService p =? $0) = true ->
  forall (dogs1 dogs2 : list (ArrivingDog.t num))
         (queue1 queue2 : list (Customer num)) (total : Z)
         (g1 : Rng1) (g2 : Rng2),
    map dogTiming dogs1 = map dogTiming dogs2 ->
    map customerTiming queue1 = map customerTiming queue2 ->
    let '(q1, t1, _) :=
      enqueue_arrived Math_random1 Math_log p dogs1 queue1 total g1 in
    let '(q2, t2, _) :=
      enqueue_arrived Math_random2 Math_log p dogs2 queue2 total g2 in
    map customerTiming q1 = map customerTiming q2 /\ t1 = t2.
Proof.
  intros Hcv.
  induction dogs1 as [| d1 dogs1 IH];
    intros [| d2 dogs2] queue1 queue2 total g1 g2 Hdogs Hqueue;
    try discriminate Hdogs; cbn [enqueue_arrived].
  - now split.
  - cbn [map] in Hdogs.
    pose proof (f_equal (hd (dogTiming d1)) Hdogs) as Hd.
    pose proof (f_equal (@tl _) Hdogs) as Hrest.
    cbn [hd tl] in Hd, Hrest. unfold dogTiming in Hd.
    rewrite !generateRandomTime_zero by exact Hcv.
    apply IH; [exact Hrest |].
    rewrite !map_app, Hqueue. cbn [map]. f_equal. f_equal.
    unfold customerTiming.
    cbn [id arrivalTime serviceTime startServiceTime endServiceTime serverId].
    congruence.
Qed.

Lemma serviceCompleted_timing (newTime : num) (slot : option (Customer num)) :
  serviceCompleted newTime slot
  = completedTiming newTime (option_map customerTiming slot).
Proof.
  destruct slot as [c |]; [| reflexivity].
  cbn [serviceCompleted option_map customerTiming completedTiming].
  now destruct (endServiceTime c).
Qed.

Lemma release_same (newTime : num) (servers1 servers2 : list (option (Customer num))) :
  map (option_map customerTiming) servers1
  = map (option_map customerTiming) servers2 ->
  map (option_map customerTiming) (release newTime servers1)
  = map (option_map customerTiming) (release newTime servers2)
  /\ countCompletions newTime servers1 = countCompletions newTime servers2.
Proof.
  intros Hservers. split.
  - set (keep := fun t => if completedTiming newTime t then None else t).
    assert (Hslot : forall servers,
               map (option_map customerTiming) (release newTime servers)
               = map keep (map (option_map customerTiming) servers)).
    { intros servers. unfold release. rewrite !map_map.
      apply map_ext. intros slot. unfold keep.
      rewrite <- serviceCompleted_timing.
      now destruct (serviceCompleted newTime slot). }
    now rewrite !Hslot, Hservers.
  - unfold countCompletions. f_equal.
    apply (@length_same_image _ _ (option_map customerTiming)).
    apply filter_same_image with (q := completedTiming newTime);
      [apply serviceCompleted_timing | exact Hservers].
Qed.

Lemma assign_same (newTime : num) :
  forall (servers1 servers2 : list (option (Customer num))) (i : nat)
         (queue1 queue2 : list (Customer num)),
    map (option_map customerTiming) servers1
    = map (option_map customerTiming) servers2 ->
    map customerTiming queue1 = map customerTiming queue2 ->
    let (s1, q1) := assign newTime i servers1 queue1 in
    let (s2, q2) := assign newTime i servers2 queue2 in
    map (option_map customerTiming) s1 = map (option_map customerTiming) s2
    /\ map customerTiming q1 = map customerTiming q2.
Proof.
  induction servers1 as [| x servers1 IH];
    intros [| y servers2] i queue1 queue2 Hservers Hqueue;
    try discriminate Hservers.
  - cbn [assign]. now split.
  - cbn [map] in Hservers. injection Hservers as Hxy Hrest.
    destruct queue1 as [| c1 queue1], queue2 as [| c2 queue2];
      try discriminate Hqueue.
    + destruct x, y; cbn [assign]; (split; [| reflexivity]);
        cbn [map option_map] in *; congruence.
    + cbn [map] in Hqueue.
      pose proof (f_equal (hd (customerTiming c1)) Hqueue) as Hc.
      pose proof (f_equal (@tl _) Hqueue) as Hwaiting.
      cbn [hd tl] in Hc, Hwaiting.
      destruct x as [o1 |], y as [o2 |]; try discriminate Hxy; cbn [assign].
      * specialize (IH servers2 (S i) (c1 :: queue1) (c2 :: queue2) Hrest).
        specialize (IH Hqueue).
        destruct (assign newTime (S i) servers1 (c1 :: queue1)) as [s1 q1].
        destruct (assign newTime (S i) servers2 (c2 :: queue2)) as [s2 q2].
        destruct IH as [Hs Hq]. split; [| exact Hq].
        cbn [map]. now rewrite Hxy, Hs.
      * specialize (IH servers2 (S i) queue1 queue2 Hrest Hwaiting).
        destruct (assign newTime (S i) servers1 queue1) as [s1 q1].
        destruct (assign newTime (S i) servers2 queue2) as [s2 q2].
        destruct IH as [Hs Hq]. split; [| exact Hq].
        cbn [map option_map]. rewrite Hs. f_equal. f_equal.
        unfold customerTiming in Hc |- *.
        cbn [id arrivalTime serviceTime startServiceTime endServiceTime serverId].
        congruence.
Qed.

Lemma tick_same (fuel : nat) (p : SimParams num) (s1 s2 : SimState num)
    (g1 : Rng1) (g2 : Rng2) :
  (cvArrival p =? $0) = true -> (cvService p =? $0) = true ->
  sameTiming s1 s2 ->
  sameOutcome (tick Math_random1 Math_log Math_floor fuel p s1 g1)
              (tick Math_random2 Math_log Math_floor fuel p s2 g2).
Proof.
  intros HcvA HcvS (Htime & Hnext & Hid & Hdogs & Hqueue & Hservers & Hdone
                    & Htotal & Hhistory).
  unfold tick. rewrite <- Htime, <- Hnext, <- Hid, <- Hdone, <- Htotal, <- Hhistory.
  set (newTime := currentTime s1 + $1 / $10 * speed p).
  pose proof (arrivals_loop_same p newTime fuel HcvA (nextArrivalTime s1)
                (nextCustomerId s1) (arrivingDogs s1) (arrivingDogs s2) g1 g2
                Hdogs) as Hloop.
  destruct (arrivals_loop Math_random1 _ _ _ _ _ _ _ _ g1)
    as [[[[a1 i1] d1] g1'] |];
    destruct (arrivals_loop Math_random2 _ _ _ _ _ _ _ _ g2)
      as [[[[a2 i2] d2] g2'] |]; try contradiction; [| exact I].
  destruct Hloop as (-> & -> & Hd).
  pose proof (@filter_same_image _ _ dogTiming
                (fun d => newTime >=? ArrivingDog.arrivalTime d)
                (fun t => newTime >=? snd t) d1 d2 (fun d => eq_refl) Hd)
    as Harrived.
  pose proof (@filter_same_image _ _ dogTiming
                (fun d => newTime <? ArrivingDog.arrivalTime d)
                (fun t => newTime <? snd t) d1 d2 (fun d => eq_refl) Hd)
    as Hwalking.
  pose proof (enqueue_arrived_same p HcvS _ _ (queue s1) (queue s2)
                (totalArrived s1) g1' g2' Harrived Hqueue) as Henq.
  destruct (enqueue_arrived Math_random1 _ _ _ _ _ g1') as [[q1 t1] g1''].
  destruct (enqueue_arrived Math_random2 _ _ _ _ _ g2') as [[q2 t2] g2''].
  destruct Henq as [Hq ->].
  destruct (release_same newTime _ _ Hservers) as [Hreleased Hcount].
  pose proof (assign_same newTime _ _ 0 q1 q2 Hreleased Hq) as Hassign.
  destruct (assign newTime 0 (release newTime (servers s1)) q1) as [sv1 w1].
  destruct (assign newTime 0 (release newTime (servers s2)) q2) as [sv2 w2].
  destruct Hassign as [Hsv Hw].
  cbn [sameOutcome]. unfold sameTiming.
  cbn [currentTime nextArrivalTime nextCustomerId arrivingDogs queue servers
       completedCount totalArrived queueHistory].
  rewrite Hcount, (length_same_image _ _ _ Hw).
  now repeat split.
Qed.

Lemma ticks_same (fuel : nat) (ps : list (SimParams num)) :
  Forall (fun p => (cvArrival p =? $0) = true /\ (cvService p =? $0) = true) ps ->
  forall (s1 s2 : SimState num) (g1 : Rng1) (g2 : Rng2),
    sameTiming s1 s2 ->
    sameOutcome (ticks Math_random1 Math_log Math_floor fuel ps s1 g1)
                (ticks Math_random2 Math_log Math_floor fuel ps s2 g2).
Proof.
  induction 1 as [| p ps [HcvA HcvS] Hps IH]; intros s1 s2 g1 g2 Hsame;
    cbn [ticks].
  - exact Hsame.
  - pose proof (tick_same fuel p g1 g2 HcvA HcvS Hsame) as Htick.
    destruct (tick Math_random1 _ _ _ _ s1 g1) as [[s1' g1'] |];
      destruct (tick Math_random2 _ _ _ _ s2 g2) as [[s2' g2'] |];
      try contradiction; [| exact I].
    now apply IH.
Qed.

(** C7: at cv = 0 the random-duration generator returns exactly the mean,
    whatever the random source holds, and draws nothing from it; hence
    two runs of any tick sequence with cv = 0 for arrivals and service,
    from states that agree on every time, over two arbitrary random
    sources, agree on every interarrival and service duration and on
    every time derived from them (they differ in colours at most).  The
    arrival loop runs on fuel, the same in both runs: either both are
    still in the loop when it is spent, or both finish; [ticks_end] below
    shows that in exact arithmetic enough fuel always finishes. *)
Theorem zero_cv_is_deterministic
    (mean cv : num) (fuel : nat) (ps : list (SimParams num))
    (s1 s2 : SimState num) (g1 : Rng1) (g2 : Rng2) :
  (cv =? $0) = true ->
  Forall (fun p => (cvArrival p =? $0) = true /\ (cvService p =? $0) = true) ps ->
  sameTiming s1 s2 ->
  generateRandomTime Math_random1 Math_log mean cv g1 = (mean, g1)
  /\ generateRandomTime Math_random2 Math_log mean cv g2 = (mean, g2)
  /\ sameOutcome (ticks Math_random1 Math_log Math_floor fuel ps s1 g1)
                 (ticks Math_random2 Math_log Math_floor fuel ps s2 g2).
Proof.
  intros Hcv Hps Hsame.
  split; [now apply generateRandomTime_zero |].
  split; [now apply generateRandomTime_zero |].
  now apply ticks_same.
Qed.

End ZeroCv.

(** *** The arrival loop ends *)

Section TickFuel.
Context {num : Type} `{Number num}.
Variable Rng : Type.
Variable Math_random : Rng -> num * Rng.
Variable Math_log : num -> num.
Variable Math_floor : num -> Z.

(** More fuel does not change a finished run. *)
Lemma arrivals_loop_fuel (p : SimParams num) (newTime : num) (fuel : nat) :
  forall nextArrival nextId dogs g r,
    arrivals_loop Math_random Math_log Math_floor fuel p newTime nextArrival
      nextId dogs g = Some r ->
    forall fuel', (fuel <= fuel')%nat ->
      arrivals_loop Math_random Math_log Math_floor fuel' p newTime nextArrival
        nextId dogs g = Some r.
Proof.
  induction fuel as [| fuel IH]; intros nextArrival nextId dogs g r Hrun fuel' Hle.
  - destruct fuel' as [| fuel']; [exact Hrun |].
    cbn [arrivals_loop] in Hrun |- *.
    now destruct (Nleb nextArrival (Nadd newTime walkTime)).
  - destruct fuel' as [| fuel']; [lia |].
    cbn [arrivals_loop] in Hrun |- *.
    destruct (Nleb nextArrival (Nadd newTime walkTime)); [| exact Hrun].
    destruct (find _ dogs).
    + destruct (generateRandomTime _ _ _ _ g) as [gap g'].
      eapply IH; [exact Hrun | lia].
    + destruct (generateDogColors _ _ g) as [[collar fur] g1].
      destruct (generateRandomTime _ _ _ _ g1) as [gap g'].
      eapply IH; [exact Hrun | lia].
Qed.

Lemma tick_fuel (fuel fuel' : nat) (p : SimParams num) (s : SimState num)
    (g : Rng) (r : SimState num * Rng) :
  tick Math_random Math_log Math_floor fuel p s g = Some r ->
  (fuel <= fuel')%nat ->
  tick Math_random Math_log Math_floor fuel' p s g = Some r.
Proof.
  unfold tick. intros Hrun Hle.
  destruct (arrivals_loop _ _ _ fuel _ _ _ _ _ g) as [loop |] eqn:Hloop;
    [| discriminate Hrun].
  eapply arrivals_loop_fuel with (fuel' := fuel') in Hloop; [| exact Hle].
  rewrite Hloop. exact Hrun.
Qed.

Lemma ticks_fuel (fuel fuel' : nat) (ps : list (SimParams num)) :
  forall (s : SimState num) (g : Rng) (r : SimState num * Rng),
    ticks Math_random Math_log Math_floor fuel ps s g = Some r ->
    (fuel <= fuel')%nat ->
    ticks Math_random Math_log Math_floor fuel' ps s g = Some r.
Proof.
  induction ps as [| p ps IH]; intros s g r Hrun Hle; cbn [ticks] in *.
  - exact Hrun.
  - destruct (tick _ _ _ fuel p s g) as [[s' g'] |] eqn:Htick;
      [| discriminate Hrun].
    eapply tick_fuel with (fuel' := fuel') in Htick; [| exact Hle].
    rewrite Htick. now apply IH.
Qed.

End TickFuel.

Section TickTermination.
Local Open Scope Q_scope.
Variable Rng : Type.
Variable Math_random : Rng -> Q * Rng.
Variable Math_log : Q -> Q.
Variable Math_floor : Q -> Z.

(** In exact arithmetic, with a positive arrival rate and cv = 0, the
    next arrival moves on by [1 / arrivalRate] each round, so the loop
    leaves within any fuel that covers the distance. *)
Lemma arrivals_loop_ends (p : SimParams Q) (newTime : Q) (fuel : nat) :
  0 < arrivalRate p -> Neqb (cvArrival p) 0 = true ->
  forall nextArrival nextId dogs g,
    newTime + 2 - nextArrival < inject_Z (Z.of_nat fuel) * (1 / arrivalRate p) ->
    exists r,
      arrivals_loop Math_random Math_log Math_floor fuel p newTime nextArrival
        nextId dogs g = Some r.
Proof.
  intros Hrate Hcv.
  assert (Hgap : 0 < 1 / arrivalRate p).
  { apply Qlt_shift_div_l; [exact Hrate | now rewrite Qmult_0_l]. }
  induction fuel as [| fuel IH]; intros nextArrival nextId dogs g Hfuel;
    cbn [arrivals_loop];
    destruct (Nleb nextArrival (Nadd newTime walkTime)) eqn:Htest;
    try (eexists; reflexivity).
  - apply Q_leb_true in Htest. unfold walkTime in Htest. at_Q.
    change (inject_Z (Z.of_nat 0)) with 0 in Hfuel.
    change (inject_Z 2) with 2 in Htest. lra.
  - rewrite Nat2Z.inj_succ in Hfuel. unfold Z.succ in Hfuel.
    rewrite inject_Z_plus in Hfuel. change (inject_Z 1) with 1 in Hfuel.
    assert (Hnext : newTime + 2 - (nextArrival + 1 / arrivalRate p)
                    < inject_Z (Z.of_nat fuel) * (1 / arrivalRate p)).
    { set (d := 1 / arrivalRate p) in *. set (k := inject_Z (Z.of_nat fuel)) in *.
      assert (Hexp : (k + 1) * d == k * d + d) by ring.
      rewrite Hexp in Hfuel. lra. }
    destruct (find _ dogs).
    + rewrite (generateRandomTime_zero Math_log Math_random _ _ g Hcv).
      now apply IH.
    + destruct (generateDogColors _ _ g) as [[collar fur] g1].
      rewrite (generateRandomTime_zero Math_log Math_random _ _ g1 Hcv).
      now apply IH.
Qed.

Lemma enough_fuel (x d : Q) :
  0 < d -> exists fuel : nat, x < inject_Z (Z.of_nat fuel) * d.
Proof.
  intros Hd. exists (Z.to_nat (Qfloor (x / d) + 1)).
  pose proof (Qlt_floor (x / d)) as Hfloor.
  assert (Hbound : x / d < inject_Z (Z.of_nat (Z.to_nat (Qfloor (x / d) + 1)))).
  { apply (Qlt_le_trans _ _ _ Hfloor). rewrite <- Zle_Qle. lia. }
  apply (Qmult_lt_r _ _ _ Hd) in Hbound.
  assert (Hx : x / d * d == x) by (field; lra).
  now rewrite Hx in Hbound.
Qed.

Lemma tick_ends (p : SimParams Q) (s : SimState Q) (g : Rng) :
  0 < arrivalRate p -> Neqb (cvArrival p) 0 = true ->
  exists fuel r, tick Math_random Math_log Math_floor fuel p s g = Some r.
Proof.
  intros Hrate Hcv. unfold tick.
  set (newTime := Nadd (currentTime s) _).
  assert (Hgap : 0 < 1 / arrivalRate p).
  { apply Qlt_shift_div_l; [exact Hrate | now rewrite Qmult_0_l]. }
  destruct (enough_fuel (newTime + 2 - nextArrivalTime s) Hgap) as [fuel Hfuel].
  destruct (@arrivals_loop_ends p newTime fuel Hrate Hcv (nextArrivalTime s)
              (nextCustomerId s) (arrivingDogs s) g Hfuel)
    as [[[[a i] d] g1] Hloop].
  exists fuel. rewrite Hloop.
  destruct (enqueue_arrived _ _ _ _ _ _ g1) as [[q t] g2].
  destruct (assign _ _ _ q) as [sv w].
  eexists. reflexivity.
Qed.

(** With enough fuel a tick sequence at cv = 0 runs to its end. *)
Lemma ticks_end (ps : list (SimParams Q)) :
  Forall (fun p => 0 < arrivalRate p /\ Neqb (cvArrival p) 0 = true) ps ->
  forall (s : SimState Q) (g : Rng),
    exists fuel r, ticks Math_random Math_log Math_floor fuel ps s g = Some r.
Proof.
  induction 1 as [| p ps [Hrate Hcv] Hps IH]; intros s g; cbn [ticks].
  - exists 0%nat. eexists. reflexivity.
  - destruct (@tick_ends p s g Hrate Hcv) as (fuel1 & [s' g'] & Htick).
    destruct (IH s' g') as (fuel2 & r & Hrest).
    exists (Nat.max fuel1 fuel2), r.
    eapply tick_fuel with (fuel' := Nat.max fuel1 fuel2) in Htick;
      [| apply Nat.le_max_l].
    rewrite Htick.
    eapply ticks_fuel; [exact Hrest | apply Nat.le_max_r].
Qed.

End TickTermination.

(** *** Two runs at cv = 0 *)

(** Two random sources that never agree, and a tick sequence at cv = 0. *)
Lemma zero_cv_is_deterministic_witness :
  let source1 := fun g : nat => ((1 # 2)%Q, S g) in
  let source2 := fun g : nat => ((3 # 4)%Q, (g + 2)%nat) in
  let log := fun x : Q => (x - 1)%Q in
  let p := {| arrivalRate := 1%Q; serviceRate := (3 # 2)%Q;
              cvArrival := 0%Q; cvService := 0%Q; speed := 1%Q |} in
  Neqb 0%Q 0%Q = true
  /\ Forall (fun p => Neqb (cvArrival p) 0%Q = true
                      /\ Neqb (cvService p) 0%Q = true) [p; p; p]
  /\ sameTiming (resetSimulation (num := Q) 2) (resetSimulation 2)
  /\ generateRandomTime source1 log (2 # 3)%Q 0%Q 0%nat = ((2 # 3)%Q, 0%nat)
  /\ generateRandomTime source2 log (2 # 3)%Q 0%Q 7%nat = ((2 # 3)%Q, 7%nat)
  /\ sameOutcome
       (ticks source1 log Qfloor 50 [p; p; p] (resetSimulation 2) 0%nat)
       (ticks source2 log Qfloor 50 [p; p; p] (resetSimulation 2) 7%nat).
Proof.
  intros source1 source2 log p.
  assert (Hcv : Neqb 0%Q 0%Q = true) by reflexivity.
  assert (Hps : Forall (fun p => Neqb (cvArrival p) 0%Q = true
                                 /\ Neqb (cvService p) 0%Q = true) [p; p; p])
    by (repeat constructor).
  assert (Hsame : sameTiming (resetSimulation (num := Q) 2) (resetSimulation 2))
    by (unfold sameTiming; repeat split).
  repeat (split; [assumption |]).
  exact (@zero_cv_is_deterministic Q Number_Q nat nat source1 source2 log
           Qfloor (2 # 3)%Q 0%Q 50%nat [p; p; p] (resetSimulation 2)
           (resetSimulation 2) 0%nat 7%nat Hcv Hps Hsame).
Defined.

(** At cv = 0 the schedule is exact: with one arrival per time unit and
    a service time of 2/3, thirty ticks of 0.1 see jobs 1, 2 and 3 served
    and job 4, arrived at time 3, in service until 3 + 2/3, whatever the
    random source draws. *)
Lemma zero_cv_schedule :
  let source := fun g : nat => ((inject_Z (Z.of_nat g) / 10)%Q, S g) in
  let log := fun x : Q => (x - 1)%Q in
  let p := {| arrivalRate := 1%Q; serviceRate := (3 # 2)%Q;
              cvArrival := 0%Q; cvService := 0%Q; speed := 1%Q |} in
  exists s g,
    ticks source log Qfloor 50 (repeat p 30) (resetSimulation 2) 0%nat
    = Some (s, g)
    /\ totalArrived s = 4%Z
    /\ completedCount s = 3%Z
    /\ queue s = []
    /\ map (option_map (fun c => (id c, Qred (serviceTime c),
                                  option_map Qred (endServiceTime c))))
         (servers s)
       = [Some (4%Z, (2 # 3)%Q, Some (11 # 3)%Q); None].
Proof.
  intros source log p. eexists. eexists.
  split; [vm_compute; reflexivity |].
  repeat split.
Qed.

(** ** The examples of the source, in binary64

    [queueModel.ts] ends with three examples and the values they should
    print; the embedding reproduces them. *)

(** Example 1 (finite): c=2, K=0, Ri=45, Rp=25 gives a balking fraction
    of about 36.65%; the three state probabilities add up to 1. *)
Lemma example_1_finite :
  exists r cache',
    mmckFinite (num := float) 2 0 (NofZ 45) (NofZ 25) None factorialCache0
    = (Return r, cache')
    /\ Nltb (Ndiv (NofZ 36645) (NofZ 100000)) (FiniteQueueResult.Pb r) = true
    /\ Nltb (FiniteQueueResult.Pb r) (Ndiv (NofZ 36655) (NofZ 100000)) = true
    /\ sumList (FiniteQueueResult.stateProbabilities r) = NofZ 1.
Proof.
  eexists. eexists. split; [vm_compute; reflexivity |].
  repeat split; vm_compute; reflexivity.
Qed.

(** Example 2 (infinite): c=2, Ri=45, Rp=25 gives Ii of about 7.674 and
    Ti of about 0.1705. *)
Lemma example_2_infinite :
  exists r cache',
    mmcInfinite (num := float) 2 (NofZ 45) (NofZ 25) None factorialCache0
    = (Return r, cache')
    /\ Nltb (Ndiv (NofZ 76735) (NofZ 10000)) (InfiniteQueueResult.Ii r) = true
    /\ Nltb (InfiniteQueueResult.Ii r) (Ndiv (NofZ 76745) (NofZ 10000)) = true
    /\ Nltb (Ndiv (NofZ 17045) (NofZ 100000)) (InfiniteQueueResult.Ti r) = true
    /\ Nltb (InfiniteQueueResult.Ti r) (Ndiv (NofZ 17055) (NofZ 100000)) = true.
Proof.
  eexists. eexists. split; [vm_compute; reflexivity |].
  repeat split; vm_compute; reflexivity.
Qed.

(** Example 3 (priority): c=2, Ri=45, Rp=24, fractions [0.2, 0.8, 0, 0];
    the class queue lengths add up to Ii_total to the last bit. *)
Lemma example_3_priority :
  exists r cache',
    mmcPriority (num := float) 2 (NofZ 45) (NofZ 24)
      [tenths 2; tenths 8; NofZ 0; NofZ 0] factorialCache0
    = (Return r, cache')
    /\ length (classes r) = 4%nat
    /\ sumList (map (@Ii_k float) (classes r)) = Ii_total r.
Proof.
  eexists. eexists. split; [vm_compute; reflexivity |].
  split; vm_compute; reflexivity.
Qed.

(** * Further properties of the code *)

(** ** The geometric sums, term by term *)

Section GeometricSums.
Local Open Scope Q_scope.

Lemma Qsum_snoc (l : list Q) (x : Q) : Qsum (l ++ [x]) == Qsum l + x.
Proof.
  rewrite Qsum_app, Qsum_cons. change (Qsum []) with 0. ring.
Qed.

Lemma inject_Z_succ (n : nat) :
  inject_Z (Z.of_nat (S n)) == inject_Z (Z.of_nat n) + 1.
Proof.
  rewrite Nat2Z.inj_succ. unfold Z.succ. now rewrite inject_Z_plus.
Qed.

Lemma inject_Z_nonneg (n : nat) : 0 <= inject_Z (Z.of_nat n).
Proof.
  change 0 with (inject_Z 0). rewrite <- Zle_Qle. lia.
Qed.

Lemma weightedTerms_S (r : Q) (m : nat) :
  weightedTerms r (S m)
  == weightedTerms r m + inject_Z (Z.of_nat (S m)) * pow_nat r (S m).
Proof.
  unfold weightedTerms. rewrite seq_S, map_app. cbn [map Nat.add].
  now rewrite Qsum_snoc.
Qed.

(** The closed form of the weighted sum, cleared of its denominator. *)
Lemma weightedTerms_closed (r : Q) (m : nat) :
  (1 - r) * (1 - r) * weightedTerms r m
  == r * (1 - (inject_Z (Z.of_nat m) + 1) * pow_nat r m
          + inject_Z (Z.of_nat m) * pow_nat r (S m)).
Proof.
  induction m as [| m IH].
  - unfold weightedTerms. cbn [seq map pow_nat]. at_Q.
    change (Qsum []) with 0. change (inject_Z (Z.of_nat 0)) with 0.
    change (inject_Z 1) with 1. ring.
  - rewrite weightedTerms_S, Qmult_plus_distr_r, IH, inject_Z_succ.
    cbn [pow_nat]. at_Q.
    set (k := inject_Z (Z.of_nat m)). set (p := pow_nat r m). ring.
Qed.

Lemma weightedTerms_one (r : Q) (m : nat) :
  r == 1 ->
  weightedTerms r m
  == inject_Z (Z.of_nat m) * (inject_Z (Z.of_nat m) + 1) / 2.
Proof.
  intros Hr. induction m as [| m IH].
  - reflexivity.
  - rewrite weightedTerms_S, IH, (pow_nat_one (S m) Hr), inject_Z_succ.
    field.
Qed.

(** X1: geomSum(r, m) is the sum r^0 + ... + r^m it is documented to be,
    for every m >= -1 (the empty sum included), whenever r is 1 or at
    least 1e-12 away from 1; and geomSum(r, 0) is 1 for every r, the
    guarded band included. *)
Theorem geomSum_is_the_sum (r : Q) (m : Z) :
  (-1 <= m)%Z ->
  (r == 1 \/ lit_1e_12 <= Qabs (1 - r) ->
   geomSum r m == Qsum (map (pow_nat r) (seq 0 (Z.to_nat (m + 1)))))
  /\ geomSum r 0 == 1.
Proof.
  intros Hm. split.
  - intros Hr. destruct (Z.eq_dec m (-1)) as [-> | Hne].
    + change (Z.to_nat (-1 + 1)) with 0%nat. cbn [seq map].
      change (Qsum []) with 0. unfold geomSum.
      destruct (Nltb _ _) eqn:Htest.
      * reflexivity.
      * apply Q_ltb_false in Htest. at_Q. change (inject_Z 1) with 1 in *.
        change (Math_pow r (-1 + 1)) with 1.
        assert (Hne : ~ 1 - r == 0).
        { intros Hz. rewrite Hz in Htest. pose proof lit_1e_12_pos.
          change (Qabs 0) with 0 in Htest. lra. }
        now field.
    + replace m with (Z.of_nat (Z.to_nat m)) at 1 by lia.
      rewrite (geomSum_exact _ Hr). unfold geomTerms.
      now replace (Z.to_nat (m + 1)) with (S (Z.to_nat m)) by lia.
  - unfold geomSum. destruct (Nltb _ _) eqn:Htest.
    + reflexivity.
    + apply Q_ltb_false in Htest. at_Q. change (inject_Z 1) with 1 in *.
      change (Math_pow r (0 + 1)) with (r * 1).
      assert (Hne : ~ 1 - r == 0).
      { intros Hz. rewrite Hz in Htest. pose proof lit_1e_12_pos.
        change (Qabs 0) with 0 in Htest. lra. }
      now field.
Qed.

Lemma geomSum_is_the_sum_witness :
  (-1 <= 3)%Z
  /\ (1 # 2 == 1 \/ lit_1e_12 <= Qabs (1 - (1 # 2)))
  /\ geomSum (1 # 2) 3
     == Qsum (map (pow_nat (1 # 2)) (seq 0 (Z.to_nat (3 + 1)))).
Proof.
  assert (Hm : (-1 <= 3)%Z) by lia.
  assert (Hr : 1 # 2 == 1 \/ lit_1e_12 <= Qabs (1 - (1 # 2)))
    by (right; vm_compute; discriminate).
  repeat (split; [assumption |]).
  exact (proj1 (@geomSum_is_the_sum (1 # 2) 3 Hm) Hr).
Defined.

Lemma geomWeightedSum_exact (r : Q) (m : nat) :
  r == 1 \/ lit_1e_12 <= Qabs (1 - r) ->
  geomWeightedSum r (Z.of_nat m) == weightedTerms r m.
Proof.
  intros Hr. unfold geomWeightedSum.
  destruct (Z.leb_spec (Z.of_nat m) 0) as [Hle | Hgt].
  { assert (m = 0%nat) as -> by lia. reflexivity. }
  destruct (Nltb _ _) eqn:Htest.
  - apply Q_ltb_true in Htest. at_Q. change (inject_Z 1) with 1 in *.
    destruct Hr as [Hone | Hfar]; [| lra].
    now rewrite weightedTerms_one.
  - apply Q_ltb_false in Htest. at_Q. change (inject_Z 1) with 1 in *.
    assert (Hne : ~ 1 - r == 0).
    { intros Hz. rewrite Hz in Htest. pose proof lit_1e_12_pos.
      change (Qabs 0) with 0 in Htest. lra. }
    replace (Z.of_nat m + 1)%Z with (Z.of_nat (S m)) by lia.
    rewrite !Math_pow_of_nat.
    change (Math_pow (1 - r) 2) with ((1 - r) * ((1 - r) * 1)).
    rewrite <- weightedTerms_closed. now field.
Qed.

(** X2: geomWeightedSum(r, m) is 0 for m <= 0 and, for m >= 1, the sum
    1 r + 2 r^2 + ... + m r^m it is documented to be, whenever r is 1 or
    at least 1e-12 away from 1. *)
Theorem geomWeightedSum_is_the_sum (r : Q) (m : Z) :
  ((m <= 0)%Z -> geomWeightedSum r m = 0)
  /\ ((0 < m)%Z -> r == 1 \/ lit_1e_12 <= Qabs (1 - r) ->
      geomWeightedSum r m == weightedTerms r (Z.to_nat m)).
Proof.
  split.
  - intros Hm. unfold geomWeightedSum.
    destruct (Z.leb_spec m 0) as [_ | Hgt]; [reflexivity | lia].
  - intros Hm Hr. rewrite <- (geomWeightedSum_exact _ Hr).
    now rewrite Z2Nat.id by lia.
Qed.

Lemma geomWeightedSum_is_the_sum_witness :
  (0 < 3)%Z
  /\ (1 # 2 == 1 \/ lit_1e_12 <= Qabs (1 - (1 # 2)))
  /\ geomWeightedSum (1 # 2) 3 == weightedTerms (1 # 2) (Z.to_nat 3).
Proof.
  assert (Hm : (0 < 3)%Z) by lia.
  assert (Hr : 1 # 2 == 1 \/ lit_1e_12 <= Qabs (1 - (1 # 2)))
    by (right; vm_compute; discriminate).
  repeat (split; [assumption |]).
  exact (proj2 (@geomWeightedSum_is_the_sum (1 # 2) 3) Hm Hr).
Defined.

End GeometricSums.

(** ** The finite solver's results as means of its distribution *)

Section Sums.
Local Open Scope Q_scope.

Lemma Qsum_plus {A : Type} (f g : A -> Q) (l : list A) :
  Qsum (map (fun x => f x + g x) l) == Qsum (map f l) + Qsum (map g l).
Proof.
  induction l as [| x l IH]; cbn [map].
  - reflexivity.
  - rewrite !Qsum_cons, IH. ring.
Qed.

Lemma Qsum_zero {A : Type} (f : A -> Q) (l : list A) :
  (forall x, In x l -> f x == 0) -> Qsum (map f l) == 0.
Proof.
  intros Hf. induction l as [| x l IH]; cbn [map].
  - reflexivity.
  - rewrite Qsum_cons.
    assert (Hx : f x == 0) by (apply Hf; now left).
    assert (Hl : Qsum (map f l) == 0).
    { apply IH. intros y Hy. apply Hf. now right. }
    rewrite Hx, Hl. ring.
Qed.

Lemma table_nth (f : nat -> Q) (len n : nat) :
  (n < len)%nat -> nth n (map f (seq 0 len)) 0 = f n.
Proof.
  intros Hn. rewrite (nth_indep _ 0 (f 0%nat)) by now rewrite length_map, length_seq.
  now rewrite map_nth, seq_nth.
Qed.

Lemma mean_of_table (g f : nat -> Q) (len : nat) :
  mean_of g (map f (seq 0 len))
  == Qsum (map (fun n => g n * f n) (seq 0 len)).
Proof.
  unfold mean_of. rewrite length_map, length_seq.
  apply Qsum_ext. intros n Hn. apply in_seq in Hn.
  rewrite table_nth by lia. reflexivity.
Qed.

(** In a list of positive numbers that sum to 1, with at least two
    entries, every entry is below 1. *)
Lemma below_total (l : list Q) (x : Q) :
  (forall y, In y l -> 0 < y) -> Qsum l == 1 -> (2 <= length l)%nat ->
  In x l -> x < 1.
Proof.
  intros Hpos Hsum Hlen Hin.
  apply in_split in Hin. destruct Hin as (l1 & l2 & ->).
  rewrite Qsum_app, Qsum_cons in Hsum.
  assert (H1 : forall y, In y l1 -> 0 < y).
  { intros y Hy. apply Hpos, in_or_app. now left. }
  assert (H2 : forall y, In y l2 -> 0 < y).
  { intros y Hy. apply Hpos, in_or_app. right. now right. }
  rewrite length_app in Hlen. cbn [length] in Hlen.
  destruct l1 as [| y1 l1].
  - destruct l2 as [| y2 l2]; [cbn in Hlen; lia |].
    assert (0 < Qsum (y2 :: l2)).
    { apply Qsum_pos; [apply H2; now left |].
      intros y Hy. apply Qlt_le_weak, H2. now right. }
    change (Qsum []) with 0 in Hsum. lra.
  - assert (0 < Qsum (y1 :: l1)).
    { apply Qsum_pos; [apply H1; now left |].
      intros y Hy. apply Qlt_le_weak, H1. now right. }
    assert (0 <= Qsum l2).
    { apply Qsum_nonneg. intros y Hy. now apply Qlt_le_weak, H2. }
    lra.
Qed.

End Sums.

Section FiniteDistribution.
Local Open Scope Q_scope.
Variables (c K : nat) (lam mu : Q).
Hypothesis Hlam : 0 < lam.
Hypothesis Hmu : 0 < mu.

Local Abbreviation cZ := (Z.of_nat (S c)).
Local Abbreviation load := (lam / mu).
Local Abbreviation rh := (lam / (inject_Z (Z.of_nat (S c)) * mu)).
Local Abbreviation p0 := (P0_finite (Z.of_nat (S c)) (Z.of_nat K) lam mu).
Local Abbreviation erl := (pow_nat (lam / mu) (S c) / factorial_value (S c)).
Local Abbreviation Pst := (finite_state (S c) K lam mu).

Lemma load_pos : 0 < load.
Proof.
  apply Qlt_shift_div_l; [exact Hmu | now rewrite Qmult_0_l].
Qed.

Lemma rh_pos : 0 < rh.
Proof.
  apply traffic_pos; [lia | assumption ..].
Qed.

Lemma servers_times_rh : inject_Z cZ * rh == load.
Proof.
  assert (0 < inject_Z cZ) by (apply inject_Z_pos; lia).
  field. split; lra.
Qed.

Lemma p0_pos : 0 < p0.
Proof.
  rewrite P0_finite_unfold.
  pose proof (normalising_sum_pos c K Hlam Hmu) as Hpos. cbv zeta in Hpos.
  apply Qlt_shift_div_l; [exact Hpos | now rewrite Qmult_0_l].
Qed.

Lemma Pst_low (n : nat) :
  (n < S c)%nat -> Pst n == p0 * (pow_nat load n / factorial_value n).
Proof.
  intros Hn. unfold finite_state, Pn_value.
  destruct (Z.ltb_spec (Z.of_nat n) cZ) as [_ | Hge]; [| lia].
  rewrite Math_pow_of_nat, Nat2Z.id. at_Q. unfold Qdiv. ring.
Qed.

Lemma Pst_high (m : nat) :
  Pst (S c + m)%nat == p0 * erl * pow_nat rh m.
Proof.
  unfold finite_state, Pn_value.
  destruct (Z.ltb_spec (Z.of_nat (S c + m)) cZ) as [Hlt | _]; [lia |].
  replace (Z.of_nat (S c + m) - cZ)%Z with (Z.of_nat m) by lia.
  rewrite !Math_pow_of_nat, Nat2Z.id. at_Q. unfold Qdiv. ring.
Qed.

Lemma Pst_pos (n : nat) : 0 < Pst n.
Proof.
  pose proof p0_pos as Hp0. pose proof load_pos as Hload.
  destruct (Nat.lt_ge_cases n (S c)) as [Hlow | Hhigh].
  - rewrite (Pst_low Hlow).
    apply Qmult_lt_0_compat; [exact Hp0 | now apply erlang_term_pos].
  - replace n with (S c + (n - S c))%nat by lia. rewrite Pst_high.
    apply Qmult_lt_0_compat; [apply Qmult_lt_0_compat |].
    + exact Hp0.
    + now apply erlang_term_pos.
    + apply pow_nat_pos, rh_pos.
Qed.

Lemma factorial_value_S (n : nat) :
  factorial_value (num := Q) (S n)
  == inject_Z (Z.of_nat (S n)) * factorial_value n.
Proof.
  rewrite !factorial_value_exact.
  change (fact (S n)) with (S n * fact n)%nat.
  now rewrite Nat2Z.inj_mul, inject_Z_mult.
Qed.

(** The balance equations of the birth-death chain: the rate out of
    state [n + 1] by service equals the rate into it by arrival. *)
Lemma balance (n : nat) :
  inject_Z (Z.of_nat (Nat.min (S n) (S c))) * Pst (S n) == load * Pst n.
Proof.
  pose proof (factorial_value_pos n) as Hfn.
  pose proof (factorial_value_pos (S n)) as HfSn.
  assert (HSn : 0 < inject_Z (Z.of_nat (S n))) by (apply inject_Z_pos; lia).
  destruct (Nat.lt_ge_cases n c) as [Hlow | Hhigh].
  - rewrite Nat.min_l by lia.
    rewrite (@Pst_low (S n)), (@Pst_low n) by lia.
    cbn [pow_nat]. at_Q.
    pose proof (factorial_value_S n) as HS.
    set (f := factorial_value n) in *. set (g := factorial_value (S n)) in *.
    set (k := inject_Z (Z.of_nat (S n))) in *. clearbody f g k.
    rewrite HS. field. split; lra.
  - rewrite Nat.min_r by lia.
    destruct (Nat.eq_dec n c) as [-> | Hne].
    + pose proof (Pst_high 0) as Hat. rewrite Nat.add_0_r in Hat.
      rewrite Hat, (@Pst_low c) by lia.
      cbn [pow_nat]. at_Q.
      pose proof (factorial_value_S c) as HS.
      pose proof (factorial_value_pos c) as Hfc.
      pose proof (factorial_value_pos (S c)) as HfSc.
      assert (Hc : 0 < inject_Z cZ) by (apply inject_Z_pos; lia).
      set (f := factorial_value c) in *. set (g := factorial_value (S c)) in *.
      set (k := inject_Z cZ) in *. clearbody f g k.
      rewrite HS. change (inject_Z 1) with 1. field. split; lra.
    + pose proof (Pst_high (S (n - S c))) as Hup.
      replace (S c + S (n - S c))%nat with (S n) in Hup by lia.
      pose proof (Pst_high (n - S c)) as Hat.
      replace (S c + (n - S c))%nat with n in Hat by lia.
      rewrite Hup, Hat. cbn [pow_nat]. at_Q.
      pose proof servers_times_rh as Hs.
      set (r := rh) in *. set (k := inject_Z cZ) in *. set (l := load) in *.
      set (p := pow_nat r (n - S c)) in *. set (x := p0 * _) in *.
      clearbody x p k r l.
      setoid_replace (k * (x * (r * p))) with (k * r * (x * p)) by ring.
      now rewrite Hs.
Qed.

Lemma finite_stateProbabilities (Q0 : option Z) :
  FiniteQueueResult.stateProbabilities
    (mmckFinite_value (Z.of_nat (S c)) (Z.of_nat K) lam mu Q0)
  = map Pst (seq 0 (S c + S K)).
Proof.
  unfold mmckFinite_value, finite_state. cbv zeta.
  cbn [FiniteQueueResult.stateProbabilities].
  now replace (Z.to_nat (cZ + Z.of_nat K + 1)) with (S c + S K)%nat by lia.
Qed.

Lemma finite_Pb (Q0 : option Z) :
  FiniteQueueResult.Pb
    (mmckFinite_value (Z.of_nat (S c)) (Z.of_nat K) lam mu Q0)
  = Pst (S c + K)%nat.
Proof.
  unfold mmckFinite_value, finite_state. cbv zeta. cbn [FiniteQueueResult.Pb].
  now rewrite Nat2Z.inj_add.
Qed.

(** [geomSum] returns the sum it stands for: outside the guarded band,
    at 1, and for [K = 0]. *)
Hypothesis Hexact : geomSum rh (Z.of_nat K) == geomTerms rh K.

Lemma Pst_total : Qsum (map Pst (seq 0 (S c + S K))) == 1.
Proof.
  rewrite <- (finite_stateProbabilities None), <- sumList_Qsum.
  rewrite stateProbabilities_total, P0_finite_unfold.
  pose proof (normalising_sum_pos c K Hlam Hmu) as Hpos. cbv zeta in Hpos.
  rewrite Hexact in *.
  match type of Hpos with 0 < ?X => set (total := X) in * end.
  clearbody total. field. lra.
Qed.

Lemma Pst_below (n : nat) : (n < S c + S K)%nat -> Pst n < 1.
Proof.
  intros Hn.
  apply (@below_total (map Pst (seq 0 (S c + S K)))).
  - intros y Hy. apply in_map_iff in Hy. destruct Hy as (m & <- & _).
    apply Pst_pos.
  - exact Pst_total.
  - rewrite length_map, length_seq. lia.
  - apply in_map_iff. exists n. split; [reflexivity |]. apply in_seq. lia.
Qed.

(** The mass below the last state. *)
Lemma Pst_init : Qsum (map Pst (seq 0 (S c + K))) == 1 - Pst (S c + K)%nat.
Proof.
  pose proof Pst_total as Htotal.
  replace (S c + S K)%nat with (S (S c + K)) in Htotal by lia.
  rewrite seq_S, map_app in Htotal. cbn [map Nat.add] in Htotal.
  rewrite Qsum_snoc in Htotal.
  cbn [Nat.add]. lra.
Qed.

(** The mean number of busy servers is the offered load times the
    probability of being admitted. *)
Lemma busy_mean :
  Qsum (map (fun n => inject_Z (Z.of_nat (Nat.min n (S c))) * Pst n)
          (seq 0 (S c + S K)))
  == load * (1 - Pst (S c + K)%nat).
Proof.
  replace (S c + S K)%nat with (S (S c + K)) by lia.
  cbn [seq map]. rewrite Qsum_cons.
  rewrite <- seq_shift, map_map, <- Pst_init, <- Qsum_scale.
  change (inject_Z (Z.of_nat (Nat.min 0 (S c)))) with 0.
  rewrite Qmult_0_l, Qplus_0_l.
  apply Qsum_ext. intros n _. apply balance.
Qed.

(** The mean number waiting. *)
Lemma waiting_mean :
  Qsum (map (fun n => inject_Z (Z.of_nat (n - S c)) * Pst n)
          (seq 0 (S c + S K)))
  == p0 * erl * weightedTerms rh K.
Proof.
  rewrite seq_app, map_app, Qsum_app. cbn [Nat.add].
  rewrite Qsum_zero.
  2:{ intros n Hn. apply in_seq in Hn.
      replace (n - S c)%nat with 0%nat by lia.
      change (inject_Z (Z.of_nat 0)) with 0. ring. }
  rewrite (seq_offset (S c)), map_map.
  cbn [seq map]. rewrite Qsum_cons.
  replace (S c + 0 - S c)%nat with 0%nat by lia.
  change (inject_Z (Z.of_nat 0)) with 0.
  unfold weightedTerms. rewrite <- Qsum_scale.
  rewrite Qmult_0_l, !Qplus_0_l.
  apply Qsum_ext. intros m _.
  replace (S c + m - S c)%nat with m by lia.
  rewrite Pst_high. ring.
Qed.

End FiniteDistribution.

Section FiniteResults.
Local Open Scope Q_scope.

(** A run of [mmckFinite] on valid arguments, reduced to a property of
    the value it returns. *)
Lemma finite_run (Pr : FiniteQueueResult.t Q -> Prop) (c K : Z) (lam mu : Q)
    (Q0 : option Z) (cache : list Q) :
  (1 <= c)%Z -> (0 <= K)%Z -> cache_ok cache ->
  (forall c' K' : nat, c = Z.of_nat (S c') -> K = Z.of_nat K' ->
     Pr (mmckFinite_value (Z.of_nat (S c')) (Z.of_nat K') lam mu Q0)) ->
  exists r cache', mmckFinite c K lam mu Q0 cache = (Return r, cache') /\ Pr r.
Proof.
  intros Hc HK Hok HPr.
  destruct (mmckFinite_returns lam mu Q0 Hc HK Hok) as (cache' & Hrun & _).
  exists (mmckFinite_value c K lam mu Q0), cache'. split; [exact Hrun |].
  specialize (HPr (Z.to_nat c - 1)%nat (Z.to_nat K)).
  replace (Z.of_nat (S (Z.to_nat c - 1))) with c in HPr by lia.
  replace (Z.of_nat (Z.to_nat K)) with K in HPr by lia.
  now apply HPr.
Qed.

Lemma geomSum_zero (r : Q) : geomSum r 0 == 1.
Proof.
  unfold geomSum. destruct (Nltb _ _) eqn:Htest.
  - reflexivity.
  - apply Q_ltb_false in Htest. at_Q. change (inject_Z 1) with 1 in *.
    change (Math_pow r (0 + 1)) with (r * 1).
    assert (Hne : ~ 1 - r == 0).
    { intros Hz. rewrite Hz in Htest. pose proof lit_1e_12_pos.
      change (Qabs 0) with 0 in Htest. lra. }
    now field.
Qed.

Lemma geomSum_exact_0 (r : Q) : geomSum r (Z.of_nat 0) == geomTerms r 0.
Proof.
  change (Z.of_nat 0) with 0%Z. rewrite geomSum_zero. reflexivity.
Qed.

Variables (c K : nat) (lam mu : Q) (Q0 : option Z).
Hypothesis Hlam : 0 < lam.
Hypothesis Hmu : 0 < mu.
Hypothesis Hexact :
  geomSum (lam / (inject_Z (Z.of_nat (S c)) * mu)) (Z.of_nat K)
  == geomTerms (lam / (inject_Z (Z.of_nat (S c)) * mu)) K.

Local Abbreviation res :=
  (mmckFinite_value (Z.of_nat (S c)) (Z.of_nat K) lam mu Q0).

Lemma finite_Pb_bounds :
  0 < FiniteQueueResult.Pb res /\ FiniteQueueResult.Pb res < 1.
Proof.
  rewrite finite_Pb. split.
  - now apply Pst_pos.
  - apply Pst_below; try assumption. lia.
Qed.

Lemma finite_R_bounds :
  0 < FiniteQueueResult.R res /\ FiniteQueueResult.R res < lam.
Proof.
  destruct finite_Pb_bounds as [Hpos Hlt].
  change (FiniteQueueResult.R res) with (lam * (1 - FiniteQueueResult.Pb res)).
  set (Pb := FiniteQueueResult.Pb res) in *. clearbody Pb.
  assert (0 < lam * (1 - Pb)) by (apply Qmult_lt_0_compat; lra).
  assert (0 < lam * Pb) by (apply Qmult_lt_0_compat; lra).
  split; lra.
Qed.

Lemma finite_Ii :
  FiniteQueueResult.Ii res
  == P0_finite (Z.of_nat (S c)) (Z.of_nat K) lam mu
     * (pow_nat (lam / mu) (S c) / factorial_value (S c))
     * geomWeightedSum (lam / (inject_Z (Z.of_nat (S c)) * mu)) (Z.of_nat K).
Proof.
  unfold mmckFinite_value. cbv zeta. cbn [FiniteQueueResult.Ii].
  rewrite Math_pow_of_nat, Nat2Z.id. at_Q. unfold Qdiv. ring.
Qed.

Lemma finite_Ip :
  FiniteQueueResult.Ip res == lam / mu * (1 - FiniteQueueResult.Pb res).
Proof.
  change (FiniteQueueResult.Ip res)
    with (lam * (1 - FiniteQueueResult.Pb res) / mu).
  field. lra.
Qed.

Lemma finite_times :
  FiniteQueueResult.R res * FiniteQueueResult.Ti res == FiniteQueueResult.Ii res
  /\ FiniteQueueResult.R res * FiniteQueueResult.T res == FiniteQueueResult.I res
  /\ FiniteQueueResult.T res == FiniteQueueResult.Ti res + 1 / mu.
Proof.
  destruct finite_R_bounds as [HR _].
  assert (Htest : Nltb 0 (FiniteQueueResult.R res) = true)
    by now apply Q_ltb_true.
  change (FiniteQueueResult.Ti res)
    with (if Nltb 0 (FiniteQueueResult.R res)
          then FiniteQueueResult.Ii res / FiniteQueueResult.R res else 0).
  change (FiniteQueueResult.T res)
    with (if Nltb 0 (FiniteQueueResult.R res)
          then FiniteQueueResult.I res / FiniteQueueResult.R res else 0).
  rewrite Htest.
  change (FiniteQueueResult.I res)
    with (FiniteQueueResult.Ii res + FiniteQueueResult.R res / mu).
  set (R := FiniteQueueResult.R res) in *.
  set (Ii := FiniteQueueResult.Ii res). clearbody R Ii.
  repeat split; field; lra.
Qed.

End FiniteResults.

Section FiniteMeans.
Local Open Scope Q_scope.
Variables (c K : nat) (lam mu : Q) (Q0 : option Z).
Hypothesis Hlam : 0 < lam.
Hypothesis Hmu : 0 < mu.
Hypothesis Hband :
  lam / (inject_Z (Z.of_nat (S c)) * mu) == 1
  \/ lit_1e_12 <= Qabs (1 - lam / (inject_Z (Z.of_nat (S c)) * mu)).

Local Abbreviation res :=
  (mmckFinite_value (Z.of_nat (S c)) (Z.of_nat K) lam mu Q0).
Local Abbreviation probs := (FiniteQueueResult.stateProbabilities res).

Lemma finite_Ii_mean :
  FiniteQueueResult.Ii res
  == mean_of (fun n => inject_Z (Z.of_nat (n - S c))) probs.
Proof.
  rewrite finite_stateProbabilities, mean_of_table, waiting_mean, finite_Ii.
  now rewrite (geomWeightedSum_exact K Hband).
Qed.

Lemma finite_Ip_mean :
  FiniteQueueResult.Ip res
  == mean_of (fun n => inject_Z (Z.of_nat (Nat.min n (S c)))) probs.
Proof.
  rewrite finite_stateProbabilities, mean_of_table.
  rewrite finite_Ip by assumption. rewrite finite_Pb.
  symmetry. apply busy_mean; try assumption.
  now apply geomSum_exact.
Qed.

Lemma finite_I_mean :
  FiniteQueueResult.I res == mean_of (fun n => inject_Z (Z.of_nat n)) probs.
Proof.
  change (FiniteQueueResult.I res)
    with (FiniteQueueResult.Ii res + FiniteQueueResult.Ip res).
  rewrite finite_Ii_mean, finite_Ip_mean.
  rewrite finite_stateProbabilities, !mean_of_table, <- Qsum_plus.
  apply Qsum_ext. intros n _.
  assert (Hn : inject_Z (Z.of_nat n)
               == inject_Z (Z.of_nat (n - S c))
                  + inject_Z (Z.of_nat (Nat.min n (S c)))).
  { rewrite <- inject_Z_plus. apply inject_Z_injective. lia. }
  rewrite Hn. ring.
Qed.

(** Fewer than [c] servers are busy on average. *)
Lemma finite_Ip_below : FiniteQueueResult.Ip res < inject_Z (Z.of_nat (S c)).
Proof.
  rewrite finite_Ip_mean, finite_stateProbabilities, mean_of_table.
  pose proof (@Pst_total c K lam mu Hlam Hmu (geomSum_exact K Hband)) as Htotal.
  set (Pst := finite_state (S c) K lam mu) in *.
  set (k := inject_Z (Z.of_nat (S c))).
  assert (Hsplit :
    Qsum (map (fun n => inject_Z (Z.of_nat (Nat.min n (S c))) * Pst n)
            (seq 0 (S c + S K)))
    + Qsum (map (fun n => (k - inject_Z (Z.of_nat (Nat.min n (S c)))) * Pst n)
              (seq 0 (S c + S K)))
    == k).
  { rewrite <- Qsum_plus.
    rewrite (Qsum_ext _ (fun n => k * Pst n)) by (intros; ring).
    rewrite Qsum_scale, Htotal. ring. }
  assert (Hidle :
    0 < Qsum (map (fun n => (k - inject_Z (Z.of_nat (Nat.min n (S c)))) * Pst n)
                (seq 0 (S c + S K)))).
  { cbn [Nat.add seq map]. apply Qsum_pos.
    - change (inject_Z (Z.of_nat (Nat.min 0 (S c)))) with 0.
      apply Qmult_lt_0_compat.
      + assert (0 < k) by (apply inject_Z_pos; lia). lra.
      + now apply Pst_pos.
    - intros y Hy. apply in_map_iff in Hy. destruct Hy as (n & <- & _).
      apply Qmult_le_0_compat.
      + assert (inject_Z (Z.of_nat (Nat.min n (S c))) <= k)
          by (unfold k; rewrite <- Zle_Qle; lia).
        lra.
      + now apply Qlt_le_weak, Pst_pos. }
  lra.
Qed.

(** The tail of the waiting line. *)
Lemma finite_tail (q : Z) :
  (0 <= q)%Z ->
  exists v,
    FiniteQueueResult.P_q_gt_Q
      (mmckFinite_value (Z.of_nat (S c)) (Z.of_nat K) lam mu (Some q)) = Some v
    /\ v == mean_of
              (fun n => if (q <? Z.of_nat n - Z.of_nat (S c))%Z then 1 else 0)
              probs.
Proof.
  intros Hq. rewrite finite_stateProbabilities.
  unfold mmckFinite_value. cbv zeta. cbn [FiniteQueueResult.P_q_gt_Q].
  destruct (Z.geb_spec q (Z.of_nat K)) as [Hfull | Hroom].
  - exists 0. split; [reflexivity |]. rewrite mean_of_table.
    symmetry. apply Qsum_zero.
    intros n Hn. apply in_seq in Hn.
    destruct (Z.ltb_spec q (Z.of_nat n - Z.of_nat (S c))) as [Hlt | _]; [lia |].
    ring.
  - eexists. split; [reflexivity |]. rewrite mean_of_table.
    rewrite Math_pow_of_nat, Nat2Z.id. at_Q.
    remember (Z.to_nat q) as q' eqn:Hq'.
    replace q with (Z.of_nat q') in * by lia.
    rewrite !(geomSum_exact _ Hband).
    rewrite seq_app, map_app, Qsum_app. cbn [Nat.add].
    rewrite Qsum_zero.
    2:{ intros n Hn. apply in_seq in Hn.
        destruct (Z.ltb_spec (Z.of_nat q') (Z.of_nat n - Z.of_nat (S c)))
          as [Hlt | _]; [lia |].
        ring. }
    rewrite (seq_offset (S c)), map_map.
    unfold geomTerms.
    replace (S K) with (S q' + (K - q'))%nat by lia.
    rewrite !seq_app, !map_app, !Qsum_app. cbn [Nat.add].
    rewrite (Qsum_zero
               (fun m => (if (Z.of_nat q' <? Z.of_nat (S c + m) - Z.of_nat (S c))%Z
                          then 1 else 0) * finite_state (S c) K lam mu (S c + m))).
    2:{ intros m Hm. apply in_seq in Hm.
        destruct (Z.ltb_spec (Z.of_nat q') (Z.of_nat (S c + m) - Z.of_nat (S c)))
          as [Hlt | _]; [lia |].
        ring. }
    rewrite (Qsum_ext
               (fun m => (if (Z.of_nat q' <? Z.of_nat (S c + m) - Z.of_nat (S c))%Z
                          then 1 else 0) * finite_state (S c) K lam mu (S c + m))
               (fun m => P0_finite (Z.of_nat (S c)) (Z.of_nat K) lam mu
                         * (pow_nat (lam / mu) (S c) / factorial_value (S c))
                         * pow_nat (lam / (inject_Z (Z.of_nat (S c)) * mu)) m)).
    2:{ intros m Hm. apply in_seq in Hm.
        destruct (Z.ltb_spec (Z.of_nat q') (Z.of_nat (S c + m) - Z.of_nat (S c)))
          as [_ | Hge]; [| lia].
        rewrite Pst_high. ring. }
    rewrite Qsum_scale. unfold Qdiv. ring.
Qed.

End FiniteMeans.

Section FiniteTheorems.
Local Open Scope Q_scope.

(** X3: on valid arguments, with rho equal to 1 or outside the guarded
    band, the vector mmckFinite returns is a probability distribution
    with full support: every entry lies strictly between 0 and 1, its last
    entry (state N = c + K) is the blocking probability Pb, and the
    throughput R lies strictly between 0 and lambda. *)
Theorem mmckFinite_is_a_distribution
    (c K : Z) (lam mu : Q) (Q0 : option Z) (cache : list Q) :
  (1 <= c)%Z -> (0 <= K)%Z -> 0 < lam -> 0 < mu ->
  lam / (inject_Z c * mu) == 1
  \/ lit_1e_12 <= Qabs (1 - lam / (inject_Z c * mu)) ->
  cache_ok cache ->
  exists r cache',
    mmckFinite c K lam mu Q0 cache = (Return r, cache')
    /\ Forall (fun p => 0 < p /\ p < 1) (FiniteQueueResult.stateProbabilities r)
    /\ nth (Z.to_nat (c + K)) (FiniteQueueResult.stateProbabilities r) 0
       = FiniteQueueResult.Pb r
    /\ 0 < FiniteQueueResult.R r /\ FiniteQueueResult.R r < lam.
Proof.
  intros Hc HK Hlam Hmu Hband Hok.
  apply finite_run; try assumption. intros c' K' -> ->.
  pose proof (geomSum_exact K' Hband) as Hexact.
  split; [| split].
  - rewrite finite_stateProbabilities. apply Forall_forall.
    intros p Hp. apply in_map_iff in Hp. destruct Hp as (n & <- & Hn).
    apply in_seq in Hn. split.
    + now apply Pst_pos.
    + apply Pst_below; try assumption. lia.
  - rewrite finite_stateProbabilities, finite_Pb.
    replace (Z.to_nat (Z.of_nat (S c') + Z.of_nat K')) with (S c' + K')%nat
      by lia.
    apply table_nth. lia.
  - now apply finite_R_bounds.
Qed.

Lemma mmckFinite_is_a_distribution_witness :
  (1 <= 2)%Z /\ (0 <= 3)%Z /\ 0 < 45 /\ 0 < 25
  /\ (45 / (inject_Z 2 * 25) == 1
      \/ lit_1e_12 <= Qabs (1 - 45 / (inject_Z 2 * 25)))
  /\ cache_ok (factorialCache0 (num := Q))
  /\ exists r cache',
       mmckFinite 2 3 45 25 None factorialCache0 = (Return r, cache')
       /\ Forall (fun p => 0 < p /\ p < 1)
            (FiniteQueueResult.stateProbabilities r)
       /\ nth (Z.to_nat (2 + 3)) (FiniteQueueResult.stateProbabilities r) 0
          = FiniteQueueResult.Pb r
       /\ 0 < FiniteQueueResult.R r /\ FiniteQueueResult.R r < 45.
Proof.
  assert (Hc : (1 <= 2)%Z) by lia.
  assert (HK : (0 <= 3)%Z) by lia.
  assert (Hlam : 0 < 45) by reflexivity.
  assert (Hmu : 0 < 25) by reflexivity.
  assert (Hrho : 45 / (inject_Z 2 * 25) == 1
                 \/ lit_1e_12 <= Qabs (1 - 45 / (inject_Z 2 * 25)))
    by (right; vm_compute; discriminate).
  pose proof (cache_ok_initial (num := Q)) as Hok.
  repeat (split; [assumption |]).
  exact (@mmckFinite_is_a_distribution 2 3 45 25 None factorialCache0
           Hc HK Hlam Hmu Hrho Hok).
Defined.

(** X4: in exact arithmetic, for c >= 1, K >= 0, lambda > 0, mu > 0 and
    rho equal to 1 or outside the guarded band, the averages mmckFinite
    returns are the means of the distribution it returns: Ii is the mean
    of max(n - c, 0) (customers waiting), Ip the mean of min(n, c) (busy
    servers), I the mean of n (customers in the system); and the
    utilization Ip / c is below 1 whatever the traffic intensity. *)
Theorem mmckFinite_means
    (c K : Z) (lam mu : Q) (Q0 : option Z) (cache : list Q) :
  (1 <= c)%Z -> (0 <= K)%Z -> 0 < lam -> 0 < mu ->
  lam / (inject_Z c * mu) == 1
  \/ lit_1e_12 <= Qabs (1 - lam / (inject_Z c * mu)) ->
  cache_ok cache ->
  exists r cache',
    mmckFinite c K lam mu Q0 cache = (Return r, cache')
    /\ FiniteQueueResult.Ii r
       == mean_of (fun n => inject_Z (Z.of_nat (n - Z.to_nat c)))
            (FiniteQueueResult.stateProbabilities r)
    /\ FiniteQueueResult.Ip r
       == mean_of (fun n => inject_Z (Z.of_nat (Nat.min n (Z.to_nat c))))
            (FiniteQueueResult.stateProbabilities r)
    /\ FiniteQueueResult.I r
       == mean_of (fun n => inject_Z (Z.of_nat n))
            (FiniteQueueResult.stateProbabilities r)
    /\ FiniteQueueResult.Utilization r < 1.
Proof.
  intros Hc HK Hlam Hmu Hband Hok.
  apply finite_run; try assumption. intros c' K' -> ->.
  rewrite Nat2Z.id.
  split; [| split; [| split]].
  - now apply finite_Ii_mean.
  - now apply finite_Ip_mean.
  - now apply finite_I_mean.
  - pose proof (finite_Ip_below K' Q0 Hlam Hmu Hband) as Hbelow.
    change (FiniteQueueResult.Utilization
              (mmckFinite_value (Z.of_nat (S c')) (Z.of_nat K') lam mu Q0))
      with (FiniteQueueResult.Ip
              (mmckFinite_value (Z.of_nat (S c')) (Z.of_nat K') lam mu Q0)
            / inject_Z (Z.of_nat (S c'))).
    assert (0 < inject_Z (Z.of_nat (S c'))) by (apply inject_Z_pos; lia).
    apply Qlt_shift_div_r; [assumption |]. now rewrite Qmult_1_l.
Qed.

Lemma mmckFinite_means_witness :
  (1 <= 2)%Z /\ (0 <= 3)%Z /\ 0 < 45 /\ 0 < 25
  /\ (45 / (inject_Z 2 * 25) == 1
      \/ lit_1e_12 <= Qabs (1 - 45 / (inject_Z 2 * 25)))
  /\ cache_ok (factorialCache0 (num := Q))
  /\ exists r cache',
       mmckFinite 2 3 45 25 None factorialCache0 = (Return r, cache')
       /\ FiniteQueueResult.Ii r
          == mean_of (fun n => inject_Z (Z.of_nat (n - Z.to_nat 2)))
               (FiniteQueueResult.stateProbabilities r)
       /\ FiniteQueueResult.Ip r
          == mean_of (fun n => inject_Z (Z.of_nat (Nat.min n (Z.to_nat 2))))
               (FiniteQueueResult.stateProbabilities r)
       /\ FiniteQueueResult.I r
          == mean_of (fun n => inject_Z (Z.of_nat n))
               (FiniteQueueResult.stateProbabilities r)
       /\ FiniteQueueResult.Utilization r < 1.
Proof.
  assert (Hc : (1 <= 2)%Z) by lia.
  assert (HK : (0 <= 3)%Z) by lia.
  assert (Hlam : 0 < 45) by reflexivity.
  assert (Hmu : 0 < 25) by reflexivity.
  assert (Hrho : 45 / (inject_Z 2 * 25) == 1
                 \/ lit_1e_12 <= Qabs (1 - 45 / (inject_Z 2 * 25)))
    by (right; vm_compute; discriminate).
  pose proof (cache_ok_initial (num := Q)) as Hok.
  repeat (split; [assumption |]).
  exact (@mmckFinite_means 2 3 45 25 None factorialCache0
           Hc HK Hlam Hmu Hrho Hok).
Defined.

(** X5: in exact arithmetic, under the same conditions and for a
    threshold Q >= 0, the returned P_q_gt_Q is the probability, under
    the returned distribution, that more than Q customers wait
    (n - c > Q); it is 0 when Q >= K. *)
Theorem mmckFinite_queue_tail
    (c K q : Z) (lam mu : Q) (cache : list Q) :
  (1 <= c)%Z -> (0 <= K)%Z -> (0 <= q)%Z -> 0 < lam -> 0 < mu ->
  lam / (inject_Z c * mu) == 1
  \/ lit_1e_12 <= Qabs (1 - lam / (inject_Z c * mu)) ->
  cache_ok cache ->
  exists r cache',
    mmckFinite c K lam mu (Some q) cache = (Return r, cache')
    /\ exists v,
         FiniteQueueResult.P_q_gt_Q r = Some v
         /\ v == mean_of (fun n => if (q <? Z.of_nat n - c)%Z then 1 else 0)
                   (FiniteQueueResult.stateProbabilities r)
         /\ ((K <= q)%Z -> v = 0).
Proof.
  intros Hc HK Hq Hlam Hmu Hband Hok.
  apply finite_run; try assumption. intros c' K' -> ->.
  destruct (@finite_tail c' K' lam mu (Some q) Hband q Hq) as (v & Hv & Hmean).
  exists v. split; [exact Hv |]. split; [exact Hmean |].
  intros Hfull. revert Hv.
  unfold mmckFinite_value. cbv zeta. cbn [FiniteQueueResult.P_q_gt_Q].
  destruct (Z.geb_spec q (Z.of_nat K')) as [_ | Hroom]; [| lia].
  now intros [= <-].
Qed.

Lemma mmckFinite_queue_tail_witness :
  (1 <= 2)%Z /\ (0 <= 3)%Z /\ (0 <= 1)%Z /\ 0 < 45 /\ 0 < 25
  /\ (45 / (inject_Z 2 * 25) == 1
      \/ lit_1e_12 <= Qabs (1 - 45 / (inject_Z 2 * 25)))
  /\ cache_ok (factorialCache0 (num := Q))
  /\ exists r cache',
       mmckFinite 2 3 45 25 (Some 1%Z) factorialCache0 = (Return r, cache')
       /\ exists v,
            FiniteQueueResult.P_q_gt_Q r = Some v
            /\ v == mean_of (fun n => if (1 <? Z.of_nat n - 2)%Z then 1 else 0)
                      (FiniteQueueResult.stateProbabilities r)
            /\ ((3 <= 1)%Z -> v = 0).
Proof.
  assert (Hc : (1 <= 2)%Z) by lia.
  assert (HK : (0 <= 3)%Z) by lia.
  assert (Hq : (0 <= 1)%Z) by lia.
  assert (Hlam : 0 < 45) by reflexivity.
  assert (Hmu : 0 < 25) by reflexivity.
  assert (Hrho : 45 / (inject_Z 2 * 25) == 1
                 \/ lit_1e_12 <= Qabs (1 - 45 / (inject_Z 2 * 25)))
    by (right; vm_compute; discriminate).
  pose proof (cache_ok_initial (num := Q)) as Hok.
  repeat (split; [assumption |]).
  exact (@mmckFinite_queue_tail 2 3 1 45 25 factorialCache0
           Hc HK Hq Hlam Hmu Hrho Hok).
Defined.

(** X6: in exact arithmetic, under the same conditions, the returned
    times obey Little's law at the effective arrival rate R,
    Ii = R * Ti and I = R * T, and the time in the system is the wait
    plus one mean service time, T = Ti + 1/mu. *)
Theorem mmckFinite_sojourn_times
    (c K : Z) (lam mu : Q) (Q0 : option Z) (cache : list Q) :
  (1 <= c)%Z -> (0 <= K)%Z -> 0 < lam -> 0 < mu ->
  lam / (inject_Z c * mu) == 1
  \/ lit_1e_12 <= Qabs (1 - lam / (inject_Z c * mu)) ->
  cache_ok cache ->
  exists r cache',
    mmckFinite c K lam mu Q0 cache = (Return r, cache')
    /\ FiniteQueueResult.R r * FiniteQueueResult.Ti r == FiniteQueueResult.Ii r
    /\ FiniteQueueResult.R r * FiniteQueueResult.T r == FiniteQueueResult.I r
    /\ FiniteQueueResult.T r == FiniteQueueResult.Ti r + 1 / mu.
Proof.
  intros Hc HK Hlam Hmu Hband Hok.
  apply finite_run; try assumption. intros c' K' -> ->.
  apply finite_times; try assumption. now apply geomSum_exact.
Qed.

Lemma mmckFinite_sojourn_times_witness :
  (1 <= 2)%Z /\ (0 <= 3)%Z /\ 0 < 45 /\ 0 < 25
  /\ (45 / (inject_Z 2 * 25) == 1
      \/ lit_1e_12 <= Qabs (1 - 45 / (inject_Z 2 * 25)))
  /\ cache_ok (factorialCache0 (num := Q))
  /\ exists r cache',
       mmckFinite 2 3 45 25 None factorialCache0 = (Return r, cache')
       /\ FiniteQueueResult.R r * FiniteQueueResult.Ti r
          == FiniteQueueResult.Ii r
       /\ FiniteQueueResult.R r * FiniteQueueResult.T r
          == FiniteQueueResult.I r
       /\ FiniteQueueResult.T r == FiniteQueueResult.Ti r + 1 / 25.
Proof.
  assert (Hc : (1 <= 2)%Z) by lia.
  assert (HK : (0 <= 3)%Z) by lia.
  assert (Hlam : 0 < 45) by reflexivity.
  assert (Hmu : 0 < 25) by reflexivity.
  assert (Hrho : 45 / (inject_Z 2 * 25) == 1
                 \/ lit_1e_12 <= Qabs (1 - 45 / (inject_Z 2 * 25)))
    by (right; vm_compute; discriminate).
  pose proof (cache_ok_initial (num := Q)) as Hok.
  repeat (split; [assumption |]).
  exact (@mmckFinite_sojourn_times 2 3 45 25 None factorialCache0
           Hc HK Hlam Hmu Hrho Hok).
Defined.

(** X7: in exact arithmetic, with no waiting room (K = 0) mmckFinite is
    the Erlang loss system, for every traffic intensity, the guarded
    band included: nobody waits (Ii = 0, Ti = 0), the time in the system
    is one mean service time, and the blocking probability is Erlang's B
    formula (a^c / c!) / sum_{n=0..c} a^n / n!. *)
Theorem mmckFinite_loss_system
    (c : Z) (lam mu : Q) (Q0 : option Z) (cache : list Q) :
  (1 <= c)%Z -> 0 < lam -> 0 < mu -> cache_ok cache ->
  exists r cache',
    mmckFinite c 0 lam mu Q0 cache = (Return r, cache')
    /\ FiniteQueueResult.Ii r == 0
    /\ FiniteQueueResult.Ti r == 0
    /\ FiniteQueueResult.T r == 1 / mu
    /\ FiniteQueueResult.Pb r
       * Qsum (map (fun n => pow_nat (lam / mu) n / factorial_value n)
                 (seq 0 (S (Z.to_nat c))))
       == pow_nat (lam / mu) (Z.to_nat c) / factorial_value (Z.to_nat c).
Proof.
  intros Hc Hlam Hmu Hok.
  apply finite_run; try assumption; [lia |]. intros c' K' -> HK.
  assert (K' = 0%nat) as -> by lia. clear HK.
  rewrite Nat2Z.id.
  pose proof (geomSum_exact_0 (lam / (inject_Z (Z.of_nat (S c')) * mu)))
    as Hexact.
  destruct (finite_times Q0 Hlam Hmu Hexact) as (HTi & HT & HTT).
  destruct (finite_R_bounds Q0 Hlam Hmu Hexact) as [HR _].
  assert (HIi : FiniteQueueResult.Ii
                  (mmckFinite_value (Z.of_nat (S c')) (Z.of_nat 0) lam mu Q0)
                == 0).
  { rewrite finite_Ii. change (geomWeightedSum _ (Z.of_nat 0)) with 0. ring. }
  assert (HTi0 : FiniteQueueResult.Ti
                   (mmckFinite_value (Z.of_nat (S c')) (Z.of_nat 0) lam mu Q0)
                 == 0).
  { rewrite HIi in HTi.
    set (R := FiniteQueueResult.R _) in *. set (Ti := FiniteQueueResult.Ti _) in *.
    clearbody R Ti.
    destruct (Qmult_integral _ _ HTi) as [HR0 | HTi0]; [lra | exact HTi0]. }
  split; [exact HIi |]. split; [exact HTi0 |]. split.
  - rewrite HTT, HTi0. ring.
  - rewrite finite_Pb, Nat.add_0_r.
    pose proof (Pst_high c' 0 lam mu 0) as Hat. rewrite Nat.add_0_r in Hat.
    rewrite Hat, P0_finite_unfold.
    change (Z.of_nat 0) with 0%Z. rewrite geomSum_zero.
    pose proof (normalising_sum_pos c' 0 Hlam Hmu) as Hpos. cbv zeta in Hpos.
    change (Z.of_nat 0) with 0%Z in Hpos. rewrite geomSum_zero in Hpos.
    rewrite (seq_S (S c') 0), map_app. cbn [map Nat.add].
    rewrite Qsum_snoc. cbn [pow_nat].
    rewrite sum0_value_Qsum in Hpos |- *. at_Q.
    set (s := Qsum _) in *. set (e := pow_nat (lam / mu) (S c') / _) in *.
    change (lam / mu * pow_nat (lam / mu) c' / factorial_value (S c')) with e.
    clearbody s e. field. lra.
Qed.

Lemma mmckFinite_loss_system_witness :
  (1 <= 2)%Z /\ 0 < 45 /\ 0 < 25 /\ cache_ok (factorialCache0 (num := Q))
  /\ exists r cache',
       mmckFinite 2 0 45 25 None factorialCache0 = (Return r, cache')
       /\ FiniteQueueResult.Ii r == 0
       /\ FiniteQueueResult.Ti r == 0
       /\ FiniteQueueResult.T r == 1 / 25
       /\ FiniteQueueResult.Pb r
          * Qsum (map (fun n => pow_nat (45 / 25) n / factorial_value n)
                    (seq 0 (S (Z.to_nat 2))))
          == pow_nat (45 / 25) (Z.to_nat 2) / factorial_value (Z.to_nat 2).
Proof.
  assert (Hc : (1 <= 2)%Z) by lia.
  assert (Hlam : 0 < 45) by reflexivity.
  assert (Hmu : 0 < 25) by reflexivity.
  pose proof (cache_ok_initial (num := Q)) as Hok.
  repeat (split; [assumption |]).
  exact (@mmckFinite_loss_system 2 45 25 None factorialCache0
           Hc Hlam Hmu Hok).
Defined.

End FiniteTheorems.

(** ** The infinite solver: Erlang's C formula and Little's law *)

Section InfiniteResults.
Local Open Scope Q_scope.

(** A run of [mmcInfinite] on a stable system, reduced to a property of
    the value it returns. *)
Lemma infinite_run (Pr : InfiniteQueueResult.t Q -> Prop) (c : Z) (lam mu : Q)
    (Q0 : option Z) (cache : list Q) :
  (1 <= c)%Z -> 0 < mu -> lam < inject_Z c * mu -> cache_ok cache ->
  (forall c' : nat, c = Z.of_nat (S c') ->
     Pr (mmcInfinite_value (Z.of_nat (S c')) lam mu Q0)) ->
  exists r cache', mmcInfinite c lam mu Q0 cache = (Return r, cache') /\ Pr r.
Proof.
  intros Hc Hmu Hstable Hok HPr.
  assert (Hpass : Nleb (NofZ 1) (Ndiv lam (Nmul (NofZ c) mu)) = false).
  { apply not_true_iff_false. rewrite (stability_test lam Hc Hmu).
    now apply Qlt_not_le. }
  destruct (mmcInfinite_returns lam mu Q0 Hc Hpass Hok) as (cache' & Hrun & _).
  exists (mmcInfinite_value c lam mu Q0), cache'. split; [exact Hrun |].
  specialize (HPr (Z.to_nat c - 1)%nat).
  replace (Z.of_nat (S (Z.to_nat c - 1))) with c in HPr by lia.
  now apply HPr.
Qed.

Variables (c : nat) (lam mu : Q) (Q0 : option Z).
Hypothesis Hlam : 0 < lam.
Hypothesis Hmu : 0 < mu.
Hypothesis Hstable : lam < inject_Z (Z.of_nat (S c)) * mu.

Local Abbreviation rh := (lam / (inject_Z (Z.of_nat (S c)) * mu)).
Local Abbreviation erl := (pow_nat (lam / mu) (S c) / factorial_value (S c)).
Local Abbreviation low :=
  (Qsum (map (fun n => pow_nat (lam / mu) n / factorial_value n) (seq 0 (S c)))).
Local Abbreviation res := (mmcInfinite_value (Z.of_nat (S c)) lam mu Q0).

Lemma rh_bounds : 0 < rh /\ rh < 1.
Proof.
  assert (Hc : 0 < inject_Z (Z.of_nat (S c))) by (apply inject_Z_pos; lia).
  assert (Hden : 0 < inject_Z (Z.of_nat (S c)) * mu)
    by now apply Qmult_lt_0_compat.
  split.
  - apply Qlt_shift_div_l; [exact Hden | now rewrite Qmult_0_l].
  - apply Qlt_shift_div_r; [exact Hden | now rewrite Qmult_1_l].
Qed.

Lemma low_pos : 0 < low.
Proof.
  assert (Ha : 0 < lam / mu).
  { apply Qlt_shift_div_l; [exact Hmu | now rewrite Qmult_0_l]. }
  pose proof (sum0_value_pos c Ha) as Hpos.
  rewrite sum0_value_Qsum in Hpos. lra.
Qed.

Lemma erl_pos : 0 < erl.
Proof.
  apply erlang_term_pos.
  apply Qlt_shift_div_l; [exact Hmu | now rewrite Qmult_0_l].
Qed.

(** Erlang's C formula. *)
Lemma infinite_Pw :
  InfiniteQueueResult.Pw res == erl / ((1 - rh) * low + erl).
Proof.
  destruct rh_bounds as [Hrho0 Hrho1].
  pose proof low_pos as Hlow. pose proof erl_pos as Herl.
  pose proof (factorial_value_pos (S c)) as Hfc.
  unfold mmcInfinite_value. cbv zeta. cbn [InfiniteQueueResult.Pw].
  rewrite Math_pow_of_nat, Nat2Z.id, sum0_value_Qsum. at_Q.
  change (inject_Z 1) with 1. change (inject_Z 0) with 0.
  set (r := rh) in *. set (s := low) in *.
  set (x := pow_nat (lam / mu) (S c)) in *.
  set (f := factorial_value (S c)) in *. clearbody r s x f.
  assert (Hx : 0 < x).
  { setoid_replace x with (x / f * f) by (field; lra).
    now apply Qmult_lt_0_compat. }
  assert (0 < (1 - r) * s) by (apply Qmult_lt_0_compat; lra).
  assert (0 < s * f) by now apply Qmult_lt_0_compat.
  assert (0 < (1 - r) * (s * f)) by (apply Qmult_lt_0_compat; lra).
  field. repeat split; try lra.
Qed.

Lemma infinite_Pw_bounds :
  0 < InfiniteQueueResult.Pw res /\ InfiniteQueueResult.Pw res < 1.
Proof.
  destruct rh_bounds as [Hrho0 Hrho1].
  pose proof low_pos as Hlow. pose proof erl_pos as Herl.
  rewrite infinite_Pw.
  set (r := rh) in *. set (s := low) in *. set (e := erl) in *.
  clearbody r s e.
  assert (Hidle : 0 < (1 - r) * s) by (apply Qmult_lt_0_compat; lra).
  split.
  - apply Qlt_shift_div_l; [lra | rewrite Qmult_0_l; lra].
  - apply Qlt_shift_div_r; [lra | rewrite Qmult_1_l; lra].
Qed.

Lemma infinite_Ii :
  InfiniteQueueResult.Ii res == InfiniteQueueResult.Pw res * rh / (1 - rh).
Proof.
  destruct rh_bounds as [Hrho0 Hrho1].
  pose proof (factorial_value_pos (S c)) as Hfc.
  unfold mmcInfinite_value. cbv zeta.
  cbn [InfiniteQueueResult.Pw InfiniteQueueResult.Ii].
  rewrite Math_pow_of_nat, Nat2Z.id. at_Q. change (inject_Z 1) with 1.
  set (P0 := 1 / _).
  set (r := rh) in *.
  set (x := pow_nat (lam / mu) (S c)) in *.
  set (f := factorial_value (S c)) in *. clearbody P0 r x f.
  change (Math_pow (1 - r) 2) with ((1 - r) * ((1 - r) * 1)).
  field. split; lra.
Qed.

Lemma infinite_little :
  InfiniteQueueResult.Ii res == lam * InfiniteQueueResult.Ti res
  /\ InfiniteQueueResult.I res == lam * InfiniteQueueResult.T res
  /\ InfiniteQueueResult.T res == InfiniteQueueResult.Ti res + 1 / mu
  /\ InfiniteQueueResult.I res == InfiniteQueueResult.Ii res + lam / mu.
Proof.
  change (InfiniteQueueResult.Ti res) with (InfiniteQueueResult.Ii res / lam).
  change (InfiniteQueueResult.T res)
    with (InfiniteQueueResult.Ii res / lam + 1 / mu).
  change (InfiniteQueueResult.I res)
    with (InfiniteQueueResult.Ii res + lam / mu).
  set (Lq := InfiniteQueueResult.Ii res). clearbody Lq.
  repeat split; try reflexivity; field; lra.
Qed.

End InfiniteResults.

Section InfiniteTheorems.
Local Open Scope Q_scope.

Lemma pow_nat_below_1 (r : Q) (n : nat) :
  0 < r -> r < 1 -> pow_nat r (S n) < 1.
Proof.
  intros Hr0 Hr1. induction n as [| n IH].
  - cbn [pow_nat]. at_Q. change (inject_Z 1) with 1. lra.
  - change (pow_nat r (S (S n))) with (r * pow_nat r (S n)).
    pose proof (pow_nat_pos (S n) Hr0) as Hpos.
    set (p := pow_nat r (S n)) in *. clearbody p.
    assert (0 < (1 - r) * p) by (apply Qmult_lt_0_compat; lra).
    lra.
Qed.

Lemma infinite_queue_tail (c : nat) (lam mu : Q) (q : Z) :
  0 < lam -> 0 < mu -> lam < inject_Z (Z.of_nat (S c)) * mu -> (0 <= q)%Z ->
  exists v,
    InfiniteQueueResult.P_q_gt_Q
      (mmcInfinite_value (Z.of_nat (S c)) lam mu (Some q)) = Some v
    /\ v == InfiniteQueueResult.Pw
              (mmcInfinite_value (Z.of_nat (S c)) lam mu (Some q))
            * pow_nat (lam / (inject_Z (Z.of_nat (S c)) * mu)) (Z.to_nat (q + 1)).
Proof.
  intros Hlam Hmu Hstable Hq.
  destruct (rh_bounds Hlam Hmu Hstable) as [Hrho0 Hrho1].
  pose proof (factorial_value_pos (S c)) as Hfc.
  eexists. split; [reflexivity |].
  cbn [InfiniteQueueResult.Pw mmcInfinite_value].
  replace (q + 1)%Z with (Z.of_nat (Z.to_nat (q + 1))) at 1 by lia.
  rewrite !Math_pow_of_nat, Nat2Z.id. at_Q. change (inject_Z 1) with 1.
  set (P0 := 1 / _).
  set (r := lam / _) in *.
  set (x := pow_nat (lam / mu) (S c)) in *.
  set (p := pow_nat r _).
  set (f := factorial_value (S c)) in *. clearbody P0 r x f p.
  field. split; lra.
Qed.

(** X8: for a stable system (lambda < c mu) the probability of waiting
    that mmcInfinite returns is Erlang's C formula
    (a^c/c!) / ((1 - rho) sum_{n<c} a^n/n! + a^c/c!), it lies strictly
    between 0 and 1, and the mean queue length is Pw rho / (1 - rho). *)
Theorem mmcInfinite_erlang_C
    (c : Z) (lam mu : Q) (Q0 : option Z) (cache : list Q) :
  (1 <= c)%Z -> 0 < lam -> 0 < mu -> lam < inject_Z c * mu ->
  cache_ok cache ->
  let rho := lam / (inject_Z c * mu) in
  let erl := pow_nat (lam / mu) (Z.to_nat c) / factorial_value (Z.to_nat c) in
  exists r cache',
    mmcInfinite c lam mu Q0 cache = (Return r, cache')
    /\ InfiniteQueueResult.Pw r
       == erl / ((1 - rho)
                 * Qsum (map (fun n => pow_nat (lam / mu) n / factorial_value n)
                           (seq 0 (Z.to_nat c)))
                 + erl)
    /\ 0 < InfiniteQueueResult.Pw r /\ InfiniteQueueResult.Pw r < 1
    /\ InfiniteQueueResult.Ii r == InfiniteQueueResult.Pw r * rho / (1 - rho).
Proof.
  intros Hc Hlam Hmu Hstable Hok rho erl. subst rho erl.
  apply infinite_run; try assumption. intros c' ->. rewrite Nat2Z.id.
  destruct (infinite_Pw_bounds Q0 Hlam Hmu Hstable) as [HPw0 HPw1].
  split; [now apply infinite_Pw |].
  split; [exact HPw0 |]. split; [exact HPw1 |].
  now apply infinite_Ii.
Qed.

Lemma mmcInfinite_erlang_C_witness :
  (1 <= 2)%Z /\ 0 < 45 /\ 0 < 25 /\ 45 < inject_Z 2 * 25
  /\ cache_ok (factorialCache0 (num := Q))
  /\ exists r cache',
       mmcInfinite 2 45 25 None factorialCache0 = (Return r, cache')
       /\ InfiniteQueueResult.Pw r
          == pow_nat (45 / 25) (Z.to_nat 2) / factorial_value (Z.to_nat 2)
             / ((1 - 45 / (inject_Z 2 * 25))
                * Qsum (map (fun n => pow_nat (45 / 25) n / factorial_value n)
                          (seq 0 (Z.to_nat 2)))
                + pow_nat (45 / 25) (Z.to_nat 2) / factorial_value (Z.to_nat 2))
       /\ 0 < InfiniteQueueResult.Pw r /\ InfiniteQueueResult.Pw r < 1
       /\ InfiniteQueueResult.Ii r
          == InfiniteQueueResult.Pw r * (45 / (inject_Z 2 * 25))
             / (1 - 45 / (inject_Z 2 * 25)).
Proof.
  assert (Hc : (1 <= 2)%Z) by lia.
  assert (Hlam : 0 < 45) by reflexivity.
  assert (Hmu : 0 < 25) by reflexivity.
  assert (Hstable : 45 < inject_Z 2 * 25) by reflexivity.
  pose proof (cache_ok_initial (num := Q)) as Hok.
  repeat (split; [assumption |]).
  exact (@mmcInfinite_erlang_C 2 45 25 None factorialCache0
           Hc Hlam Hmu Hstable Hok).
Defined.

(** X9: in exact arithmetic, for a stable system the values mmcInfinite
    returns obey Little's law, Ii = lambda Ti and I = lambda T; the time
    in the system is the wait plus one mean service time; and the number
    in the system is the number waiting plus the offered load
    a = lambda / mu, which is c times the utilization. *)
Theorem mmcInfinite_little_law
    (c : Z) (lam mu : Q) (Q0 : option Z) (cache : list Q) :
  (1 <= c)%Z -> 0 < lam -> 0 < mu -> lam < inject_Z c * mu ->
  cache_ok cache ->
  exists r cache',
    mmcInfinite c lam mu Q0 cache = (Return r, cache')
    /\ InfiniteQueueResult.Ii r == lam * InfiniteQueueResult.Ti r
    /\ InfiniteQueueResult.I r == lam * InfiniteQueueResult.T r
    /\ InfiniteQueueResult.T r == InfiniteQueueResult.Ti r + 1 / mu
    /\ InfiniteQueueResult.I r
       == InfiniteQueueResult.Ii r + InfiniteQueueResult.Ip r
    /\ InfiniteQueueResult.Ip r
       == inject_Z c * InfiniteQueueResult.Utilization r
    /\ 0 < InfiniteQueueResult.Ti r.
Proof.
  intros Hc Hlam Hmu Hstable Hok.
  apply infinite_run; try assumption. intros c' ->.
  destruct (infinite_little c' Q0 Hlam Hmu) as (HIi & HI & HT & HIp).
  repeat (split; [assumption |]). split.
  - cbn [InfiniteQueueResult.Ip InfiniteQueueResult.Utilization
           mmcInfinite_value].
    assert (0 < inject_Z (Z.of_nat (S c'))) by (apply inject_Z_pos; lia).
    at_Q. field. split; lra.
  - destruct (rh_bounds Hlam Hmu Hstable) as [Hrho0 Hrho1].
    destruct (infinite_Pw_bounds Q0 Hlam Hmu Hstable) as [HPw _].
    pose proof (infinite_Ii Q0 Hlam Hmu Hstable) as HLq.
    change (InfiniteQueueResult.Ti
              (mmcInfinite_value (Z.of_nat (S c')) lam mu Q0))
      with (InfiniteQueueResult.Ii
              (mmcInfinite_value (Z.of_nat (S c')) lam mu Q0) / lam).
    rewrite HLq.
    set (Pw := InfiniteQueueResult.Pw _) in *.
    set (r := lam / _) in *. clearbody Pw r.
    apply Qlt_shift_div_l; [exact Hlam |]. rewrite Qmult_0_l.
    apply Qlt_shift_div_l; [lra |]. rewrite Qmult_0_l.
    now apply Qmult_lt_0_compat.
Qed.

Lemma mmcInfinite_little_law_witness :
  (1 <= 2)%Z /\ 0 < 45 /\ 0 < 25 /\ 45 < inject_Z 2 * 25
  /\ cache_ok (factorialCache0 (num := Q))
  /\ exists r cache',
       mmcInfinite 2 45 25 None factorialCache0 = (Return r, cache')
       /\ InfiniteQueueResult.Ii r == 45 * InfiniteQueueResult.Ti r
       /\ InfiniteQueueResult.I r == 45 * InfiniteQueueResult.T r
       /\ InfiniteQueueResult.T r == InfiniteQueueResult.Ti r + 1 / 25
       /\ InfiniteQueueResult.I r
          == InfiniteQueueResult.Ii r + InfiniteQueueResult.Ip r
       /\ InfiniteQueueResult.Ip r
          == inject_Z 2 * InfiniteQueueResult.Utilization r
       /\ 0 < InfiniteQueueResult.Ti r.
Proof.
  assert (Hc : (1 <= 2)%Z) by lia.
  assert (Hlam : 0 < 45) by reflexivity.
  assert (Hmu : 0 < 25) by reflexivity.
  assert (Hstable : 45 < inject_Z 2 * 25) by reflexivity.
  pose proof (cache_ok_initial (num := Q)) as Hok.
  repeat (split; [assumption |]).
  exact (@mmcInfinite_little_law 2 45 25 None factorialCache0
           Hc Hlam Hmu Hstable Hok).
Defined.

(** X10: in exact arithmetic, for a stable system and a threshold
    Q >= 0 the returned P_q_gt_Q is Pw rho^(Q+1): the queue-length tail
    is geometric with ratio rho, positive and strictly below Pw.
    Without a threshold the field is absent. *)
Theorem mmcInfinite_queue_tail
    (c q : Z) (lam mu : Q) (cache : list Q) :
  (1 <= c)%Z -> (0 <= q)%Z -> 0 < lam -> 0 < mu -> lam < inject_Z c * mu ->
  cache_ok cache ->
  (exists r cache' v,
     mmcInfinite c lam mu (Some q) cache = (Return r, cache')
     /\ InfiniteQueueResult.P_q_gt_Q r = Some v
     /\ v == InfiniteQueueResult.Pw r
             * pow_nat (lam / (inject_Z c * mu)) (Z.to_nat (q + 1))
     /\ 0 < v /\ v < InfiniteQueueResult.Pw r)
  /\ (exists r cache',
        mmcInfinite c lam mu None cache = (Return r, cache')
        /\ InfiniteQueueResult.P_q_gt_Q r = None).
Proof.
  intros Hc Hq Hlam Hmu Hstable Hok. split.
  - enough (Hrun : exists r cache',
              mmcInfinite c lam mu (Some q) cache = (Return r, cache')
              /\ exists v,
                   InfiniteQueueResult.P_q_gt_Q r = Some v
                   /\ v == InfiniteQueueResult.Pw r
                           * pow_nat (lam / (inject_Z c * mu))
                               (Z.to_nat (q + 1))
                   /\ 0 < v /\ v < InfiniteQueueResult.Pw r).
    { destruct Hrun as (r & cache' & Hrun & v & Hv).
      now exists r, cache', v. }
    apply infinite_run; try assumption. intros c' ->.
    destruct (infinite_queue_tail Hlam Hmu Hstable Hq) as (v & Hv & Heq).
    exists v. split; [exact Hv |]. split; [exact Heq |].
    destruct (rh_bounds Hlam Hmu Hstable) as [Hrho0 Hrho1].
    destruct (infinite_Pw_bounds (Some q) Hlam Hmu Hstable) as [HPw _].
    replace (Z.to_nat (q + 1)) with (S (Z.to_nat q)) in * by lia.
    pose proof (pow_nat_pos (S (Z.to_nat q)) Hrho0) as Hp0.
    pose proof (pow_nat_below_1 (Z.to_nat q) Hrho0 Hrho1) as Hp1.
    rewrite Heq.
    set (Pw := InfiniteQueueResult.Pw _) in *.
    set (p := pow_nat _ _) in *. clearbody Pw p.
    assert (0 < Pw * p) by now apply Qmult_lt_0_compat.
    assert (0 < Pw * (1 - p)) by (apply Qmult_lt_0_compat; lra).
    split; lra.
  - apply infinite_run; try assumption. intros c' ->. reflexivity.
Qed.

Lemma mmcInfinite_queue_tail_witness :
  (1 <= 2)%Z /\ (0 <= 3)%Z /\ 0 < 45 /\ 0 < 25 /\ 45 < inject_Z 2 * 25
  /\ cache_ok (factorialCache0 (num := Q))
  /\ (exists r cache' v,
        mmcInfinite 2 45 25 (Some 3%Z) factorialCache0 = (Return r, cache')
        /\ InfiniteQueueResult.P_q_gt_Q r = Some v
        /\ v == InfiniteQueueResult.Pw r
                * pow_nat (45 / (inject_Z 2 * 25)) (Z.to_nat (3 + 1))
        /\ 0 < v /\ v < InfiniteQueueResult.Pw r)
  /\ (exists r cache',
        mmcInfinite 2 45 25 None factorialCache0 = (Return r, cache')
        /\ InfiniteQueueResult.P_q_gt_Q r = None).
Proof.
  assert (Hc : (1 <= 2)%Z) by lia.
  assert (Hq : (0 <= 3)%Z) by lia.
  assert (Hlam : 0 < 45) by reflexivity.
  assert (Hmu : 0 < 25) by reflexivity.
  assert (Hstable : 45 < inject_Z 2 * 25) by reflexivity.
  pose proof (cache_ok_initial (num := Q)) as Hok.
  repeat (split; [assumption |]).
  exact (@mmcInfinite_queue_tail 2 3 45 25 factorialCache0
           Hc Hq Hlam Hmu Hstable Hok).
Defined.

(** X11: in exact arithmetic, with a single server mmcInfinite gives the
    M/M/1 formulas: Pw = rho = lambda / mu, Ii = rho^2 / (1 - rho),
    I = rho / (1 - rho), Ti = rho / (mu - lambda) and
    T = 1 / (mu - lambda). *)
Theorem mmcInfinite_single_server
    (lam mu : Q) (Q0 : option Z) (cache : list Q) :
  0 < lam -> lam < mu -> cache_ok cache ->
  exists r cache',
    mmcInfinite 1 lam mu Q0 cache = (Return r, cache')
    /\ InfiniteQueueResult.Pw r == lam / mu
    /\ InfiniteQueueResult.Ii r == (lam / mu) * (lam / mu) / (1 - lam / mu)
    /\ InfiniteQueueResult.I r == (lam / mu) / (1 - lam / mu)
    /\ InfiniteQueueResult.Ti r == (lam / mu) / (mu - lam)
    /\ InfiniteQueueResult.T r == 1 / (mu - lam).
Proof.
  intros Hlam Hstable Hok.
  assert (Hmu : 0 < mu) by lra.
  apply infinite_run; try assumption; [lia | change (inject_Z 1) with 1; lra |].
  intros c' Hc'. assert (c' = 0%nat) as -> by lia. clear Hc'.
  assert (Hstable' : lam < inject_Z (Z.of_nat 1) * mu)
    by (change (inject_Z (Z.of_nat 1)) with 1; lra).
  pose proof (infinite_Pw Q0 Hlam Hmu Hstable') as HPw.
  pose proof (infinite_Ii Q0 Hlam Hmu Hstable') as HIi.
  destruct (infinite_little 0 Q0 Hlam Hmu) as (HL1 & HL2 & HT & HI).
  cbn [seq map pow_nat] in HPw. rewrite !Qsum_cons in HPw.
  change (Qsum []) with 0 in HPw.
  change (factorial_value (num := Q) 0) with 1 in HPw.
  change (factorial_value (num := Q) 1) with 1 in HPw.
  change (inject_Z (Z.of_nat 1)) with 1 in *.
  at_Q. change (inject_Z 1) with 1 in *.
  assert (HPw' : InfiniteQueueResult.Pw (mmcInfinite_value 1 lam mu Q0)
                 == lam / mu).
  { change (Z.of_nat 1) with 1%Z in *. rewrite HPw.
    field. lra. }
  assert (HIi' : InfiniteQueueResult.Ii (mmcInfinite_value 1 lam mu Q0)
                 == lam / mu * (lam / mu) / (1 - lam / mu)).
  { rewrite HIi, HPw'. field. repeat split; lra. }
  assert (HTi' : InfiniteQueueResult.Ti (mmcInfinite_value 1 lam mu Q0)
                 == lam / mu / (mu - lam)).
  { assert (Hdiv : InfiniteQueueResult.Ti (mmcInfinite_value 1 lam mu Q0)
                   == InfiniteQueueResult.Ii (mmcInfinite_value 1 lam mu Q0)
                      / lam) by reflexivity.
    rewrite Hdiv, HIi'. field. repeat split; lra. }
  split; [exact HPw' |]. split; [exact HIi' |]. split; [| split].
  - rewrite HI, HIi'. field. repeat split; lra.
  - exact HTi'.
  - rewrite HT, HTi'. field. repeat split; lra.
Qed.

Lemma mmcInfinite_single_server_witness :
  0 < 30 /\ 30 < 60 /\ cache_ok (factorialCache0 (num := Q))
  /\ exists r cache',
       mmcInfinite 1 30 60 None factorialCache0 = (Return r, cache')
       /\ InfiniteQueueResult.Pw r == 30 / 60
       /\ InfiniteQueueResult.Ii r == (30 / 60) * (30 / 60) / (1 - 30 / 60)
       /\ InfiniteQueueResult.I r == (30 / 60) / (1 - 30 / 60)
       /\ InfiniteQueueResult.Ti r == (30 / 60) / (60 - 30)
       /\ InfiniteQueueResult.T r == 1 / (60 - 30).
Proof.
  assert (Hlam : 0 < 30) by reflexivity.
  assert (Hstable : 30 < 60) by reflexivity.
  pose proof (cache_ok_initial (num := Q)) as Hok.
  repeat (split; [assumption |]).
  exact (@mmcInfinite_single_server 30 60 None factorialCache0
           Hlam Hstable Hok).
Defined.

End InfiniteTheorems.

(** ** The wait-time tail of the infinite solver *)

Section WaitTailFacts.
Local Open Scope Q_scope.

(** What is used of [Math.exp]: on arguments [<= 0] it lies in (0, 1],
    and it is 1 at 0. *)
Variable Math_exp : Q -> Q.
Hypothesis Math_exp_range :
  forall x, x <= 0 -> 0 < Math_exp x /\ Math_exp x <= 1.
Hypothesis Math_exp_zero : forall x, x == 0 -> Math_exp x == 1.

(** X12: in exact arithmetic, for a stable system, the optional
    argument t adds P_wait_gt_t and changes nothing else: the record and
    the cache are those of the call without t.  The field is absent when
    t is undefined or negative; for t >= 0 it is
    Pw * exp(-(c mu - lambda) t), positive and at most Pw, and equal to
    Pw at t = 0. *)
Theorem mmcInfinite_wait_tail
    (c : Z) (lam mu : Q) (Q0 : option Z) (t : option Q) (cache : list Q) :
  (1 <= c)%Z -> 0 < lam -> 0 < mu -> lam < inject_Z c * mu ->
  cache_ok cache ->
  exists r tail cache',
    mmcInfinite_t Math_exp c lam mu Q0 t cache = (Return (r, tail), cache')
    /\ mmcInfinite c lam mu Q0 cache = (Return r, cache')
    /\ match t with
       | None => tail = None
       | Some t =>
           (t < 0 -> tail = None)
           /\ (0 <= t ->
               exists v,
                 tail = Some v
                 /\ v = InfiniteQueueResult.Pw r
                        * Math_exp (- (inject_Z c * mu - lam) * t)
                 /\ 0 < v /\ v <= InfiniteQueueResult.Pw r
                 /\ (t == 0 -> v == InfiniteQueueResult.Pw r))
       end.
Proof.
  intros Hc Hlam Hmu Hstable Hok.
  destruct (@infinite_run (fun r => 0 < InfiniteQueueResult.Pw r)
              c lam mu Q0 cache Hc Hmu Hstable Hok)
    as (r & cache' & Hrun & HPw).
  { intros c' ->. now apply infinite_Pw_bounds. }
  exists r, (P_wait_gt_t Math_exp c lam mu (InfiniteQueueResult.Pw r) t), cache'.
  split; [| split].
  - unfold mmcInfinite_t, bind. now rewrite Hrun.
  - exact Hrun.
  - destruct t as [t |]; [| reflexivity]. unfold P_wait_gt_t. at_Q.
    change (inject_Z 0) with 0. split.
    + intros Hneg. destruct (Qle_bool 0 t) eqn:Htest; [| reflexivity].
      apply Qle_bool_iff in Htest. lra.
    + intros Hpos. apply Qle_bool_iff in Hpos. rewrite Hpos.
      apply Qle_bool_iff in Hpos. cbv zeta.
      eexists. split; [reflexivity |]. split; [reflexivity |].
      assert (Harg : - (inject_Z c * mu - lam) * t <= 0).
      { assert (0 <= (inject_Z c * mu - lam) * t)
          by (apply Qmult_le_0_compat; lra).
        lra. }
      destruct (Math_exp_range Harg) as [He0 He1].
      set (e := Math_exp _) in *. set (Pw := InfiniteQueueResult.Pw r) in *.
      assert (0 < Pw * e) by now apply Qmult_lt_0_compat.
      assert (0 <= Pw * (1 - e)) by (apply Qmult_le_0_compat; lra).
      split; [assumption |]. split; [lra |].
      intros Hzero. unfold e. rewrite Math_exp_zero.
      * ring.
      * rewrite Hzero. ring.
Qed.

End WaitTailFacts.

Lemma mmcInfinite_wait_tail_witness :
  let exp := fun x : Q => (1 / (1 - x))%Q in
  (forall x, x <= 0 -> 0 < exp x /\ exp x <= 1)%Q
  /\ (forall x, x == 0 -> exp x == 1)%Q
  /\ (1 <= 2)%Z /\ (0 < 45)%Q /\ (0 < 25)%Q /\ (45 < inject_Z 2 * 25)%Q
  /\ cache_ok (factorialCache0 (num := Q))
  /\ exists r tail cache',
       mmcInfinite_t exp 2 45 25 None (Some (1 # 10)) factorialCache0
       = (Return (r, tail), cache')
       /\ mmcInfinite 2 45 25 None factorialCache0 = (Return r, cache')
       /\ ((1 # 10 < 0)%Q -> tail = None)
       /\ ((0 <= 1 # 10)%Q ->
           exists v,
             tail = Some v
             /\ v = (InfiniteQueueResult.Pw r
                     * exp (- (inject_Z 2 * 25 - 45) * (1 # 10)))%Q
             /\ (0 < v)%Q /\ (v <= InfiniteQueueResult.Pw r)%Q
             /\ ((1 # 10 == 0)%Q -> (v == InfiniteQueueResult.Pw r)%Q)).
Proof.
  intros exp.
  assert (Hrange : (forall x, x <= 0 -> 0 < exp x /\ exp x <= 1)%Q).
  { intros x Hx. unfold exp. split.
    - apply Qlt_shift_div_l; lra.
    - apply Qle_shift_div_r; lra. }
  assert (Hzero : (forall x, x == 0 -> exp x == 1)%Q).
  { intros x Hx. unfold exp. rewrite Hx. reflexivity. }
  assert (Hc : (1 <= 2)%Z) by lia.
  assert (Hlam : (0 < 45)%Q) by reflexivity.
  assert (Hmu : (0 < 25)%Q) by reflexivity.
  assert (Hstable : (45 < inject_Z 2 * 25)%Q) by reflexivity.
  pose proof (cache_ok_initial (num := Q)) as Hok.
  repeat (split; [assumption |]).
  exact (@mmcInfinite_wait_tail exp Hrange Hzero 2 45 25 None
           (Some (1 # 10)%Q) factorialCache0 Hc Hlam Hmu Hstable Hok).
Defined.

(** ** The priority solver: waits by class *)

Section PriorityWaits.
Local Open Scope Q_scope.

(** A run of [mmcPriority] on a stable system, reduced to a property of
    the value it returns. *)
Lemma priority_run (Pr : PriorityQueueResult Q -> Prop) (c : Z) (lam mu : Q)
    (classFractions : list Q) (cache : list Q) :
  (1 <= c)%Z -> 0 < mu -> lam < inject_Z c * mu -> cache_ok cache ->
  (forall c' : nat, c = Z.of_nat (S c') ->
     Pr (mmcPriority_value (Z.of_nat (S c')) lam mu classFractions)) ->
  exists r cache',
    mmcPriority c lam mu classFractions cache = (Return r, cache') /\ Pr r.
Proof.
  intros Hc Hmu Hstable Hok HPr.
  assert (Hpass : Nleb (NofZ 1) (Ndiv lam (Nmul (NofZ c) mu)) = false).
  { apply not_true_iff_false. rewrite (stability_test lam Hc Hmu).
    now apply Qlt_not_le. }
  destruct (mmcPriority_returns lam mu classFractions Hc Hpass Hok)
    as (cache' & Hrun & _).
  exists (mmcPriority_value c lam mu classFractions), cache'.
  split; [exact Hrun |].
  specialize (HPr (Z.to_nat c - 1)%nat).
  replace (Z.of_nat (S (Z.to_nat c - 1))) with c in HPr by lia.
  now apply HPr.
Qed.

(** The running value after [n] classes is 1 minus [rho] times their
    cumulative fraction. *)
Lemma F_after_sum (rho : Q) (fs : list Q) (n : nat) :
  (n <= length fs)%nat ->
  F_after rho fs n == 1 - rho * Qsum (firstn n fs).
Proof.
  induction n as [| n IH]; intros Hn.
  - cbn [F_after firstn]. change (Qsum []) with 0. at_Q.
    change (inject_Z 1) with 1. ring.
  - cbn [F_after]. at_Q. rewrite IH by lia.
    rewrite <- (firstn_skipn n fs) at 3.
    rewrite firstn_app, firstn_firstn, Nat.min_r by lia.
    rewrite length_firstn, Nat.min_l by lia.
    replace (S n - n)%nat with 1%nat by lia.
    rewrite Qsum_app.
    rewrite <- (firstn_skipn n fs) at 2.
    rewrite app_nth2; rewrite length_firstn, Nat.min_l by lia; [| lia].
    rewrite Nat.sub_diag.
    destruct (skipn n fs) as [| f rest] eqn:Hskip.
    + apply (f_equal (@length Q)) in Hskip. rewrite length_skipn in Hskip.
      cbn in Hskip. lia.
    + cbn [nth firstn]. rewrite Qsum_cons. change (Qsum []) with 0. ring.
Qed.

Lemma firstn_In {A : Type} (l : list A) (n : nat) (x : A) :
  In x (firstn n l) -> In x l.
Proof.
  intros Hx. rewrite <- (firstn_skipn n l). apply in_or_app. now left.
Qed.

Lemma Qsum_firstn_le (fs : list Q) (n m : nat) :
  Forall (fun f => 0 <= f) fs -> (n <= m)%nat ->
  Qsum (firstn n fs) <= Qsum (firstn m fs).
Proof.
  intros Hfs. revert n m. induction Hfs as [| f fs Hf Hfs IH]; intros n m Hnm.
  - rewrite !firstn_nil. apply Qle_refl.
  - destruct n as [| n].
    + cbn [firstn]. change (Qsum []) with 0. apply Qsum_nonneg.
      intros y Hy. apply firstn_In in Hy.
      destruct Hy as [<- | Hy]; [exact Hf |].
      exact (proj1 (Forall_forall _ _) Hfs y Hy).
    + destruct m as [| m]; [lia |]. cbn [firstn]. rewrite !Qsum_cons.
      specialize (IH n m ltac:(lia)). lra.
Qed.

Lemma Qsum_firstn_all (fs : list Q) (n : nat) :
  Forall (fun f => 0 <= f) fs -> Qsum (firstn n fs) <= Qsum fs.
Proof.
  intros Hfs. rewrite <- (firstn_all fs) at 2.
  destruct (Nat.le_ge_cases n (length fs)) as [Hle | Hge].
  - now apply Qsum_firstn_le.
  - rewrite (firstn_all2 fs Hge), firstn_all. apply Qle_refl.
Qed.

Lemma Qsum_firstn_S (fs : list Q) (k : nat) (f : Q) :
  nth_error fs k = Some f ->
  Qsum (firstn (S k) fs) == Qsum (firstn k fs) + f.
Proof.
  revert k. induction fs as [| g fs IH]; intros k Hk.
  - destruct k; discriminate.
  - destruct k as [| k].
    + cbn in Hk. injection Hk as ->. cbn [firstn]. rewrite Qsum_cons.
      change (Qsum []) with 0. ring.
    + cbn [nth_error] in Hk. change (firstn (S (S k)) (g :: fs))
        with (g :: firstn (S k) fs).
      change (firstn (S k) (g :: fs)) with (g :: firstn k fs).
      rewrite !Qsum_cons, (IH k Hk). ring.
Qed.

Variables (c : nat) (lam mu : Q) (fs : list Q).
Hypothesis Hlam : 0 < lam.
Hypothesis Hmu : 0 < mu.
Hypothesis Hstable : lam < inject_Z (Z.of_nat (S c)) * mu.
Hypothesis Hfs : Forall (fun f => 0 <= f) fs.
Hypothesis Hsum : sumList fs <= 1.

Local Abbreviation rh := (lam / (inject_Z (Z.of_nat (S c)) * mu)).
Local Abbreviation Lq :=
  (InfiniteQueueResult.Ii (mmcInfinite_value (Z.of_nat (S c)) lam mu None)).

Lemma Lq_pos : 0 < Lq.
Proof.
  destruct (rh_bounds Hlam Hmu Hstable) as [Hrho0 Hrho1].
  destruct (infinite_Pw_bounds None Hlam Hmu Hstable) as [HPw _].
  rewrite (infinite_Ii None Hlam Hmu Hstable).
  set (Pw := InfiniteQueueResult.Pw _) in *. set (r := rh) in *.
  clearbody Pw r.
  apply Qlt_shift_div_l; [lra |]. rewrite Qmult_0_l.
  now apply Qmult_lt_0_compat.
Qed.

Lemma F_after_pos (n : nat) : (n <= length fs)%nat -> 0 < F_after rh fs n.
Proof.
  intros Hn. destruct (rh_bounds Hlam Hmu Hstable) as [Hrho0 Hrho1].
  rewrite (F_after_sum _ _ Hn).
  rewrite sumList_Qsum in Hsum.
  pose proof (Qsum_firstn_all n Hfs) as Hle.
  assert (Hge : 0 <= Qsum (firstn n fs)).
  { apply Qsum_nonneg. intros y Hy. apply firstn_In in Hy.
    exact (proj1 (Forall_forall _ _) Hfs y Hy). }
  apply stable_denominator; lra.
Qed.

Lemma F_after_mono (n m : nat) :
  (n <= m)%nat -> (m <= length fs)%nat -> F_after rh fs m <= F_after rh fs n.
Proof.
  intros Hnm Hm. destruct (rh_bounds Hlam Hmu Hstable) as [Hrho0 Hrho1].
  rewrite !F_after_sum by lia.
  pose proof (Qsum_firstn_le Hfs Hnm) as Hle.
  assert (rh * Qsum (firstn n fs) <= rh * Qsum (firstn m fs))
    by (apply Qmult_le_l; assumption).
  lra.
Qed.

Lemma F_after_step (k : nat) (f : Q) :
  nth_error fs k = Some f ->
  F_after rh fs (S k) == F_after rh fs k - f * rh.
Proof.
  intros Hk. cbn [F_after]. at_Q.
  now rewrite (nth_error_nth _ _ _ Hk).
Qed.

(** The entry of a class that carries traffic. *)
Lemma class_wait (k : nat) (f : Q) :
  nth_error fs k = Some f -> 0 < f ->
  let e := class_entry Lq rh lam k f (F_after rh fs k) (F_after rh fs (S k)) in
  Ti_k e == Lq * (1 - rh) / lam / (F_after rh fs (S k) * F_after rh fs k)
  /\ Ii_k e == f * lam * Ti_k e.
Proof.
  intros Hk Hf e.
  assert (Hlen : (k < length fs)%nat) by (apply nth_error_Some; congruence).
  pose proof (@F_after_pos k ltac:(lia)) as HFk.
  pose proof (@F_after_pos (S k) ltac:(lia)) as HFSk.
  assert (HF0 : k = 0%nat -> F_after rh fs k == 1).
  { intros ->. reflexivity. }
  subst e. unfold class_entry. cbv zeta. cbn [Ti_k Ii_k]. at_Q.
  change (inject_Z 0) with 0. change (inject_Z 1) with 1.
  assert (Htest : negb (Qle_bool f 0) = true).
  { apply (Q_ltb_true 0 f). exact Hf. }
  rewrite Htest.
  set (Fk := F_after rh fs k) in *. set (FSk := F_after rh fs (S k)) in *.
  set (r := rh) in *. set (L := Lq) in *. clearbody Fk FSk r L.
  destruct k as [| k]; cbn [Nat.eqb].
  - rewrite (HF0 eq_refl). split; field; repeat split; lra.
  - split; field; repeat split; lra.
Qed.

End PriorityWaits.

Section PriorityTheorems.
Local Open Scope Q_scope.

(** X13: in exact arithmetic, for a stable system and non-negative class
    fractions that sum to at most 1, every class that carries traffic
    has a positive wait and obeys Little's law at its own arrival rate,
    Ii_k = (f_k lambda) Ti_k; a class with fraction 0 has queue length 0
    and wait 0. *)
Theorem mmcPriority_class_little_law
    (c : Z) (lam mu : Q) (classFractions : list Q) (cache : list Q) :
  (1 <= c)%Z -> 0 < lam -> 0 < mu -> lam < inject_Z c * mu ->
  Forall (fun f => 0 <= f) classFractions ->
  sumList classFractions <= 1 ->
  cache_ok cache ->
  exists r cache',
    mmcPriority c lam mu classFractions cache = (Return r, cache')
    /\ forall k f,
         nth_error classFractions k = Some f ->
         exists e,
           nth_error (classes r) k = Some e
           /\ (0 < f -> 0 < Ti_k e /\ Ii_k e == f * lam * Ti_k e)
           /\ (f == 0 -> Ii_k e == 0 /\ Ti_k e = 0).
Proof.
  intros Hc Hlam Hmu Hstable Hfs Hsum Hok.
  apply priority_run; try assumption. intros c' ->.
  intros k f Hk. eexists. split.
  { unfold mmcPriority_value. cbv zeta. cbn [classes].
    apply classes_entry_at. exact Hk. }
  at_Q. split.
  - intros Hf.
    destruct (class_wait Hlam Hmu Hstable Hfs Hsum k Hk Hf) as [HTi HIi].
    cbv zeta in HTi, HIi. split; [| exact HIi].
    rewrite HTi.
    assert (Hlen : (k < length classFractions)%nat)
      by (apply nth_error_Some; congruence).
    pose proof (@F_after_pos c' lam mu classFractions Hlam Hmu Hstable Hfs Hsum
                  k ltac:(lia)) as HFk.
    pose proof (@F_after_pos c' lam mu classFractions Hlam Hmu Hstable Hfs Hsum
                  (S k) ltac:(lia)) as HFSk.
    pose proof (Lq_pos Hlam Hmu Hstable) as HLq.
    destruct (rh_bounds Hlam Hmu Hstable) as [Hrho0 Hrho1].
    set (Fk := F_after _ _ k) in *. set (FSk := F_after _ _ (S k)) in *.
    set (L := InfiniteQueueResult.Ii _) in *. set (r := lam / _) in *.
    clearbody Fk FSk L r.
    apply Qlt_shift_div_l; [now apply Qmult_lt_0_compat |]. rewrite Qmult_0_l.
    apply Qlt_shift_div_l; [exact Hlam |]. rewrite Qmult_0_l.
    apply Qmult_lt_0_compat; lra.
  - intros Hf. unfold class_entry. cbv zeta. cbn [Ii_k Ti_k]. at_Q.
    assert (Htest : negb (Qle_bool f (inject_Z 0)) = false).
    { apply (Q_ltb_false (inject_Z 0) f). change (inject_Z 0) with 0.
      rewrite Hf. apply Qle_refl. }
    rewrite Htest. split; [| reflexivity].
    destruct (k =? 0)%nat; rewrite Hf; unfold Qdiv; ring.
Qed.

Lemma mmcPriority_class_little_law_witness :
  (1 <= 2)%Z /\ 0 < 45 /\ 0 < 24 /\ 45 < inject_Z 2 * 24
  /\ Forall (fun f => 0 <= f) [1 # 5; 4 # 5; 0; 0]
  /\ sumList [1 # 5; 4 # 5; 0; 0] <= 1
  /\ cache_ok (factorialCache0 (num := Q))
  /\ exists r cache',
       mmcPriority 2 45 24 [1 # 5; 4 # 5; 0; 0] factorialCache0
       = (Return r, cache')
       /\ forall k f,
            nth_error [1 # 5; 4 # 5; 0; 0] k = Some f ->
            exists e,
              nth_error (classes r) k = Some e
              /\ (0 < f -> 0 < Ti_k e /\ Ii_k e == f * 45 * Ti_k e)
              /\ (f == 0 -> Ii_k e == 0 /\ Ti_k e = 0).
Proof.
  assert (Hc : (1 <= 2)%Z) by lia.
  assert (Hlam : 0 < 45) by reflexivity.
  assert (Hmu : 0 < 24) by reflexivity.
  assert (Hstable : 45 < inject_Z 2 * 24) by reflexivity.
  assert (Hfs : Forall (fun f => 0 <= f) [1 # 5; 4 # 5; 0; 0])
    by (repeat constructor; discriminate).
  assert (Hsum : sumList [1 # 5; 4 # 5; 0; 0] <= 1) by (vm_compute; discriminate).
  pose proof (cache_ok_initial (num := Q)) as Hok.
  repeat (split; [assumption |]).
  exact (@mmcPriority_class_little_law 2 45 24 [1 # 5; 4 # 5; 0; 0]
           factorialCache0 Hc Hlam Hmu Hstable Hfs Hsum Hok).
Defined.

(** X14: in exact arithmetic, under the same conditions, priority pays:
    of two classes that both carry traffic, the one with the lower index
    (the higher priority) has the strictly shorter wait. *)
Theorem mmcPriority_priority_order
    (c : Z) (lam mu : Q) (classFractions : list Q) (cache : list Q) :
  (1 <= c)%Z -> 0 < lam -> 0 < mu -> lam < inject_Z c * mu ->
  Forall (fun f => 0 <= f) classFractions ->
  sumList classFractions <= 1 ->
  cache_ok cache ->
  exists r cache',
    mmcPriority c lam mu classFractions cache = (Return r, cache')
    /\ forall j k fj fk,
         (j < k)%nat ->
         nth_error classFractions j = Some fj -> 0 < fj ->
         nth_error classFractions k = Some fk -> 0 < fk ->
         exists ej ek,
           nth_error (classes r) j = Some ej
           /\ nth_error (classes r) k = Some ek
           /\ Ti_k ej < Ti_k ek.
Proof.
  intros Hc Hlam Hmu Hstable Hfs Hsum Hok.
  apply priority_run; try assumption. intros c' ->.
  intros j k fj fk Hjk Hj Hfj Hk Hfk. eexists. eexists. split; [| split].
  { unfold mmcPriority_value. cbv zeta. cbn [classes].
    apply classes_entry_at. exact Hj. }
  { unfold mmcPriority_value. cbv zeta. cbn [classes].
    apply classes_entry_at. exact Hk. }
  at_Q.
  destruct (class_wait Hlam Hmu Hstable Hfs Hsum j Hj Hfj) as [HTj _].
  destruct (class_wait Hlam Hmu Hstable Hfs Hsum k Hk Hfk) as [HTk _].
  cbv zeta in HTj, HTk. rewrite HTj, HTk.
  assert (Hlen : (k < length classFractions)%nat)
    by (apply nth_error_Some; congruence).
  pose proof (@F_after_pos c' lam mu classFractions Hlam Hmu Hstable Hfs Hsum)
    as Hpos.
  pose proof (Hpos j ltac:(lia)) as HFj.
  pose proof (Hpos (S j) ltac:(lia)) as HFSj.
  pose proof (Hpos k ltac:(lia)) as HFk.
  pose proof (Hpos (S k) ltac:(lia)) as HFSk.
  pose proof (@F_after_mono c' lam mu classFractions Hlam Hmu Hstable Hfs)
    as Hmono.
  pose proof (Hmono j k ltac:(lia) ltac:(lia)) as Hjk_le.
  pose proof (Hmono (S j) k ltac:(lia) ltac:(lia)) as HSjk_le.
  pose proof (@F_after_step c' lam mu classFractions k fk Hk) as Hstep.
  pose proof (Lq_pos Hlam Hmu Hstable) as HLq.
  destruct (rh_bounds Hlam Hmu Hstable) as [Hrho0 Hrho1].
  assert (Hdrop : 0 < fk * (lam / (inject_Z (Z.of_nat (S c')) * mu)))
    by now apply Qmult_lt_0_compat.
  set (Fj := F_after _ _ j) in *. set (FSj := F_after _ _ (S j)) in *.
  set (Fk := F_after _ _ k) in *. set (FSk := F_after _ _ (S k)) in *.
  set (L := InfiniteQueueResult.Ii _) in *. set (r := lam / _) in *.
  clearbody Fj FSj Fk FSk L r.
  assert (HC : 0 < L * (1 - r) / lam).
  { apply Qlt_shift_div_l; [exact Hlam |]. rewrite Qmult_0_l.
    apply Qmult_lt_0_compat; lra. }
  set (C := L * (1 - r) / lam) in *. clearbody C.
  assert (H1 : 0 <= FSj * (Fj - Fk)) by (apply Qmult_le_0_compat; lra).
  assert (H2 : 0 < Fk * (FSj - FSk)) by (apply Qmult_lt_0_compat; lra).
  assert (Ha : 0 < FSj * Fj) by now apply Qmult_lt_0_compat.
  assert (Hb : 0 < FSk * Fk) by now apply Qmult_lt_0_compat.
  assert (Hab : FSk * Fk < FSj * Fj) by lra.
  set (a := FSj * Fj) in *. set (b := FSk * Fk) in *. clearbody a b.
  assert (Hdiff : C / b - C / a == C * (a - b) / (a * b))
    by (field; split; lra).
  assert (0 < C * (a - b) / (a * b)).
  { apply Qlt_shift_div_l; [now apply Qmult_lt_0_compat |]. rewrite Qmult_0_l.
    apply Qmult_lt_0_compat; lra. }
  lra.
Qed.

Lemma mmcPriority_priority_order_witness :
  (1 <= 2)%Z /\ 0 < 45 /\ 0 < 24 /\ 45 < inject_Z 2 * 24
  /\ Forall (fun f => 0 <= f) [1 # 5; 4 # 5; 0; 0]
  /\ sumList [1 # 5; 4 # 5; 0; 0] <= 1
  /\ cache_ok (factorialCache0 (num := Q))
  /\ exists r cache',
       mmcPriority 2 45 24 [1 # 5; 4 # 5; 0; 0] factorialCache0
       = (Return r, cache')
       /\ forall j k fj fk,
            (j < k)%nat ->
            nth_error [1 # 5; 4 # 5; 0; 0] j = Some fj -> 0 < fj ->
            nth_error [1 # 5; 4 # 5; 0; 0] k = Some fk -> 0 < fk ->
            exists ej ek,
              nth_error (classes r) j = Some ej
              /\ nth_error (classes r) k = Some ek
              /\ Ti_k ej < Ti_k ek.
Proof.
  assert (Hc : (1 <= 2)%Z) by lia.
  assert (Hlam : 0 < 45) by reflexivity.
  assert (Hmu : 0 < 24) by reflexivity.
  assert (Hstable : 45 < inject_Z 2 * 24) by reflexivity.
  assert (Hfs : Forall (fun f => 0 <= f) [1 # 5; 4 # 5; 0; 0])
    by (repeat constructor; discriminate).
  assert (Hsum : sumList [1 # 5; 4 # 5; 0; 0] <= 1) by (vm_compute; discriminate).
  pose proof (cache_ok_initial (num := Q)) as Hok.
  repeat (split; [assumption |]).
  exact (@mmcPriority_priority_order 2 45 24 [1 # 5; 4 # 5; 0; 0]
           factorialCache0 Hc Hlam Hmu Hstable Hfs Hsum Hok).
Defined.

(** X15: in exact arithmetic, for a stable system, with a single class
    that carries all the traffic the priority solver reproduces the
    M/M/c solver: the class has the whole queue, Ii_0 = Ii_total, and
    the first-come-first-served wait Ti_0 = Ii_total / lambda, which is
    the Ti of mmcInfinite. *)
Theorem mmcPriority_single_class
    (c : Z) (lam mu : Q) (cache : list Q) :
  (1 <= c)%Z -> 0 < lam -> 0 < mu -> lam < inject_Z c * mu ->
  cache_ok cache ->
  exists r cache' e overall cache'',
    mmcPriority c lam mu [1] cache = (Return r, cache')
    /\ classes r = [e]
    /\ mmcInfinite c lam mu None cache = (Return overall, cache'')
    /\ Ii_total r = InfiniteQueueResult.Ii overall
    /\ Ii_k e == InfiniteQueueResult.Ii overall
    /\ Ti_k e == InfiniteQueueResult.Ti overall.
Proof.
  intros Hc Hlam Hmu Hstable Hok.
  destruct (@priority_run
              (fun r => r = mmcPriority_value c lam mu [1])
              c lam mu [1] cache Hc Hmu Hstable Hok)
    as (r & cache' & Hrun & ->).
  { now intros c' ->. }
  destruct (@infinite_run
              (fun r => r = mmcInfinite_value c lam mu None)
              c lam mu None cache Hc Hmu Hstable Hok)
    as (overall & cache'' & Hrun' & ->).
  { now intros c' ->. }
  eexists. exists cache'. eexists. eexists. exists cache''.
  split; [exact Hrun |]. split; [reflexivity |].
  split; [exact Hrun' |]. split; [reflexivity |].
  assert (Hrho : 0 < lam / (inject_Z c * mu) /\ lam / (inject_Z c * mu) < 1).
  { assert (Hc' : 0 < inject_Z c) by (apply inject_Z_pos; lia).
    assert (Hden : 0 < inject_Z c * mu) by now apply Qmult_lt_0_compat.
    split.
    - apply Qlt_shift_div_l; [exact Hden | now rewrite Qmult_0_l].
    - apply Qlt_shift_div_r; [exact Hden | now rewrite Qmult_1_l]. }
  destruct Hrho as [Hrho0 Hrho1].
  cbn [Ii_k Ti_k]. at_Q. change (inject_Z 1) with 1. change (inject_Z 0) with 0.
  change (Qle_bool 1 0) with false. cbn [negb Nat.eqb].
  change (InfiniteQueueResult.Ti (mmcInfinite_value c lam mu None))
    with (InfiniteQueueResult.Ii (mmcInfinite_value c lam mu None) / lam).
  set (L := InfiniteQueueResult.Ii _). set (r := lam / _) in *.
  clearbody L r. split; field; repeat split; lra.
Qed.

Lemma mmcPriority_single_class_witness :
  (1 <= 2)%Z /\ 0 < 45 /\ 0 < 24 /\ 45 < inject_Z 2 * 24
  /\ cache_ok (factorialCache0 (num := Q))
  /\ exists r cache' e overall cache'',
       mmcPriority 2 45 24 [1] factorialCache0 = (Return r, cache')
       /\ classes r = [e]
       /\ mmcInfinite 2 45 24 None factorialCache0 = (Return overall, cache'')
       /\ Ii_total r = InfiniteQueueResult.Ii overall
       /\ Ii_k e == InfiniteQueueResult.Ii overall
       /\ Ti_k e == InfiniteQueueResult.Ti overall.
Proof.
  assert (Hc : (1 <= 2)%Z) by lia.
  assert (Hlam : 0 < 45) by reflexivity.
  assert (Hmu : 0 < 24) by reflexivity.
  assert (Hstable : 45 < inject_Z 2 * 24) by reflexivity.
  pose proof (cache_ok_initial (num := Q)) as Hok.
  repeat (split; [assumption |]).
  exact (@mmcPriority_single_class 2 45 24 factorialCache0
           Hc Hlam Hmu Hstable Hok).
Defined.

End PriorityTheorems.

(** ** What the solvers throw *)

Section SolverErrors.
Context {num : Type} `{Number num}.
Local Open Scope num_scope.

(** X16: at every number carrier, mmckFinite throws exactly when c < 1
    or K < 0, always the domain error and with the factorial cache
    untouched; on every other input it returns, whatever the rates (there
    is no stability requirement), with c + K + 1 state probabilities, a
    sound cache, and P_q_gt_Q present exactly when Q was given. *)
Theorem mmckFinite_throws_only_on_domain
    (c K : Z) (lam mu : num) (Q0 : option Z) (cache : list num) :
  cache_ok cache ->
  ((c < 1 \/ K < 0)%Z
   /\ mmckFinite c K lam mu Q0 cache
      = (Throw (Error "c must be >= 1 and K must be >= 0"), cache))
  \/ ((1 <= c /\ 0 <= K)%Z
      /\ exists r cache',
           mmckFinite c K lam mu Q0 cache = (Return r, cache')
           /\ cache_ok cache'
           /\ length (FiniteQueueResult.stateProbabilities r)
              = Z.to_nat (c + K + 1)
           /\ (FiniteQueueResult.P_q_gt_Q r = None <-> Q0 = None)).
Proof.
  intros Hok.
  destruct (Z_lt_le_dec c 1) as [Hc | Hc].
  { left. split; [now left |]. apply mmckFinite_domain_error. now left. }
  destruct (Z_lt_le_dec K 0) as [HK | HK].
  { left. split; [now right |]. apply mmckFinite_domain_error. now right. }
  right. split; [now split |].
  destruct (mmckFinite_returns lam mu Q0 Hc HK Hok) as (cache' & Hrun & Hok').
  exists (mmckFinite_value c K lam mu Q0), cache'.
  split; [exact Hrun |]. split; [exact Hok' |]. split.
  - unfold mmckFinite_value. cbv zeta.
    cbn [FiniteQueueResult.stateProbabilities].
    now rewrite length_map, length_seq.
  - unfold mmckFinite_value. cbv zeta. cbn [FiniteQueueResult.P_q_gt_Q].
    destruct Q0 as [q |]; [| tauto].
    destruct (q >=? K)%Z; split; discriminate.
Qed.

(** X17: with c < 1 neither of the other solvers returns, and they
    disagree on the error: mmcInfinite checks c first and throws its
    domain error whatever the rates, while mmcPriority tests stability
    first and only reaches the domain error, through its nested call,
    when the test rho >= 1 fails.  The cache is untouched either way. *)
Theorem solvers_reject_no_servers
    (c : Z) (lam mu : num) (Q0 : option Z) (classFractions : list num)
    (cache : list num) :
  (c < 1)%Z ->
  mmcInfinite c lam mu Q0 cache = (Throw (Error "c must be >= 1"), cache)
  /\ mmcPriority c lam mu classFractions cache
     = (Throw (Error (if lam / ($c * mu) >=? $1
                      then "System must be stable: arrivalRate < c * serviceRate"
                      else "c must be >= 1")),
        cache).
Proof.
  intros Hc.
  assert (Htest : (c <? 1)%Z = true) by now apply Z.ltb_lt.
  assert (Hinf : forall Q0,
            mmcInfinite c lam mu Q0 cache
            = (Throw (Error "c must be >= 1"), cache)).
  { intros Q1. unfold mmcInfinite. now rewrite Htest. }
  split; [apply Hinf |].
  unfold mmcPriority. cbv zeta.
  destruct (lam / ($c * mu) >=? $1); [reflexivity |].
  unfold bind. now rewrite Hinf.
Qed.

End SolverErrors.

Lemma mmckFinite_throws_only_on_domain_witness :
  cache_ok (factorialCache0 (num := float))
  /\ (((0 < 1 \/ 5 < 0)%Z
       /\ mmckFinite 0 5 (NofZ 30) (NofZ 60) None factorialCache0
          = (Throw (Error "c must be >= 1 and K must be >= 0"),
             factorialCache0 (num := float)))
      \/ ((1 <= 0 /\ 0 <= 5)%Z
          /\ exists r cache',
               mmckFinite 0 5 (NofZ 30) (NofZ 60) None factorialCache0
               = (Return r, cache')
               /\ cache_ok cache'
               /\ length (FiniteQueueResult.stateProbabilities r)
                  = Z.to_nat (0 + 5 + 1)
               /\ (FiniteQueueResult.P_q_gt_Q r = None <-> @None Z = None))).
Proof.
  pose proof (cache_ok_initial (num := float)) as Hok.
  split; [exact Hok |].
  exact (@mmckFinite_throws_only_on_domain float Number_float 0 5
           (NofZ 30) (NofZ 60) None factorialCache0 Hok).
Defined.

Lemma solvers_reject_no_servers_witness :
  (0 < 1)%Z
  /\ mmcInfinite 0 (NofZ 30) (NofZ 60) None (factorialCache0 (num := float))
     = (Throw (Error "c must be >= 1"), factorialCache0)
  /\ mmcPriority 0 (NofZ 30) (NofZ 60) [NofZ 1] (factorialCache0 (num := float))
     = (Throw (Error (if Nleb (NofZ 1)
                          (Ndiv (NofZ 30) (Nmul (NofZ 0) (NofZ 60)))
                      then "System must be stable: arrivalRate < c * serviceRate"
                      else "c must be >= 1")),
        factorialCache0).
Proof.
  assert (Hc : (0 < 1)%Z) by lia.
  split; [exact Hc |].
  exact (@solvers_reject_no_servers float Number_float 0 (NofZ 30) (NofZ 60)
           None [NofZ 1] factorialCache0 Hc).
Defined.

(** ** The callers' guards *)

Section CallerGuards.
Context {num : Type} `{Number num}.
Local Open Scope num_scope.
Variable Math_exp : num -> num.
Variable Math_round : num -> Z.

(** What the stability guard of the callers establishes. *)
Lemma isUnstable_false (c : Z) (lambda mu : num) :
  isUnstable (rho_of c lambda mu) = false ->
  (1 <= c)%Z /\ (lambda / ($c * mu) >=? $1) = false.
Proof.
  unfold isUnstable, rho_of.
  destruct (mu <=? $0); [discriminate |]. cbn [orb].
  destruct (Z.leb_spec c 0) as [Hle | Hgt]; [discriminate |].
  intros Htest. split; [lia | exact Htest].
Qed.

(** X18: QueueResults shows no metrics (results is null) in exactly two
    cases: the infinite model with the displayed rho >= 1 (or mu <= 0, or
    c <= 0), where the solver is not called at all, and the finite model
    with c < 1 or K < 0, where the solver's error is caught.  The guard
    of the infinite model is as strong as the solver's own checks, so the
    catch block is never entered for it; the finite model is computed for
    every traffic intensity.  Whatever is shown is the solver's return
    value. *)
Theorem QueueResults_results_null
    (c K : Z) (lambda mu : num) (Q : Z) (t : num) (cache : list num) :
  cache_ok cache ->
  (if isUnstable (rho_of c lambda mu)
   then results Math_exp infinite c K lambda mu Q t cache = (None, cache)
   else exists r cache',
          mmcInfinite c lambda mu (Some Q) cache = (Return r, cache')
          /\ results Math_exp infinite c K lambda mu Q t cache
             = (Some (inr (r, P_wait_gt_t Math_exp c lambda mu
                                (InfiniteQueueResult.Pw r) (Some t))),
                cache'))
  /\ (if (c <? 1)%Z || (K <? 0)%Z
      then results Math_exp finite c K lambda mu Q t cache = (None, cache)
      else exists r cache',
             mmckFinite c K lambda mu (Some Q) cache = (Return r, cache')
             /\ results Math_exp finite c K lambda mu Q t cache
                = (Some (inl r), cache')).
Proof.
  intros Hok. split.
  - unfold results. destruct (isUnstable (rho_of c lambda mu)) eqn:Hguard.
    + reflexivity.
    + apply isUnstable_false in Hguard. destruct Hguard as [Hc Htest].
      destruct (mmcInfinite_returns lambda mu (Some Q) Hc Htest Hok)
        as (cache' & Hrun & _).
      exists (mmcInfinite_value c lambda mu (Some Q)), cache'.
      split; [exact Hrun |].
      unfold try_or_null, mmcInfinite_t, bind. now rewrite Hrun.
  - unfold results. destruct ((c <? 1)%Z || (K <? 0)%Z) eqn:Hdomain.
    + unfold try_or_null, bind.
      rewrite mmckFinite_domain_error; [reflexivity |].
      apply orb_true_iff in Hdomain. destruct Hdomain as [Hc | HK].
      * left. now apply Z.ltb_lt.
      * right. now apply Z.ltb_lt.
    + apply orb_false_iff in Hdomain. destruct Hdomain as [Hc HK].
      apply Z.ltb_ge in Hc, HK.
      destruct (mmckFinite_returns lambda mu (Some Q) Hc HK Hok)
        as (cache' & Hrun & _).
      exists (mmckFinite_value c K lambda mu (Some Q)), cache'.
      split; [exact Hrun |].
      unfold try_or_null, bind. now rewrite Hrun.
Qed.

(** X19: App computes priority results exactly when priorities are
    switched on, the model is the infinite one and the displayed rho is
    below 1; then the solver is called on the clamped inputs and returns,
    so the catch block of priorityResults is never entered, and the
    result has one class per entry of allClassFractions. *)
Theorem App_priorityResults_guard
    (usePriorities : bool) (queueType : QueueType) (lambda mu c : num)
    (classFractions : list num) (cache : list num) :
  cache_ok cache ->
  let c' := cClamped Math_round c in
  let lam := lambdaClamped lambda in
  let mu' := muClamped mu in
  (1 <= c')%Z
  /\ if usePriorities
        && match queueType with infinite => true | finite => false end
        && negb (isUnstable (rho_of c' lam mu'))
     then exists r cache',
            mmcPriority c' lam mu' (allClassFractions classFractions) cache
            = (Return r, cache')
            /\ priorityResults Math_round usePriorities queueType lambda mu c
                 classFractions cache
               = (Some r, cache')
            /\ length (classes r) = length (allClassFractions classFractions)
            /\ length (allClassFractions classFractions)
               = Nat.max 1 (length classFractions)
     else priorityResults Math_round usePriorities queueType lambda mu c
            classFractions cache
          = (None, cache).
Proof.
  intros Hok c' lam mu'. split; [unfold c', cClamped; lia |].
  unfold priorityResults. cbv zeta. fold c' lam mu'.
  destruct usePriorities; cbn [negb andb orb]; [| reflexivity].
  destruct queueType; cbn [negb andb orb]; [| reflexivity].
  destruct (isUnstable (rho_of c' lam mu')) eqn:Hguard; cbn [negb];
    [reflexivity |].
  apply isUnstable_false in Hguard. destruct Hguard as [Hc Htest].
  destruct (mmcPriority_returns lam mu' (allClassFractions classFractions)
              Hc Htest Hok) as (cache' & Hrun & _).
  exists (mmcPriority_value c' lam mu' (allClassFractions classFractions)), cache'.
  split; [exact Hrun |]. split.
  { unfold try_or_null. now rewrite Hrun. }
  split.
  - unfold mmcPriority_value. cbv zeta. cbn [classes].
    now rewrite classes_loop_all, length_map, length_seq.
  - unfold allClassFractions. cbv zeta. cbn [length].
    destruct classFractions; cbn [tl length]; lia.
Qed.

End CallerGuards.

Lemma QueueResults_results_null_witness :
  let exp := fun x : Q => (1 / (1 - x))%Q in
  cache_ok (factorialCache0 (num := Q))
  /\ results exp infinite 2 5 60 25 0 0 factorialCache0
     = (None, factorialCache0)
  /\ exists r cache',
       mmckFinite 2 5 60 25 (Some 0%Z) factorialCache0 = (Return r, cache')
       /\ results exp finite 2 5 60 25 0 0 factorialCache0
          = (Some (inl r), cache').
Proof.
  intros exp.
  pose proof (cache_ok_initial (num := Q)) as Hok.
  split; [exact Hok |].
  exact (@QueueResults_results_null Q Number_Q exp 2 5 60 25 0 0
           factorialCache0 Hok).
Defined.

Lemma App_priorityResults_guard_witness :
  cache_ok (factorialCache0 (num := Q))
  /\ (1 <= cClamped Qfloor (3 # 2))%Z
  /\ exists r cache',
       mmcPriority (cClamped Qfloor (3 # 2)) (lambdaClamped 30) (muClamped 60)
         (allClassFractions [0; 4 # 5; 0; 0]%Q) factorialCache0
       = (Return r, cache')
       /\ priorityResults Qfloor true infinite 30 60 (3 # 2)
            [0; 4 # 5; 0; 0]%Q factorialCache0
          = (Some r, cache')
       /\ length (classes r) = length (allClassFractions [0; 4 # 5; 0; 0]%Q)
       /\ length (allClassFractions [0; 4 # 5; 0; 0]%Q)
          = Nat.max 1 (length [0; 4 # 5; 0; 0]%Q).
Proof.
  pose proof (cache_ok_initial (num := Q)) as Hok.
  split; [exact Hok |].
  exact (@App_priorityResults_guard Q Number_Q Qfloor true infinite 30 60
           (3 # 2)%Q [0; 4 # 5; 0; 0]%Q factorialCache0 Hok).
Defined.

Section AppFractions.
Local Open Scope Q_scope.

(** [f || 0] adds what [f] adds. *)
Lemma sumOthers_Qsum (l : list Q) (acc : Q) :
  fold_left (fun sum f => Nadd sum (if truthy f then f else NofZ 0)) l acc
  == acc + Qsum l.
Proof.
  revert acc. induction l as [| f l IH]; intros acc; cbn [fold_left].
  - change (Qsum []) with 0. ring.
  - rewrite IH, Qsum_cons. at_Q.
    destruct (Qeq_bool f 0) eqn:Hf; cbn [negb].
    + apply Qeq_bool_eq in Hf. rewrite Hf. change (inject_Z 0) with 0. ring.
    + ring.
Qed.

Lemma allClassFractions_sum (classFractions : list Q) :
  Qsum (allClassFractions classFractions) == 1.
Proof.
  unfold allClassFractions. cbv zeta. rewrite Qsum_cons, sumOthers_Qsum.
  at_Q. change (inject_Z 1) with 1. change (inject_Z 0) with 0. ring.
Qed.

(** The class queue lengths of the priority solver add up to the whole
    queue when the fractions are non-negative and sum to 1. *)
Lemma priority_value_sum (c : Z) (lam mu : Q) (fs : list Q) :
  (1 <= c)%Z -> 0 < lam -> 0 < mu -> lam < inject_Z c * mu ->
  Forall (fun f => 0 <= f) fs -> Qsum fs == 1 ->
  Qsum (map (@Ii_k Q) (classes (mmcPriority_value c lam mu fs)))
  == Ii_total (mmcPriority_value c lam mu fs).
Proof.
  intros Hc Hlam Hmu Hstable Hfs Hsum.
  unfold mmcPriority_value. cbv zeta. cbn [classes Ii_total].
  set (Ii := InfiniteQueueResult.Ii (mmcInfinite_value c lam mu None)).
  at_Q. set (rho := lam / (inject_Z c * mu)) in *.
  assert (Hrho0 : 0 <= rho).
  { apply Qlt_le_weak. now apply traffic_pos. }
  assert (Hrho1 : rho < 1).
  { assert (Hc' : 0 < inject_Z c) by (apply inject_Z_pos; lia).
    apply Qlt_shift_div_r; [now apply Qmult_lt_0_compat | now rewrite Qmult_1_l]. }
  rewrite (@classes_loop_sum Ii rho lam Hrho0 Hrho1 fs 0%nat (inject_Z 1) 0 []).
  - change (Qsum (map (@Ii_k Q) [])) with 0. rewrite Hsum.
    field. lra.
  - change (inject_Z 1) with 1. ring.
  - reflexivity.
  - apply Qle_refl.
  - exact Hfs.
  - rewrite Hsum. lra.
Qed.

Variable Math_round : Q -> Z.

(** X20: in exact arithmetic the fractions App passes to the priority
    solver sum to 1 for every classFractions array, class 1 taking what
    the edited classes leave.  When moreover the edited fractions are
    non-negative and sum to at most 1 and the clamped system is stable,
    every fraction passed is non-negative, the solver returns, and the
    total row of the table, the sum of the class queue lengths, equals
    Ii_total. *)
Theorem App_priority_table_total
    (lambda mu c : Q) (classFractions : list Q) (cache : list Q) :
  sumList (allClassFractions classFractions) == 1
  /\ (0 < lambda -> 0 < mu ->
      lambda < inject_Z (cClamped Math_round c) * mu ->
      Forall (fun f => 0 <= f) (tl classFractions) ->
      sumList (tl classFractions) <= 1 ->
      cache_ok cache ->
      Forall (fun f => 0 <= f) (allClassFractions classFractions)
      /\ exists r cache',
           priorityResults Math_round true infinite lambda mu c
             classFractions cache
           = (Some r, cache')
           /\ sumList (map (@Ii_k Q) (classes r)) == Ii_total r).
Proof.
  pose proof (allClassFractions_sum classFractions) as Hone.
  split; [now rewrite sumList_Qsum |].
  intros Hlambda Hmu Hstable Hfs Hsum Hok.
  assert (Hc : (1 <= cClamped Math_round c)%Z) by (unfold cClamped; lia).
  set (c' := cClamped Math_round c) in *.
  assert (Hlam : lambdaClamped lambda = lambda).
  { assert (Htest : Nltb (NofZ 0) lambda = true)
      by (apply (Q_ltb_true (inject_Z 0) lambda); exact Hlambda).
    unfold lambdaClamped, Math_max. now rewrite Htest. }
  assert (Hmu' : muClamped mu = mu).
  { assert (Htest : Nltb (NofZ 0) mu = true)
      by (apply (Q_ltb_true (inject_Z 0) mu); exact Hmu).
    unfold muClamped, Math_max. now rewrite Htest. }
  assert (Hnonneg : Forall (fun f => 0 <= f) (allClassFractions classFractions)).
  { unfold allClassFractions. cbv zeta. constructor; [| exact Hfs].
    rewrite sumOthers_Qsum. rewrite sumList_Qsum in Hsum. at_Q.
    change (inject_Z 1) with 1. change (inject_Z 0) with 0. lra. }
  split; [exact Hnonneg |].
  assert (Hpass : Nleb (NofZ 1) (Ndiv lambda (Nmul (NofZ c') mu)) = false).
  { apply not_true_iff_false. rewrite (stability_test lambda Hc Hmu).
    now apply Qlt_not_le. }
  destruct (mmcPriority_returns lambda mu (allClassFractions classFractions)
              Hc Hpass Hok) as (cache' & Hrun & _).
  exists (mmcPriority_value c' lambda mu (allClassFractions classFractions)),
    cache'.
  split.
  - unfold priorityResults. cbv zeta. fold c'. rewrite Hlam, Hmu'.
    cbn [negb orb]. unfold isUnstable, rho_of.
    assert (Htest : Nleb mu (NofZ 0) = false)
      by (apply (Q_leb_false mu (inject_Z 0)); exact Hmu).
    rewrite Htest. cbn [orb].
    destruct (Z.leb_spec c' 0) as [Hle | _]; [lia |].
    rewrite Hpass. unfold try_or_null. now rewrite Hrun.
  - rewrite sumList_Qsum. now apply priority_value_sum.
Qed.

End AppFractions.

Lemma App_priority_table_total_witness :
  let round := fun x : Q => Qfloor (x + (1 # 2)) in
  (0 < 30)%Q /\ (0 < 60)%Q /\ (30 < inject_Z (cClamped round 1) * 60)%Q
  /\ Forall (fun f => 0 <= f)%Q (tl [0; 4 # 5; 0; 0]%Q)
  /\ (sumList (tl [0; 4 # 5; 0; 0]%Q) <= 1)%Q
  /\ cache_ok (factorialCache0 (num := Q))
  /\ (sumList (allClassFractions [0; 4 # 5; 0; 0]%Q) == 1)%Q
  /\ Forall (fun f => 0 <= f)%Q (allClassFractions [0; 4 # 5; 0; 0]%Q)
  /\ exists r cache',
       priorityResults round true infinite 30 60 1 [0; 4 # 5; 0; 0]%Q
         factorialCache0
       = (Some r, cache')
       /\ (sumList (map (@Ii_k Q) (classes r)) == Ii_total r)%Q.
Proof.
  intros round.
  assert (Hlambda : (0 < 30)%Q) by reflexivity.
  assert (Hmu : (0 < 60)%Q) by reflexivity.
  assert (Hstable : (30 < inject_Z (cClamped round 1) * 60)%Q) by reflexivity.
  assert (Hfs : Forall (fun f => 0 <= f)%Q (tl [0; 4 # 5; 0; 0]%Q))
    by (repeat constructor; discriminate).
  assert (Hsum : (sumList (tl [0; 4 # 5; 0; 0]%Q) <= 1)%Q)
    by (vm_compute; discriminate).
  pose proof (cache_ok_initial (num := Q)) as Hok.
  repeat (split; [assumption |]).
  destruct (@App_priority_table_total round 30 60 1 [0; 4 # 5; 0; 0]%Q
              factorialCache0) as [Hone Hrest].
  split; [exact Hone |].
  exact (Hrest Hlambda Hmu Hstable Hfs Hsum Hok).
Defined.

(** ** The simulator's server array *)

Section ServerArray.
Context {num : Type}.

Lemma slot_set_length (a : list (option (Customer num))) (i : nat)
    (v : option (Customer num)) :
  (i < length a)%nat -> length (slot_set a i v) = length a.
Proof.
  intros Hi. unfold slot_set.
  destruct (Nat.ltb_spec i (length a)) as [_ | Hge]; [| lia].
  rewrite length_app, length_firstn. cbn [length]. rewrite length_skipn. lia.
Qed.

Lemma slot_set_nth (a : list (option (Customer num))) (i j : nat)
    (v : option (Customer num)) :
  (i < length a)%nat ->
  nth j (slot_set a i v) None = if (j =? i)%nat then v else nth j a None.
Proof.
  intros Hi. unfold slot_set.
  destruct (Nat.ltb_spec i (length a)) as [_ | Hge]; [| lia].
  assert (Hlen : length (firstn i a) = i) by (rewrite length_firstn; lia).
  destruct (Nat.eqb_spec j i) as [-> | Hne].
  - rewrite app_nth2 by lia. now rewrite Hlen, Nat.sub_diag.
  - destruct (Nat.lt_ge_cases j i) as [Hlt | Hgt].
    + rewrite app_nth1 by lia.
      rewrite <- (firstn_skipn i a) at 2. now rewrite app_nth1 by lia.
    + rewrite app_nth2 by lia. rewrite Hlen.
      replace (j - i)%nat with (S (j - S i)) by lia. cbn [nth].
      rewrite <- (firstn_skipn (S i) a) at 2.
      rewrite app_nth2; rewrite length_firstn; [| lia].
      now replace (Nat.min (S i) (length a)) with (S i) by lia.
Qed.

Lemma resize_loop_length (count i : nat)
    (old newServers : list (option (Customer num))) :
  (i + count <= length newServers)%nat ->
  length (resize_loop count i old newServers) = length newServers.
Proof.
  revert i newServers. induction count as [| count IH]; intros i a Hi.
  - reflexivity.
  - cbn [resize_loop]. rewrite IH; rewrite slot_set_length; lia.
Qed.

Lemma resize_loop_nth (count i j : nat)
    (old newServers : list (option (Customer num))) :
  (i + count <= length newServers)%nat ->
  nth j (resize_loop count i old newServers) None
  = if ((i <=? j) && (j <? i + count))%nat then nth j old None
    else nth j newServers None.
Proof.
  revert i newServers. induction count as [| count IH]; intros i a Hi.
  - cbn [resize_loop]. rewrite Nat.add_0_r.
    destruct (Nat.leb_spec i j), (Nat.ltb_spec j i); cbn [andb];
      try reflexivity; lia.
  - cbn [resize_loop]. rewrite IH by (rewrite slot_set_length; lia).
    rewrite slot_set_nth by lia.
    destruct (Nat.leb_spec (S i) j), (Nat.ltb_spec j (S i + count)),
      (Nat.leb_spec i j), (Nat.ltb_spec j (i + S count)),
      (Nat.eqb_spec j i); cbn [andb]; subst; try reflexivity; lia.
Qed.

Lemma nth_repeat_None (n j : nat) :
  nth j (repeat (@None (Customer num)) n) None = None.
Proof.
  revert j. induction n as [| n IH]; intros [| j]; cbn; auto.
Qed.

Lemma busy_app (l1 l2 : list (option (Customer num))) :
  busy (l1 ++ l2) = (busy l1 + busy l2)%nat.
Proof.
  unfold busy. now rewrite filter_app, length_app.
Qed.

Lemma busy_repeat_None (n : nat) : busy (repeat (@None (Customer num)) n) = 0%nat.
Proof.
  induction n as [| n IH]; [reflexivity | exact IH].
Qed.

Lemma busy_le_length (l : list (option (Customer num))) :
  (busy l <= length l)%nat.
Proof.
  unfold busy. apply filter_length_le.
Qed.

(** X21: when the number of servers changes, the server array is rebuilt
    with exactly numServers slots: the slots below numServers keep their
    occupants, added slots are empty, and the occupants of removed slots
    are dropped (they are neither completed nor put back in the waiting
    line), so the number of busy servers never grows. *)
Theorem resizeServers_keeps_a_prefix (numServers : nat)
    (serversRef : list (option (Customer num))) :
  resizeServers numServers serversRef
  = firstn numServers serversRef
    ++ repeat None (numServers - length serversRef)
  /\ length (resizeServers numServers serversRef) = numServers
  /\ (busy (resizeServers numServers serversRef) <= busy serversRef)%nat
  /\ ((length serversRef <= numServers)%nat ->
      busy (resizeServers numServers serversRef) = busy serversRef).
Proof.
  assert (Hlen : length (resizeServers numServers serversRef) = numServers).
  { unfold resizeServers. cbv zeta.
    rewrite resize_loop_length; rewrite repeat_length; lia. }
  assert (Heq : resizeServers numServers serversRef
                = firstn numServers serversRef
                  ++ repeat None (numServers - length serversRef)).
  { apply (nth_ext _ _ None None).
    - rewrite Hlen, length_app, length_firstn, repeat_length. lia.
    - intros j Hj. rewrite Hlen in Hj.
      unfold resizeServers. cbv zeta.
      rewrite resize_loop_nth by (rewrite repeat_length; lia).
      rewrite nth_repeat_None. cbn [Nat.add Nat.leb andb].
      destruct (Nat.ltb_spec j (Nat.min (length serversRef) numServers))
        as [Hin | Hout].
      + rewrite app_nth1 by (rewrite length_firstn; lia).
        rewrite <- (firstn_skipn numServers serversRef) at 1.
        now rewrite app_nth1 by (rewrite length_firstn; lia).
      + rewrite app_nth2 by (rewrite length_firstn; lia).
        now rewrite nth_repeat_None. }
  split; [exact Heq |]. split; [exact Hlen |].
  rewrite Heq, busy_app, busy_repeat_None, Nat.add_0_r. split.
  - rewrite <- (firstn_skipn numServers serversRef) at 2.
    rewrite busy_app. lia.
  - intros Hgrow. now rewrite firstn_all2.
Qed.

End ServerArray.

(** ** The tick: who is served, and who is counted *)

Section Assignment.
Context {num : Type} `{Number num}.
Local Open Scope num_scope.

Lemma busy_cons_Some (occupant : Customer num) (rest : list (option (Customer num))) :
  busy (Some occupant :: rest) = S (busy rest).
Proof.
  reflexivity.
Qed.

Lemma busy_cons_None (rest : list (option (Customer num))) :
  busy (None :: rest) = busy rest.
Proof.
  reflexivity.
Qed.

(** What one pass of the assignment loop does. *)
Lemma assign_spec (newTime : num) :
  forall (servers : list (option (Customer num))) (i : nat)
         (queue : list (Customer num)),
    let k := Nat.min (length servers - busy servers) (length queue) in
    length (fst (assign newTime i servers queue)) = length servers
    /\ snd (assign newTime i servers queue) = skipn k queue
    /\ busy (fst (assign newTime i servers queue)) = (busy servers + k)%nat
    /\ (forall j occupant,
          nth_error servers j = Some (Some occupant) ->
          nth_error (fst (assign newTime i servers queue)) j
          = Some (Some occupant)).
Proof.
  intros servers. induction servers as [| slot rest IH]; intros i queue k.
  - subst k. cbn. repeat split; try reflexivity. intros [| j] ? Hj; discriminate.
  - pose proof (busy_le_length rest) as Hle.
    destruct queue as [| customer waiting].
    + assert (Hk : k = 0%nat) by (subst k; cbn [length]; lia).
      rewrite Hk.
      replace (assign newTime i (slot :: rest) []) with (slot :: rest, @nil (Customer num))
        by (destruct slot; reflexivity).
      cbn [fst snd skipn]. rewrite Nat.add_0_r. repeat split; auto.
    + destruct slot as [occupant |].
      * cbn [assign].
        specialize (IH (S i) (customer :: waiting)). cbv zeta in IH.
        destruct (assign newTime (S i) rest (customer :: waiting))
          as [rest' queue'] eqn:Hrun.
        cbn [fst snd] in IH |- *. destruct IH as (Hlen & Hq & Hbusy & Hkeep).
        assert (Hk : k = Nat.min (length rest - busy rest)
                           (length (customer :: waiting))).
        { subst k. rewrite busy_cons_Some. cbn [length]. lia. }
        rewrite Hk. cbn [length] in *. rewrite !busy_cons_Some.
        repeat split; try lia; try assumption.
        intros [| j] o Hj; cbn [nth_error] in *; [exact Hj | now apply Hkeep].
      * cbn [assign].
        specialize (IH (S i) waiting). cbv zeta in IH.
        destruct (assign newTime (S i) rest waiting) as [rest' queue'] eqn:Hrun.
        cbn [fst snd] in IH |- *. destruct IH as (Hlen & Hq & Hbusy & Hkeep).
        assert (Hk : k = S (Nat.min (length rest - busy rest) (length waiting))).
        { subst k. rewrite busy_cons_None. cbn [length]. lia. }
        rewrite Hk. cbn [length skipn] in *.
        rewrite busy_cons_Some, busy_cons_None.
        repeat split; try lia; try assumption.
        intros [| j] o Hj; cbn [nth_error] in *; [discriminate | now apply Hkeep].
Qed.

(** X22: the assignment loop of a tick is first-come-first-served and
    work-conserving.  It takes customers from the front of the waiting
    line only, as many as there are free servers or waiting customers,
    whichever is fewer; nobody already in service is moved; and afterwards
    either the line is empty or every server is busy. *)
Theorem assign_is_fifo_and_work_conserving
    (newTime : num) (i : nat) (servers : list (option (Customer num)))
    (queue : list (Customer num)) :
  let free := (length servers - busy servers)%nat in
  let started := Nat.min free (length queue) in
  let servers' := fst (assign newTime i servers queue) in
  let queue' := snd (assign newTime i servers queue) in
  length servers' = length servers
  /\ queue' = skipn started queue
  /\ busy servers' = (busy servers + started)%nat
  /\ (forall j occupant,
        nth_error servers j = Some (Some occupant) ->
        nth_error servers' j = Some (Some occupant))
  /\ (queue' = [] \/ busy servers' = length servers').
Proof.
  intros free started servers' queue'.
  destruct (assign_spec newTime servers i queue) as (Hlen & Hq & Hbusy & Hkeep).
  fold free started servers' queue' in Hlen, Hq, Hbusy, Hkeep.
  repeat (split; [assumption |]).
  pose proof (busy_le_length servers) as Hle.
  destruct (Nat.le_ge_cases free (length queue)) as [Hfew | Hmany].
  - right. rewrite Hbusy, Hlen. subst started free. lia.
  - left. rewrite Hq. apply skipn_all2. subst started. lia.
Qed.

End Assignment.

Section TickInvariants.
Context {num : Type} `{Number num}.
Local Open Scope num_scope.
Variable Rng : Type.
Variable Math_random : Rng -> num * Rng.
Variable Math_log : num -> num.
Variable Math_floor : num -> Z.

Lemma enqueue_arrived_spec (p : SimParams num) :
  forall (dogs : list (ArrivingDog.t num)) (queue : list (Customer num))
         (total : Z) (g : Rng),
    let r := enqueue_arrived Math_random Math_log p dogs queue total g in
    length (fst (fst r)) = (length queue + length dogs)%nat
    /\ snd (fst r) = (total + Z.of_nat (length dogs))%Z
    /\ (Forall (@unstamped num) queue -> Forall (@unstamped num) (fst (fst r))).
Proof.
  induction dogs as [| dog rest IH]; intros queue total g r.
  - subst r. cbn. repeat split; try lia. auto.
  - subst r. cbn [enqueue_arrived].
    destruct (generateRandomTime Math_random Math_log
                (Ndiv (NofZ 1) (serviceRate p)) (cvService p) g)
      as [serviceTime g'].
    match goal with
    | |- context [enqueue_arrived _ _ p rest ?q ?t g'] =>
        specialize (IH q t g')
    end.
    cbv zeta in IH. destruct IH as (Hlen & Htotal & Hstamp).
    rewrite Hlen, Htotal, length_app. cbn [length].
    repeat split; try lia.
    intros Hqueue. apply Hstamp. apply Forall_app. split; [exact Hqueue |].
    constructor; [| constructor]. now repeat split.
Qed.

Lemma release_spec (newTime : num) (servers : list (option (Customer num))) :
  length (release newTime servers) = length servers
  /\ busy servers
     = (busy (release newTime servers)
        + length (filter (serviceCompleted newTime) servers))%nat
  /\ (forall i j,
        (forall slot, nth_error servers j = Some slot -> stamped (i + j) slot) ->
        forall slot,
          nth_error (release newTime servers) j = Some slot ->
          stamped (i + j) slot).
Proof.
  split; [apply length_map |]. split.
  - unfold release. induction servers as [| slot rest IH]; [reflexivity |].
    cbn [map filter].
    destruct (serviceCompleted newTime slot) eqn:Hdone.
    + destruct slot as [occupant |]; [| discriminate].
      rewrite busy_cons_Some, busy_cons_None. cbn [length]. lia.
    + destruct slot as [occupant |].
      * rewrite !busy_cons_Some. lia.
      * rewrite !busy_cons_None. exact IH.
  - intros i j Hj slot Hslot. unfold release in Hslot.
    rewrite nth_error_map in Hslot.
    destruct (nth_error servers j) as [old |] eqn:Hold; [| discriminate].
    cbn in Hslot. injection Hslot as <-.
    destruct (serviceCompleted newTime old); [exact I | now apply Hj].
Qed.

Lemma assign_stamped (newTime : num) :
  forall (servers : list (option (Customer num))) (i : nat)
         (queue : list (Customer num)),
    (forall j slot, nth_error servers j = Some slot -> stamped (i + j) slot) ->
    Forall (@unstamped num) queue ->
    (forall j slot,
       nth_error (fst (assign newTime i servers queue)) j = Some slot ->
       stamped (i + j) slot)
    /\ Forall (@unstamped num) (snd (assign newTime i servers queue)).
Proof.
  intros servers.
  induction servers as [| slot rest IH]; intros i queue Hservers Hqueue.
  - cbn. split; [| exact Hqueue]. intros [| j] ? Hj; discriminate.
  - assert (Hrest : forall j s, nth_error rest j = Some s ->
                                stamped (S i + j) s).
    { intros j s Hj. replace (S i + j)%nat with (i + S j)%nat by lia.
      now apply Hservers. }
    destruct queue as [| customer waiting].
    + replace (assign newTime i (slot :: rest) [])
        with (slot :: rest, @nil (Customer num))
        by (destruct slot; reflexivity).
      cbn [fst snd]. split; [exact Hservers | constructor].
    + destruct slot as [occupant |].
      * cbn [assign].
        destruct (IH (S i) (customer :: waiting) Hrest Hqueue) as [Hs Hq].
        destruct (assign newTime (S i) rest (customer :: waiting))
          as [rest' queue'].
        cbn [fst snd] in *. split; [| exact Hq].
        intros [| j] s Hj; cbn [nth_error] in Hj.
        -- injection Hj as <-. now apply (Hservers 0%nat).
        -- replace (i + S j)%nat with (S i + j)%nat by lia. now apply Hs.
      * cbn [assign].
        inversion Hqueue as [| ? ? Hcustomer Hwaiting]; subst.
        destruct (IH (S i) waiting Hrest Hwaiting) as [Hs Hq].
        destruct (assign newTime (S i) rest waiting) as [rest' queue'].
        cbn [fst snd] in *. split; [| exact Hq].
        intros [| j] s Hj; cbn [nth_error] in Hj.
        -- injection Hj as <-. cbn. rewrite Nat.add_0_r.
           split; [reflexivity |]. now exists newTime.
        -- replace (i + S j)%nat with (S i + j)%nat by lia. now apply Hs.
Qed.

(** The state a run of ticks keeps: every arrival is waiting, in
    service or completed; the server array keeps its size; nobody waits
    while a server is free; occupants carry their slot's stamps. *)
Lemma tick_keeps (fuel : nat) (p : SimParams num) (s s' : SimState num)
    (g g' : Rng) :
  tick Math_random Math_log Math_floor fuel p s g = Some (s', g') ->
  (totalArrived s
   = completedCount s + Z.of_nat (busy (servers s))
     + Z.of_nat (length (queue s)))%Z ->
  (0 <= completedCount s)%Z ->
  (forall j slot, nth_error (servers s) j = Some slot -> stamped j slot) ->
  Forall (@unstamped num) (queue s) ->
  (totalArrived s'
   = completedCount s' + Z.of_nat (busy (servers s'))
     + Z.of_nat (length (queue s')))%Z
  /\ (0 <= completedCount s')%Z
  /\ length (servers s') = length (servers s)
  /\ (queue s' = [] \/ busy (servers s') = length (servers s'))
  /\ (forall j slot, nth_error (servers s') j = Some slot -> stamped j slot)
  /\ Forall (@unstamped num) (queue s').
Proof.
  unfold tick. cbv zeta.
  set (newTime := currentTime s + $1 / $10 * speed p).
  destruct (arrivals_loop _ _ _ _ _ _ _ _ _ _) as [[[[nextArrival nextId] dogs] g1] |];
    [| discriminate].
  set (arrived := filter _ dogs).
  pose proof (enqueue_arrived_spec p arrived (queue s) (totalArrived s) g1)
    as Henq. cbv zeta in Henq.
  destruct (enqueue_arrived _ _ p arrived (queue s) (totalArrived s) g1)
    as [[queue1 total1] g2].
  cbn [fst snd] in Henq. destruct Henq as (Hlen1 & Htotal1 & Hstamp1).
  destruct (release_spec newTime (servers s)) as (Hrlen & Hrbusy & Hrstamp).
  pose proof (assign_spec newTime (release newTime (servers s)) 0 queue1)
    as Hassign. cbv zeta in Hassign.
  pose proof (@assign_stamped newTime (release newTime (servers s)) 0%nat queue1)
    as Hstamped.
  destruct (assign newTime 0 (release newTime (servers s)) queue1)
    as [servers2 queue2].
  cbn [fst snd] in Hassign, Hstamped.
  destruct Hassign as (Halen & Haq & Habusy & _).
  intros [= <- <-] Hinv Hdone Hslots Hqueue.
  cbn [totalArrived completedCount servers queue].
  pose proof (busy_le_length (release newTime (servers s))) as Hle.
  assert (Hq2 : length queue2
                = (length queue1
                   - Nat.min (length (release newTime (servers s))
                              - busy (release newTime (servers s)))
                       (length queue1))%nat)
    by (rewrite Haq; apply length_skipn).
  assert (Hreleased : forall j slot,
            nth_error (release newTime (servers s)) j = Some slot ->
            stamped (0 + j) slot).
  { intros j slot. apply (Hrstamp 0%nat j). intros old Hold.
    now apply Hslots. }
  destruct (Hstamped Hreleased (Hstamp1 Hqueue)) as [Hs2 Hq2'].
  unfold countCompletions.
  split; [lia |]. split; [lia |]. split; [lia |]. split; [| split].
  - destruct (Nat.le_ge_cases
                (length (release newTime (servers s))
                 - busy (release newTime (servers s)))
                (length queue1)) as [Hfew | Hmany].
    + right. lia.
    + left. rewrite Haq. apply skipn_all2. lia.
  - exact Hs2.
  - exact Hq2'.
Qed.

Lemma ticks_keep (fuel : nat) (ps : list (SimParams num)) :
  forall (s s' : SimState num) (g g' : Rng),
    ticks Math_random Math_log Math_floor fuel ps s g = Some (s', g') ->
    (totalArrived s
     = completedCount s + Z.of_nat (busy (servers s))
       + Z.of_nat (length (queue s)))%Z ->
    (0 <= completedCount s)%Z ->
    (queue s = [] \/ busy (servers s) = length (servers s)) ->
    (forall j slot, nth_error (servers s) j = Some slot -> stamped j slot) ->
    Forall (@unstamped num) (queue s) ->
    (totalArrived s'
     = completedCount s' + Z.of_nat (busy (servers s'))
       + Z.of_nat (length (queue s')))%Z
    /\ (0 <= completedCount s')%Z
    /\ length (servers s') = length (servers s)
    /\ (queue s' = [] \/ busy (servers s') = length (servers s'))
    /\ (forall j slot, nth_error (servers s') j = Some slot -> stamped j slot)
    /\ Forall (@unstamped num) (queue s').
Proof.
  induction ps as [| p ps IH]; intros s s' g g' Hrun Hinv Hdone Hwork Hslots Hqueue.
  - cbn in Hrun. injection Hrun as <- <-. now repeat split.
  - cbn [ticks] in Hrun.
    destruct (tick Math_random Math_log Math_floor fuel p s g)
      as [[s1 g1] |] eqn:Htick; [| discriminate].
    destruct (tick_keeps _ _ _ _ Htick Hinv Hdone Hslots Hqueue)
      as (Hinv1 & Hdone1 & Hlen1 & Hwork1 & Hslots1 & Hqueue1).
    destruct (IH _ _ _ _ Hrun Hinv1 Hdone1 Hwork1 Hslots1 Hqueue1)
      as (Hinv' & Hdone' & Hlen' & Hrest).
    repeat (split; [assumption || congruence |]). exact Hrest.
Qed.

Lemma reset_slots (numServers j : nat) (slot : option (Customer num)) :
  nth_error (repeat (@None (Customer num)) numServers) j = Some slot ->
  slot = None.
Proof.
  intros Hj. apply nth_error_In, repeat_spec in Hj. exact Hj.
Qed.

(** X23: in every state the simulator reaches from a reset, by any
    sequence of ticks, with any parameters and any random draws, every
    customer who arrived is accounted for: totalArrived = completedCount
    + busy servers + customers waiting.  The server array keeps its
    numServers slots, and the state is work-conserving: nobody waits
    while a server is free. *)
Theorem ticks_conserve_customers
    (fuel : nat) (ps : list (SimParams num)) (numServers : nat)
    (s : SimState num) (g g' : Rng) :
  ticks Math_random Math_log Math_floor fuel ps (resetSimulation numServers) g
  = Some (s, g') ->
  (totalArrived s
   = completedCount s + Z.of_nat (busy (servers s))
     + Z.of_nat (length (queue s)))%Z
  /\ (0 <= completedCount s <= totalArrived s)%Z
  /\ length (servers s) = numServers
  /\ (queue s = [] \/ busy (servers s) = numServers).
Proof.
  intros Hrun.
  destruct (ticks_keep _ _ _ _ Hrun) as (Hinv & Hdone & Hlen & Hwork & _).
  - cbn [resetSimulation totalArrived completedCount servers queue].
    now rewrite busy_repeat_None.
  - cbn. lia.
  - now left.
  - cbn [resetSimulation servers]. intros j slot Hj.
    apply reset_slots in Hj. now subst slot.
  - constructor.
  - cbn [resetSimulation servers] in Hlen. rewrite repeat_length in Hlen.
    rewrite Hlen in Hwork. repeat split; try assumption; lia.
Qed.

(** X24: in every state reached from a reset, the customer in server
    slot i carries serverId = i, a start of service, and an end of
    service equal to that start plus its service time; a customer in
    the waiting line carries none of the three. *)
Theorem ticks_stamp_customers
    (fuel : nat) (ps : list (SimParams num)) (numServers : nat)
    (s : SimState num) (g g' : Rng) :
  ticks Math_random Math_log Math_floor fuel ps (resetSimulation numServers) g
  = Some (s, g') ->
  (forall i customer,
     nth_error (servers s) i = Some (Some customer) ->
     serverId customer = Some i
     /\ exists start,
          startServiceTime customer = Some start
          /\ endServiceTime customer = Some (start + serviceTime customer))
  /\ (forall customer,
        In customer (queue s) ->
        startServiceTime customer = None
        /\ endServiceTime customer = None
        /\ serverId customer = None).
Proof.
  intros Hrun.
  destruct (ticks_keep _ _ _ _ Hrun) as (_ & _ & _ & _ & Hslots & Hqueue).
  - cbn [resetSimulation totalArrived completedCount servers queue].
    now rewrite busy_repeat_None.
  - cbn. lia.
  - now left.
  - cbn [resetSimulation servers]. intros j slot Hj.
    apply reset_slots in Hj. now subst slot.
  - constructor.
  - split.
    + intros i customer Hi. exact (Hslots i (Some customer) Hi).
    + intros customer Hin. exact (proj1 (Forall_forall _ _) Hqueue customer Hin).
Qed.

End TickInvariants.

Section CustomerIds.
Context {num : Type} `{Number num}.
Local Open Scope num_scope.
Variable Rng : Type.
Variable Math_random : Rng -> num * Rng.
Variable Math_log : num -> num.
Variable Math_floor : num -> Z.

(** The carrier's tests [<] and [>=] are complementary, as they are for
    numbers other than NaN. *)
Hypothesis lt_is_not_ge : forall x y : num, (x <? y) = negb (y <=? x).

Lemma arrivals_loop_ids (p : SimParams num) (newTime : num) (fuel : nat) :
  forall nextArrival nextId dogs g nextArrival' nextId' dogs' g',
    arrivals_loop Math_random Math_log Math_floor fuel p newTime nextArrival
      nextId dogs g = Some (nextArrival', nextId', dogs', g') ->
    (nextId' - nextId = Z.of_nat (length dogs') - Z.of_nat (length dogs))%Z.
Proof.
  induction fuel as [| fuel IH];
    intros nextArrival nextId dogs g nextArrival' nextId' dogs' g' Hrun;
    cbn [arrivals_loop] in Hrun;
    destruct (nextArrival <=? newTime + walkTime);
    try discriminate; try (injection Hrun as <- <- <- <-; lia).
  destruct (find _ dogs).
  - destruct (generateRandomTime _ _ _ _ g) as [gap g1].
    exact (IH _ _ _ _ _ _ _ _ Hrun).
  - destruct (generateDogColors _ _ g) as [[collar fur] g1].
    destruct (generateRandomTime _ _ _ _ g1) as [gap g2].
    apply IH in Hrun. rewrite length_app in Hrun. cbn [length] in Hrun. lia.
Qed.

Lemma filter_split {A : Type} (p q : A -> bool) (l : list A) :
  (forall x, q x = negb (p x)) ->
  (length (filter p l) + length (filter q l) = length l)%nat.
Proof.
  intros Hq. induction l as [| x l IH]; [reflexivity |].
  cbn [filter]. rewrite Hq. destruct (p x); cbn [negb length]; lia.
Qed.

Lemma tick_ids (fuel : nat) (p : SimParams num) (s s' : SimState num)
    (g g' : Rng) :
  tick Math_random Math_log Math_floor fuel p s g = Some (s', g') ->
  (nextCustomerId s
   = 1 + totalArrived s + Z.of_nat (length (arrivingDogs s)))%Z ->
  (nextCustomerId s'
   = 1 + totalArrived s' + Z.of_nat (length (arrivingDogs s')))%Z
  /\ Forall (fun d => (currentTime s' <? ArrivingDog.arrivalTime d) = true)
       (arrivingDogs s').
Proof.
  unfold tick. cbv zeta.
  set (newTime := currentTime s + $1 / $10 * speed p).
  destruct (arrivals_loop _ _ _ _ _ _ _ _ _ _)
    as [[[[nextArrival nextId] dogs] g1] |] eqn:Hloop; [| discriminate].
  apply arrivals_loop_ids in Hloop.
  set (arrived := filter _ dogs).
  pose proof (enqueue_arrived_spec Math_random Math_log p arrived (queue s)
                (totalArrived s) g1) as Henq. cbv zeta in Henq.
  destruct (enqueue_arrived _ _ p arrived (queue s) (totalArrived s) g1)
    as [[queue1 total1] g2].
  cbn [fst snd] in Henq. destruct Henq as (_ & Htotal1 & _).
  destruct (assign newTime 0 (release newTime (servers s)) queue1)
    as [servers2 queue2].
  intros [= <- <-] Hinv.
  cbn [nextCustomerId totalArrived arrivingDogs currentTime].
  pose proof (@filter_split _
                (fun d => ArrivingDog.arrivalTime d <=? newTime)
                (fun d => newTime <? ArrivingDog.arrivalTime d)
                dogs (fun d => lt_is_not_ge _ _)) as Hsplit.
  fold arrived in Hsplit. split; [lia |].
  apply Forall_forall. intros d Hd. apply filter_In in Hd. exact (proj2 Hd).
Qed.

Lemma ticks_ids (fuel : nat) (ps : list (SimParams num)) :
  forall (s s' : SimState num) (g g' : Rng),
    ticks Math_random Math_log Math_floor fuel ps s g = Some (s', g') ->
    (nextCustomerId s
     = 1 + totalArrived s + Z.of_nat (length (arrivingDogs s)))%Z ->
    Forall (fun d => (currentTime s <? ArrivingDog.arrivalTime d) = true)
      (arrivingDogs s) ->
    (nextCustomerId s'
     = 1 + totalArrived s' + Z.of_nat (length (arrivingDogs s')))%Z
    /\ Forall (fun d => (currentTime s' <? ArrivingDog.arrivalTime d) = true)
         (arrivingDogs s').
Proof.
  induction ps as [| p ps IH]; intros s s' g g' Hrun Hinv Hdogs.
  - cbn in Hrun. injection Hrun as <- <-. now split.
  - cbn [ticks] in Hrun.
    destruct (tick Math_random Math_log Math_floor fuel p s g)
      as [[s1 g1] |] eqn:Htick; [| discriminate].
    destruct (tick_ids _ _ _ _ Htick Hinv) as [Hinv1 Hdogs1].
    exact (IH _ _ _ _ Hrun Hinv1 Hdogs1).
Qed.

(** X25: on a carrier whose tests < and >= are complementary, in every
    state reached from a reset no customer is lost or duplicated on the
    way in: the ids issued so far (nextCustomerId - 1) are exactly the
    dogs still walking plus the customers waiting, in service and
    completed, and every dog still walking has its arrival ahead of the
    current time. *)
Theorem ticks_account_for_every_id
    (fuel : nat) (ps : list (SimParams num)) (numServers : nat)
    (s : SimState num) (g g' : Rng) :
  ticks Math_random Math_log Math_floor fuel ps (resetSimulation numServers) g
  = Some (s, g') ->
  (nextCustomerId s - 1
   = Z.of_nat (length (arrivingDogs s)) + Z.of_nat (length (queue s))
     + Z.of_nat (busy (servers s)) + completedCount s)%Z
  /\ Forall (fun d => (currentTime s <? ArrivingDog.arrivalTime d) = true)
       (arrivingDogs s).
Proof.
  intros Hrun.
  destruct (ticks_ids _ _ _ _ Hrun) as [Hids Hdogs].
  { reflexivity. }
  { constructor. }
  destruct (ticks_keep _ _ _ _ _ _ _ Hrun) as (Hinv & _).
  - cbn [resetSimulation totalArrived completedCount servers queue].
    now rewrite busy_repeat_None.
  - cbn. lia.
  - now left.
  - cbn [resetSimulation servers]. intros j slot Hj.
    apply reset_slots in Hj. now subst slot.
  - constructor.
  - split; [lia | exact Hdogs].
Qed.

End CustomerIds.

Lemma ticks_conserve_customers_witness :
  let source := fun g : nat => ((inject_Z (Z.of_nat g) / 10)%Q, S g) in
  let log := fun x : Q => (x - 1)%Q in
  let p := {| arrivalRate := 1%Q; serviceRate := (3 # 2)%Q;
              cvArrival := 1%Q; cvService := (1 # 2)%Q; speed := 1%Q |} in
  exists s g,
    ticks source log Qfloor 50 (repeat p 30) (resetSimulation 2) 0%nat
    = Some (s, g)
    /\ (totalArrived s
        = completedCount s + Z.of_nat (busy (servers s))
          + Z.of_nat (length (queue s)))%Z
    /\ (0 <= completedCount s <= totalArrived s)%Z
    /\ length (servers s) = 2%nat
    /\ (queue s = [] \/ busy (servers s) = 2%nat).
Proof.
  intros source log p.
  destruct (ticks source log Qfloor 50 (repeat p 30) (resetSimulation 2) 0%nat)
    as [[s g] |] eqn:Hrun.
  - exists s, g. split; [reflexivity |].
    exact (@ticks_conserve_customers Q Number_Q nat source log Qfloor 50
             (repeat p 30) 2 s 0%nat g Hrun).
  - vm_compute in Hrun. discriminate Hrun.
Defined.

Lemma ticks_stamp_customers_witness :
  let source := fun g : nat => ((inject_Z (Z.of_nat g) / 10)%Q, S g) in
  let log := fun x : Q => (x - 1)%Q in
  let p := {| arrivalRate := 1%Q; serviceRate := (3 # 2)%Q;
              cvArrival := 1%Q; cvService := (1 # 2)%Q; speed := 1%Q |} in
  exists s g,
    ticks source log Qfloor 50 (repeat p 30) (resetSimulation 2) 0%nat
    = Some (s, g)
    /\ (forall i customer,
          nth_error (servers s) i = Some (Some customer) ->
          serverId customer = Some i
          /\ exists start,
               startServiceTime customer = Some start
               /\ endServiceTime customer
                  = Some (start + serviceTime customer)%Q)
    /\ (forall customer,
          In customer (queue s) ->
          startServiceTime customer = None
          /\ endServiceTime customer = None
          /\ serverId customer = None).
Proof.
  intros source log p.
  destruct (ticks source log Qfloor 50 (repeat p 30) (resetSimulation 2) 0%nat)
    as [[s g] |] eqn:Hrun.
  - exists s, g. split; [reflexivity |].
    exact (@ticks_stamp_customers Q Number_Q nat source log Qfloor 50
             (repeat p 30) 2 s 0%nat g Hrun).
  - vm_compute in Hrun. discriminate Hrun.
Defined.

Lemma ticks_account_for_every_id_witness :
  let source := fun g : nat => ((inject_Z (Z.of_nat g) / 10)%Q, S g) in
  let log := fun x : Q => (x - 1)%Q in
  let p := {| arrivalRate := 1%Q; serviceRate := (3 # 2)%Q;
              cvArrival := 1%Q; cvService := (1 # 2)%Q; speed := 1%Q |} in
  (forall x y : Q, Nltb x y = negb (Nleb y x))
  /\ exists s g,
       ticks source log Qfloor 50 (repeat p 30) (resetSimulation 2) 0%nat
       = Some (s, g)
       /\ (nextCustomerId s - 1
           = Z.of_nat (length (arrivingDogs s)) + Z.of_nat (length (queue s))
             + Z.of_nat (busy (servers s)) + completedCount s)%Z
       /\ Forall (fun d => Nltb (currentTime s) (ArrivingDog.arrivalTime d) = true)
            (arrivingDogs s).
Proof.
  intros source log p.
  assert (Horder : forall x y : Q, Nltb x y = negb (Nleb y x))
    by (intros x y; reflexivity).
  split; [exact Horder |].
  destruct (ticks source log Qfloor 50 (repeat p 30) (resetSimulation 2) 0%nat)
    as [[s g] |] eqn:Hrun.
  - exists s, g. split; [reflexivity |].
    exact (@ticks_account_for_every_id Q Number_Q nat source log Qfloor Horder
             50 (repeat p 30) 2 s 0%nat g Hrun).
  - vm_compute in Hrun. discriminate Hrun.
Defined.

(** ** The simulator's draws *)

Section Draws.
Local Open Scope Q_scope.
Variable Rng : Type.
Variable Math_random : Rng -> Q * Rng.
Variable Math_log : Q -> Q.

(** [Math.random] returns a number in [0, 1); [Math.log] is not positive
    on (0, 1]. *)
Hypothesis Math_random_range :
  forall g, 0 <= fst (Math_random g) /\ fst (Math_random g) < 1.
Hypothesis Math_log_range : forall x, 0 < x -> x <= 1 -> Math_log x <= 0.

Lemma pickColor_in (colors : list string) (g : Rng) :
  colors <> [] ->
  In (fst (pickColor Math_random Qfloor colors g)) colors
  /\ snd (pickColor Math_random Qfloor colors g) = snd (Math_random g).
Proof.
  intros Hne. unfold pickColor.
  destruct (Math_random_range g) as [Hu0 Hu1].
  destruct (Math_random g) as [u g']. cbn [fst snd] in *.
  split; [| reflexivity]. apply nth_In. at_Q.
  assert (Hlen : (0 < length colors)%nat).
  { destruct colors; [contradiction | cbn; lia]. }
  set (n := length colors) in *.
  assert (Hn : 0 < inject_Z (Z.of_nat n)) by (apply inject_Z_pos; lia).
  pose proof (Qfloor_le (u * inject_Z (Z.of_nat n))) as Hfloor.
  assert (Hlt : u * inject_Z (Z.of_nat n) < inject_Z (Z.of_nat n)).
  { setoid_replace (inject_Z (Z.of_nat n)) with (1 * inject_Z (Z.of_nat n))
      at 2 by ring.
    now apply Qmult_lt_compat_r. }
  assert (Hz : (Qfloor (u * inject_Z (Z.of_nat n)) < Z.of_nat n)%Z).
  { rewrite Zlt_Qlt. lra. }
  lia.
Qed.

(** X26: with Math.random in [0, 1) and the true floor, every dog gets
    a collar colour and a fur colour from the two tables (never an
    index outside them), at the cost of exactly two draws. *)
Theorem generateDogColors_in_tables (g : Rng) :
  In (fst (fst (generateDogColors Math_random Qfloor g))) collarColors
  /\ In (snd (fst (generateDogColors Math_random Qfloor g))) furColors
  /\ snd (generateDogColors Math_random Qfloor g)
     = snd (Math_random (snd (Math_random g))).
Proof.
  unfold generateDogColors.
  destruct (@pickColor_in collarColors g ltac:(discriminate)) as [Hcollar Hg1].
  destruct (pickColor Math_random Qfloor collarColors g) as [collar g1].
  cbn [fst snd] in Hcollar, Hg1. subst g1.
  destruct (@pickColor_in furColors (snd (Math_random g)) ltac:(discriminate))
    as [Hfur Hg2].
  destruct (pickColor Math_random Qfloor furColors (snd (Math_random g)))
    as [fur g2].
  cbn [fst snd] in *. now repeat split.
Qed.

(** A drawn duration is at least [(1 - cv) mean]. *)
Lemma generateRandomTime_bounds (mean cv : Q) (g : Rng) :
  0 <= mean -> 0 <= cv -> cv <= 1 ->
  fst (generateRandomTime Math_random Math_log mean cv g)
  == mean * (1 - cv) + (- Math_log (1 - fst (Math_random g))) * mean * cv
  /\ mean * (1 - cv) <= fst (generateRandomTime Math_random Math_log mean cv g)
  /\ 0 <= fst (generateRandomTime Math_random Math_log mean cv g).
Proof.
  intros Hmean Hcv0 Hcv1.
  set (u := fst (Math_random g)). set (e := (- Math_log (1 - u)) * mean).
  destruct (Math_random_range g) as [Hu0 Hu1]. fold u in Hu0, Hu1.
  assert (Hlog : Math_log (1 - u) <= 0) by (apply Math_log_range; lra).
  assert (He : 0 <= e).
  { unfold e. apply Qmult_le_0_compat; lra. }
  assert (Hmix : 0 <= e * cv) by now apply Qmult_le_0_compat.
  assert (Hdet : 0 <= mean * (1 - cv)) by (apply Qmult_le_0_compat; lra).
  unfold generateRandomTime. at_Q.
  destruct (Qeq_bool cv (inject_Z 0)) eqn:Hzero.
  - apply Qeq_bool_eq in Hzero. change (inject_Z 0) with 0 in Hzero.
    cbn [fst snd]. split; [rewrite Hzero; ring |].
    assert (Hsame : mean * (1 - cv) == mean) by (rewrite Hzero; ring).
    split; [rewrite Hsame; apply Qle_refl | exact Hmean].
  - destruct (Qeq_bool cv (inject_Z 1)) eqn:Hone.
    + apply Qeq_bool_eq in Hone. change (inject_Z 1) with 1 in Hone.
      subst u. destruct (Math_random g) as [u' g'] eqn:Hdraw.
      cbn [fst snd] in *. change (inject_Z 1) with 1. fold e.
      assert (Hsame : mean * (1 - cv) + e * cv == e) by (rewrite Hone; ring).
      split; [now rewrite Hsame |]. split; [lra | exact He].
    + subst u. destruct (Math_random g) as [u' g'] eqn:Hdraw.
      cbn [fst snd] in *. change (inject_Z 1) with 1. fold e.
      split; [reflexivity |]. split; lra.
Qed.



End Draws.

Lemma generateDogColors_in_tables_witness :
  let source := fun g : nat => ((1 # 2)%Q, S g) in
  (forall g, 0 <= fst (source g) /\ fst (source g) < 1)%Q
  /\ In (fst (fst (generateDogColors source Qfloor 0%nat))) collarColors
  /\ In (snd (fst (generateDogColors source Qfloor 0%nat))) furColors
  /\ snd (generateDogColors source Qfloor 0%nat)
     = snd (source (snd (source 0%nat))).
Proof.
  intros source.
  assert (Hrange : (forall g, 0 <= fst (source g) /\ fst (source g) < 1)%Q).
  { intros g. cbn. split; [discriminate | reflexivity]. }
  split; [exact Hrange |].
  exact (@generateDogColors_in_tables nat source Hrange 0%nat).
Defined.


(** ** The simulator's times are in order *)

Section TickTimes.
Local Open Scope Q_scope.
Variable Rng : Type.
Variable Math_random : Rng -> Q * Rng.
Variable Math_log : Q -> Q.
Variable Math_floor : Q -> Z.

Hypothesis Math_random_range :
  forall g, 0 <= fst (Math_random g) /\ fst (Math_random g) < 1.
Hypothesis Math_log_range : forall x, 0 < x -> x <= 1 -> Math_log x <= 0.

Lemma assign_Forall (newTime : Q) (Pslot : option (Customer Q) -> Prop)
    (Pq : Customer Q -> Prop) :
  (forall customer i,
     Pq customer ->
     Pslot (Some {| id := id customer;
                    arrivalTime := arrivalTime customer;
                    serviceTime := serviceTime customer;
                    startServiceTime := Some newTime;
                    endServiceTime := Some (newTime + serviceTime customer);
                    serverId := Some i;
                    collarColor := collarColor customer;
                    furColor := furColor customer |})) ->
  forall (servers : list (option (Customer Q))) (i : nat)
         (queue : list (Customer Q)),
    Forall Pslot servers -> Forall Pq queue ->
    Forall Pslot (fst (assign newTime i servers queue))
    /\ Forall Pq (snd (assign newTime i servers queue)).
Proof.
  intros Hstart.
  intros servers.
  induction servers as [| slot rest IH]; intros i queue Hservers Hqueue.
  - cbn. now split.
  - inversion Hservers as [| ? ? Hslot Hrest]; subst.
    destruct queue as [| customer waiting].
    + replace (assign newTime i (slot :: rest) [])
        with (slot :: rest, @nil (Customer Q))
        by (destruct slot; reflexivity).
      now split.
    + destruct slot as [occupant |]; cbn [assign].
      * destruct (IH (S i) (customer :: waiting) Hrest Hqueue) as [Hs Hq].
        destruct (assign newTime (S i) rest (customer :: waiting))
          as [rest' queue'].
        cbn [fst snd] in *. split; [now constructor | exact Hq].
      * inversion Hqueue as [| ? ? Hcustomer Hwaiting]; subst.
        destruct (IH (S i) waiting Hrest Hwaiting) as [Hs Hq].
        destruct (assign newTime (S i) rest waiting) as [rest' queue'].
        cbn [fst snd] in *. split; [| exact Hq].
        constructor; [now apply Hstart | exact Hs].
Qed.

Lemma release_Forall (newTime : Q) (Pslot : option (Customer Q) -> Prop)
    (servers : list (option (Customer Q))) :
  Pslot None -> Forall Pslot servers -> Forall Pslot (release newTime servers).
Proof.
  intros Hnone Hservers. unfold release. apply Forall_map.
  apply (Forall_impl _ (P := Pslot)); [| exact Hservers].
  intros slot Hslot. now destruct (serviceCompleted newTime slot).
Qed.

Lemma enqueue_arrived_timing (p : SimParams Q) (newTime : Q) :
  0 < serviceRate p -> 0 <= cvService p -> cvService p <= 1 ->
  forall (dogs : list (ArrivingDog.t Q)) (queue : list (Customer Q))
         (total : Z) (g : Rng),
    Forall (fun d => ArrivingDog.arrivalTime d <= newTime) dogs ->
    Forall (fun c => arrivalTime c <= newTime /\ 0 <= serviceTime c) queue ->
    Forall (fun c => arrivalTime c <= newTime /\ 0 <= serviceTime c)
      (fst (fst (enqueue_arrived Math_random Math_log p dogs queue total g))).
Proof.
  intros Hrate Hcv0 Hcv1.
  assert (Hmean : 0 <= 1 / serviceRate p).
  { apply Qlt_le_weak, Qlt_shift_div_l; [exact Hrate | now rewrite Qmult_0_l]. }
  induction dogs as [| dog rest IH]; intros queue total g Hdogs Hqueue.
  - exact Hqueue.
  - cbn [enqueue_arrived]. at_Q. change (inject_Z 1) with 1.
    destruct (@generateRandomTime_bounds Rng Math_random Math_log
                Math_random_range Math_log_range (1 / serviceRate p)
                (cvService p) g Hmean Hcv0 Hcv1) as (_ & _ & Hpos).
    destruct (generateRandomTime Math_random Math_log (1 / serviceRate p)
                (cvService p) g) as [serviceTime g'].
    cbn [fst] in Hpos.
    inversion Hdogs as [| ? ? Hdog Hrest]; subst.
    apply IH; [exact Hrest |].
    apply Forall_app. split; [exact Hqueue |].
    constructor; [| constructor]. now split.
Qed.

Lemma tick_times (fuel : nat) (p : SimParams Q) (s s' : SimState Q)
    (g g' : Rng) :
  0 <= speed p -> 0 < serviceRate p -> 0 <= cvService p -> cvService p <= 1 ->
  tick Math_random Math_log Math_floor fuel p s g = Some (s', g') ->
  Forall (fun c => arrivalTime c <= currentTime s /\ 0 <= serviceTime c)
    (queue s) ->
  Forall (fun slot =>
            match slot with
            | None => True
            | Some c =>
                exists start,
                  startServiceTime c = Some start
                  /\ endServiceTime c = Some (start + serviceTime c)
                  /\ arrivalTime c <= start /\ 0 <= serviceTime c
            end) (servers s) ->
  Forall (fun c => arrivalTime c <= currentTime s' /\ 0 <= serviceTime c)
    (queue s')
  /\ Forall (fun slot =>
               match slot with
               | None => True
               | Some c =>
                   exists start,
                     startServiceTime c = Some start
                     /\ endServiceTime c = Some (start + serviceTime c)
                     /\ arrivalTime c <= start /\ 0 <= serviceTime c
               end) (servers s').
Proof.
  intros Hspeed Hrate Hcv0 Hcv1. unfold tick. cbv zeta. at_Q.
  set (newTime := currentTime s + inject_Z 1 / inject_Z 10 * speed p).
  assert (Hlater : currentTime s <= newTime).
  { assert (0 <= inject_Z 1 / inject_Z 10 * speed p)
      by (apply Qmult_le_0_compat; [discriminate | exact Hspeed]).
    unfold newTime. lra. }
  destruct (arrivals_loop _ _ _ _ _ _ _ _ _ _)
    as [[[[nextArrival nextId] dogs] g1] |]; [| discriminate].
  set (arrived := filter _ dogs).
  assert (Harrived : Forall (fun d => ArrivingDog.arrivalTime d <= newTime) arrived).
  { apply Forall_forall. intros d Hd. apply filter_In in Hd.
    apply Qle_bool_iff. exact (proj2 Hd). }
  intros Hrun Hqueue Hservers.
  assert (Hqueue' : Forall (fun c => arrivalTime c <= newTime /\ 0 <= serviceTime c)
                      (queue s)).
  { apply (Forall_impl _ (P := fun c => arrivalTime c <= currentTime s
                                        /\ 0 <= serviceTime c));
      [| exact Hqueue].
    intros c [Ha Hs]. split; [lra | exact Hs]. }
  pose proof (@enqueue_arrived_timing p newTime Hrate Hcv0 Hcv1 arrived
                (queue s) (totalArrived s) g1 Harrived Hqueue') as Henq.
  destruct (enqueue_arrived _ _ p arrived (queue s) (totalArrived s) g1)
    as [[queue1 total1] g2].
  cbn [fst] in Henq.
  pose proof (fun Hnone => @release_Forall newTime _ (servers s) Hnone Hservers)
    as Hreleased.
  specialize (Hreleased I).
  pose proof (@assign_Forall newTime _ _
                (fun customer i (Hc : arrivalTime customer <= newTime
                                      /\ 0 <= serviceTime customer) =>
                   ex_intro _ newTime
                     (conj eq_refl (conj eq_refl Hc)))
                (release newTime (servers s)) 0%nat queue1 Hreleased Henq)
    as [Hs2 Hq2].
  destruct (assign newTime 0 (release newTime (servers s)) queue1)
    as [servers2 queue2].
  cbn [fst snd] in Hs2, Hq2.
  injection Hrun as <- <-. cbn [queue servers currentTime]. now split.
Qed.

Lemma ticks_times (fuel : nat) (ps : list (SimParams Q)) :
  Forall (fun p => 0 <= speed p /\ 0 < serviceRate p
                   /\ 0 <= cvService p /\ cvService p <= 1) ps ->
  forall (s s' : SimState Q) (g g' : Rng),
    ticks Math_random Math_log Math_floor fuel ps s g = Some (s', g') ->
    Forall (fun c => arrivalTime c <= currentTime s /\ 0 <= serviceTime c)
      (queue s) ->
    Forall (fun slot =>
              match slot with
              | None => True
              | Some c =>
                  exists start,
                    startServiceTime c = Some start
                    /\ endServiceTime c = Some (start + serviceTime c)
                    /\ arrivalTime c <= start /\ 0 <= serviceTime c
              end) (servers s) ->
    Forall (fun c => arrivalTime c <= currentTime s' /\ 0 <= serviceTime c)
      (queue s')
    /\ Forall (fun slot =>
                 match slot with
                 | None => True
                 | Some c =>
                     exists start,
                       startServiceTime c = Some start
                       /\ endServiceTime c = Some (start + serviceTime c)
                       /\ arrivalTime c <= start /\ 0 <= serviceTime c
                 end) (servers s').
Proof.
  induction 1 as [| p ps (Hspeed & Hrate & Hcv0 & Hcv1) Hps IH];
    intros s s' g g' Hrun Hqueue Hservers.
  - cbn in Hrun. injection Hrun as <- <-. now split.
  - cbn [ticks] in Hrun.
    destruct (tick Math_random Math_log Math_floor fuel p s g)
      as [[s1 g1] |] eqn:Htick; [| discriminate].
    destruct (@tick_times fuel p s s1 g g1 Hspeed Hrate Hcv0 Hcv1 Htick
                Hqueue Hservers)
      as [Hqueue1 Hservers1].
    exact (IH _ _ _ _ Hrun Hqueue1 Hservers1).
Qed.

(** X28: in exact arithmetic, with Math.random in [0, 1), Math.log not
    positive on (0, 1], and parameters with speed >= 0, a positive
    service rate and 0 <= cvService <= 1, the times of every customer
    are in order in every state reached from a reset: a customer in
    service arrived no later than its service started, and its service
    ends no earlier than it started; a waiting customer arrived no later
    than the current time and has a non-negative service time. *)
Theorem ticks_times_are_ordered
    (fuel : nat) (ps : list (SimParams Q)) (numServers : nat)
    (s : SimState Q) (g g' : Rng) :
  Forall (fun p => 0 <= speed p /\ 0 < serviceRate p
                   /\ 0 <= cvService p /\ cvService p <= 1) ps ->
  ticks Math_random Math_log Math_floor fuel ps (resetSimulation numServers) g
  = Some (s, g') ->
  (forall i customer,
     nth_error (servers s) i = Some (Some customer) ->
     exists start finish,
       startServiceTime customer = Some start
       /\ endServiceTime customer = Some finish
       /\ arrivalTime customer <= start /\ start <= finish)
  /\ (forall customer,
        In customer (queue s) ->
        arrivalTime customer <= currentTime s /\ 0 <= serviceTime customer).
Proof.
  intros Hps Hrun.
  destruct (@ticks_times fuel ps Hps (resetSimulation numServers) s g g' Hrun)
    as [Hqueue Hservers].
  - constructor.
  - cbn [resetSimulation servers]. apply Forall_forall.
    intros slot Hslot. apply repeat_spec in Hslot. now subst slot.
  - split.
    + intros i customer Hi. apply nth_error_In in Hi.
      pose proof (proj1 (Forall_forall _ _) Hservers _ Hi) as Hc.
      cbn in Hc. destruct Hc as (start & Hstart & Hend & Harr & Hserv).
      exists start, (start + serviceTime customer).
      repeat split; try assumption. lra.
    + intros customer Hin.
      exact (proj1 (Forall_forall _ _) Hqueue customer Hin).
Qed.

End TickTimes.

Lemma ticks_times_are_ordered_witness :
  let source := fun g : nat => ((inject_Z (Z.of_nat (g mod 10)) / 10)%Q, S g) in
  let log := fun x : Q => (x - 1)%Q in
  let p := {| arrivalRate := 1%Q; serviceRate := (3 # 2)%Q;
              cvArrival := 1%Q; cvService := (1 # 2)%Q; speed := 1%Q |} in
  (forall g, 0 <= fst (source g) /\ fst (source g) < 1)%Q
  /\ (forall x, 0 < x -> x <= 1 -> log x <= 0)%Q
  /\ Forall (fun p => 0 <= speed p /\ 0 < serviceRate p
                      /\ 0 <= cvService p /\ cvService p <= 1)%Q (repeat p 30)
  /\ exists s g,
       ticks source log Qfloor 50 (repeat p 30) (resetSimulation 2) 0%nat
       = Some (s, g)
       /\ (forall i customer,
             nth_error (servers s) i = Some (Some customer) ->
             exists start finish,
               startServiceTime customer = Some start
               /\ endServiceTime customer = Some finish
               /\ (arrivalTime customer <= start)%Q /\ (start <= finish)%Q)
       /\ (forall customer,
             In customer (queue s) ->
             (arrivalTime customer <= currentTime s)%Q
             /\ (0 <= serviceTime customer)%Q).
Proof.
  intros source log p.
  assert (Hrange : (forall g, 0 <= fst (source g) /\ fst (source g) < 1)%Q).
  { intros g. unfold source. cbn [fst].
    pose proof (Nat.mod_upper_bound g 10 ltac:(lia)) as Hmod.
    assert (H0 : (0 <= inject_Z (Z.of_nat (g mod 10)))%Q).
    { change 0%Q with (inject_Z 0). rewrite <- Zle_Qle. lia. }
    assert (H1 : (inject_Z (Z.of_nat (g mod 10)) < 10)%Q).
    { change 10%Q with (inject_Z 10). rewrite <- Zlt_Qlt. lia. }
    split.
    - apply Qle_shift_div_l; [reflexivity | now rewrite Qmult_0_l].
    - apply Qlt_shift_div_r; [reflexivity | now rewrite Qmult_1_l]. }
  assert (Hlog : (forall x, 0 < x -> x <= 1 -> log x <= 0)%Q).
  { intros x _ Hx. unfold log. lra. }
  assert (Hps : Forall (fun p => 0 <= speed p /\ 0 < serviceRate p
                                 /\ 0 <= cvService p /\ cvService p <= 1)%Q
                  (repeat p 30)).
  { apply Forall_forall. intros q Hq. apply repeat_spec in Hq. subst q.
    cbn. repeat split; try discriminate. }
  repeat (split; [assumption |]).
  destruct (ticks source log Qfloor 50 (repeat p 30) (resetSimulation 2) 0%nat)
    as [[s g] |] eqn:Hrun.
  - exists s, g. split; [reflexivity |].
    exact (@ticks_times_are_ordered nat source log Qfloor Hrange Hlog 50
             (repeat p 30) 2 s 0%nat g Hps Hrun).
  - vm_compute in Hrun. discriminate Hrun.
Defined.

(** ** QueueResults as App calls it *)

Section AppToQueueResults.
Context {num : Type} `{Number num}.
Local Open Scope num_scope.
Variable Math_exp : num -> num.
Variable Math_round : num -> Z.

(** X29: App passes QueueResults the clamped inputs (c = cClamped >= 1,
    K = KClamped >= 0), so for the finite model metrics are always
    shown: results is the value mmckFinite returns, with
    cClamped + KClamped + 1 state probabilities, for every lambda, mu, c
    and K the user enters and at every number carrier; the catch block
    is never entered. *)
Theorem App_finite_results_always_shown
    (lambda mu c K : num) (Q : Z) (t : num) (cache : list num) :
  cache_ok cache ->
  let c' := cClamped Math_round c in
  let K' := KClamped Math_round K in
  exists r cache',
    mmckFinite c' K' (lambdaClamped lambda) (muClamped mu) (Some Q) cache
    = (Return r, cache')
    /\ results Math_exp finite c' K' (lambdaClamped lambda) (muClamped mu)
         Q t cache
       = (Some (inl r), cache')
    /\ length (FiniteQueueResult.stateProbabilities r) = Z.to_nat (c' + K' + 1)
    /\ cache_ok cache'.
Proof.
  intros Hok c' K'.
  assert (Hc : (1 <= c')%Z) by (unfold c', cClamped; lia).
  assert (HK : (0 <= K')%Z) by (unfold K', KClamped; lia).
  destruct (mmckFinite_returns (lambdaClamped lambda) (muClamped mu) (Some Q)
              Hc HK Hok) as (cache' & Hrun & Hok').
  exists (mmckFinite_value c' K' (lambdaClamped lambda) (muClamped mu) (Some Q)),
    cache'.
  split; [exact Hrun |]. split; [| split; [| exact Hok']].
  - unfold results, try_or_null, bind. now rewrite Hrun.
  - unfold mmckFinite_value. cbv zeta.
    cbn [FiniteQueueResult.stateProbabilities].
    now rewrite length_map, length_seq.
Qed.

End AppToQueueResults.

Lemma App_finite_results_always_shown_witness :
  let exp := fun x : Q => (1 / (1 - x))%Q in
  let round := fun x : Q => Qfloor (x + (1 # 2)) in
  cache_ok (factorialCache0 (num := Q))
  /\ exists r cache',
       mmckFinite (cClamped round 0%Q) (KClamped round (-3)%Q)
         (lambdaClamped 30%Q) (muClamped 0%Q) (Some 0%Z) factorialCache0
       = (Return r, cache')
       /\ results exp finite (cClamped round 0%Q) (KClamped round (-3)%Q)
            (lambdaClamped 30%Q) (muClamped 0%Q) 0 0%Q factorialCache0
          = (Some (inl r), cache')
       /\ length (FiniteQueueResult.stateProbabilities r)
          = Z.to_nat (cClamped round 0%Q + KClamped round (-3)%Q + 1)
       /\ cache_ok cache'.
Proof.
  intros exp round.
  pose proof (cache_ok_initial (num := Q)) as Hok.
  split; [exact Hok |].
  exact (@App_finite_results_always_shown Q Number_Q exp round
           30%Q 0%Q 0%Q (-3)%Q 0 0%Q factorialCache0 Hok).
Defined.

(** * Where binary64 departs from the exact formulas *)

(** The identities above that are stated in exact arithmetic are those of
    the formulas the solvers implement.  The program evaluates the same
    formulas in binary64, where cancellation, underflow and overflow can
    take a returned value away from them.  The lemmas of this part
    evaluate the solvers at the carrier [float] on inputs that use
    Math.pow with exponents 0, 1 and 2 only, or with base 1. *)

(** Cancellation in geomWeightedSum: at c = 1, K = 1, lambda = 1 + 2^-27,
    mu = 1 (rho outside the guarded band) the returned Ii is 0 although
    the state with one customer waiting has positive probability. *)
Lemma mmckFinite_Ii_cancels_binary64 :
  let lam := Nadd (NofZ 1) (Ndiv (NofZ 1) (NofZ 134217728)) : float in
  exists r cache',
    mmckFinite (num := float) 1 1 lam (NofZ 1) None factorialCache0
    = (Return r, cache')
    /\ Nltb (Math_abs (Nsub (NofZ 1) (Ndiv lam (Nmul (NofZ 1) (NofZ 1)))))
         lit_1e_12 = false
    /\ FiniteQueueResult.Ii r = NofZ 0
    /\ option_map (Nltb (NofZ 0))
         (nth_error (FiniteQueueResult.stateProbabilities r) 2)
       = Some true.
Proof.
  cbv zeta. eexists. eexists. split; [vm_compute; reflexivity |].
  repeat split; vm_compute; reflexivity.
Qed.

(** Cancellation in the queue-length tail: at c = 1, K = 1, Q = 0,
    lambda = 2^-70, mu = 1 the two geometric sums round to 1, so
    P_q_gt_Q is 0 although the state with one customer waiting has
    positive probability. *)
Lemma mmckFinite_queue_tail_cancels_binary64 :
  exists r cache',
    mmckFinite (num := float) 1 1 0x1p-70%float (NofZ 1) (Some 0%Z)
      factorialCache0
    = (Return r, cache')
    /\ FiniteQueueResult.P_q_gt_Q r = Some (NofZ 0)
    /\ option_map (Nltb (NofZ 0))
         (nth_error (FiniteQueueResult.stateProbabilities r) 2)
       = Some true.
Proof.
  eexists. eexists. split; [vm_compute; reflexivity |].
  repeat split; vm_compute; reflexivity.
Qed.

(** Saturation: at c = 1, K = 0, lambda = 2^60, mu = 1 the blocking
    probability rounds to 1, the effective arrival rate to 0, and the
    R > 0 branch is not taken: T is 0, not 1/mu. *)
Lemma mmckFinite_saturates_binary64 :
  exists r cache',
    mmckFinite (num := float) 1 0 (NofZ 1152921504606846976) (NofZ 1) None
      factorialCache0
    = (Return r, cache')
    /\ FiniteQueueResult.Pb r = NofZ 1
    /\ FiniteQueueResult.R r = NofZ 0
    /\ FiniteQueueResult.Ti r = NofZ 0
    /\ FiniteQueueResult.T r = NofZ 0.
Proof.
  eexists. eexists. split; [vm_compute; reflexivity |].
  repeat split; vm_compute; reflexivity.
Qed.

(** Overflow of the factorial: 170! is the last factorial binary64
    holds; factorial(171) is Infinity.  At c = 171, lambda = mu = 1 the
    stable system gets Pw = 0, Ii = 0 and Ti = 0, and the single class of
    mmcPriority a wait of 0. *)
Lemma factorial_overflows_binary64 :
  fst (factorial (num := float) 171 factorialCache0) = Return infinity
  /\ (exists r cache',
        mmcInfinite (num := float) 171 (NofZ 1) (NofZ 1) (Some 0%Z)
          factorialCache0
        = (Return r, cache')
        /\ InfiniteQueueResult.Pw r = NofZ 0
        /\ InfiniteQueueResult.Ii r = NofZ 0
        /\ InfiniteQueueResult.Ti r = NofZ 0
        /\ InfiniteQueueResult.P_q_gt_Q r = Some (NofZ 0))
  /\ (exists r cache',
        mmcPriority (num := float) 171 (NofZ 1) (NofZ 1) [NofZ 1]
          factorialCache0
        = (Return r, cache')
        /\ map (@Ti_k float) (classes r) = [NofZ 0]).
Proof.
  split; [vm_compute; reflexivity |]. split.
  - eexists. eexists. split; [vm_compute; reflexivity |].
    repeat split; vm_compute; reflexivity.
  - eexists. eexists. split; vm_compute; reflexivity.
Qed.

(** Underflow of the tail: at c = 1, lambda = 2^-600, mu = 1, Q = 1 the
    product Pw * rho^2 underflows to 0 while Pw is positive. *)
Lemma mmcInfinite_queue_tail_underflows_binary64 :
  exists r cache',
    mmcInfinite (num := float) 1 0x1p-600%float (NofZ 1) (Some 1%Z)
      factorialCache0
    = (Return r, cache')
    /\ Nltb (NofZ 0) (InfiniteQueueResult.Pw r) = true
    /\ InfiniteQueueResult.P_q_gt_Q r = Some (NofZ 0).
Proof.
  eexists. eexists. split; [vm_compute; reflexivity |].
  repeat split; vm_compute; reflexivity.
Qed.

(** Rounding of the M/M/1 values: at c = 1, lambda = 1, mu = 3 the
    returned Pw is below the quotient lambda / mu as binary64 computes
    it, and T is below 1 / (mu - lambda) = 0.5. *)
Lemma mmcInfinite_single_server_rounds_binary64 :
  exists r cache',
    mmcInfinite (num := float) 1 (NofZ 1) (NofZ 3) None factorialCache0
    = (Return r, cache')
    /\ Nltb (InfiniteQueueResult.Pw r) (Ndiv (NofZ 1) (NofZ 3)) = true
    /\ Nltb (InfiniteQueueResult.T r)
         (Ndiv (NofZ 1) (Nsub (NofZ 3) (NofZ 1))) = true.
Proof.
  eexists. eexists. split; [vm_compute; reflexivity |].
  repeat split; vm_compute; reflexivity.
Qed.

(** Absorption in the priority solver: at c = 1, lambda = 0.5, mu = 1
    and fractions 2^-60, 2^-60, 0.5 the running value F stays at 1 over
    the first two classes, which get the same wait. *)
Lemma mmcPriority_equal_waits_binary64 :
  exists r cache',
    mmcPriority (num := float) 1 (Ndiv (NofZ 1) (NofZ 2)) (NofZ 1)
      [0x1p-60%float; 0x1p-60%float; Ndiv (NofZ 1) (NofZ 2)] factorialCache0
    = (Return r, cache')
    /\ map (@Ti_k float) (classes r)
       = [Ndiv (NofZ 1) (NofZ 2); Ndiv (NofZ 1) (NofZ 2);
          Ndiv (NofZ 2) (NofZ 3)].
Proof.
  eexists. eexists. split; vm_compute; reflexivity.
Qed.

(** Rounding with a single class: at c = 1, lambda = 1, mu = 5 and
    fractions [1] the class queue length is one unit in the last place
    above Ii_total. *)
Lemma mmcPriority_single_class_rounds_binary64 :
  exists r cache',
    mmcPriority (num := float) 1 (NofZ 1) (NofZ 5) [NofZ 1] factorialCache0
    = (Return r, cache')
    /\ map (fun e => Nltb (Ii_total r) (Ii_k e)) (classes r) = [true].
Proof.
  eexists. eexists. split; vm_compute; reflexivity.
Qed.

(** Rounding of the fractions App passes: with the edited fractions
    0.1, 0.1, 0.1 the array passed is 0.7, 0.1, 0.1, 0.1 as binary64
    has them, and its sum is below 1. *)
Lemma allClassFractions_rounds_binary64 :
  let passed :=
    allClassFractions [NofZ 0; tenths 1; tenths 1; tenths 1] : list float in
  Nltb (sumList passed) (NofZ 1) = true
  /\ float_value (sumList passed)
     = Some (9007199254740991 # 9007199254740992).
Proof.
  cbv zeta. split; vm_compute; reflexivity.
Qed.
